(** * graphql-tools: the FilterToSchema transform and the default merged resolver

    A shallow embedding of [src/transforms/FilterToSchema.ts], of
    [src/stitching/defaultMergedResolver.ts] with the [concatenateTypeDefs]
    and [uniq] that follow it there, and of [decorateToCatchUndefined] of
    [src/makeExecutableSchema.ts].

    JavaScript arrays are lists in index order ([push] appends at the end,
    [pop] removes the last element).  Objects used as dictionaries that
    have no prototype ([fragmentSet], the field map of a type, the type map
    of a schema) are finite maps and sets over their own keys.  A value
    that is [undefined] or [null] where a type object is expected is
    [None].  The [cache] of [union] and [validFragmentsWithType] are object
    literals, and are modelled with what they inherit from their prototype:
    [union] finds every key of [Object.prototype] in its cache, and the
    test [in] of the fragment spreads finds the inherited properties next
    to the own ones. *)

From Stdlib Require Import ZArith.
From stdpp Require Import base option list strings gmap.

Local Open Scope string_scope.
Local Open Scope list_scope.
Local Open Scope nat_scope.
Set Warnings "-register-all".

(** ** The query AST (graphql-js [language/ast]) *)

(** Values.  The leaf kinds (Int, Float, String, Boolean, Null, Enum) carry
    no child nodes; only [VariableNode] is seen by a visitor here. *)
Inductive ValueNode : Type :=
| VariableNode (name : string)
| LeafValueNode (kind : string) (value : string)
| ListValueNode (values : list ValueNode)
| ObjectValueNode (fields : list (string * ValueNode)).

Record ArgumentNode : Type := mkArgument {
  arg_name : string;
  arg_value : ValueNode }.

Record DirectiveNode : Type := mkDirective {
  dir_name : string;
  dir_arguments : list ArgumentNode }.

(** Selections.  A field's [selectionSet] is optional; the selection set of
    an inline fragment is not.  The parser always produces an array for
    [arguments] and [directives]. *)
Inductive SelectionNode : Type :=
| FieldNode (alias : option string) (name : string)
    (arguments : list ArgumentNode) (directives : list DirectiveNode)
    (selectionSet : option (list SelectionNode))
| FragmentSpreadNode (name : string) (directives : list DirectiveNode)
| InlineFragmentNode (typeCondition : option string)
    (directives : list DirectiveNode) (selectionSet : list SelectionNode).

Inductive OperationTypeNode : Type := query | mutation | subscription.

(** The written type of a variable or of a schema field: a type name under
    List and Non-Null wrappers. *)
Inductive TypeNode : Type :=
| NamedTypeNode (name : string)
| ListTypeNode (type : TypeNode)
| NonNullTypeNode (type : TypeNode).

Record VariableDefinitionNode : Type := mkVariableDefinition {
  vd_variable : string;
  vd_type : TypeNode;
  vd_defaultValue : option ValueNode }.

Record OperationDefinitionNode : Type := mkOperation {
  op_operation : OperationTypeNode;
  op_name : option string;
  op_variableDefinitions : list VariableDefinitionNode;
  op_directives : list DirectiveNode;
  op_selectionSet : list SelectionNode }.

Record FragmentDefinitionNode : Type := mkFragment {
  fr_name : string;
  fr_typeCondition : string;
  fr_directives : list DirectiveNode;
  fr_selectionSet : list SelectionNode }.

(** A document may also hold type-system definitions; they are neither
    operations nor fragments and only their kind matters here. *)
Inductive DefinitionNode : Type :=
| OperationDefinition (operation : OperationDefinitionNode)
| FragmentDefinition (fragment : FragmentDefinitionNode)
| TypeSystemDefinition (kind : string).

Record DocumentNode : Type := mkDocument {
  definitions : list DefinitionNode }.

(** ** The type registry (graphql-js [type/definition] and [type/schema]) *)

(** A field definition: its declared type and the names of its declared
    arguments.  In graphql-js [field.type] points at a type object; the
    registry being a cyclic graph, the embedding stores the written type
    and resolves its name through the schema's type map at the point where
    the code reads [field.type]. *)
Record GraphQLField : Type := mkField {
  field_type : TypeNode;
  field_args : list string }.

(** The named types, and [NotAType property]: a value that is no type
    object but is read where the code expects one, namely what the object
    [validFragmentsWithType] inherits from its prototype under
    [property]. *)
Inductive GraphQLNamedType : Type :=
| GraphQLObjectType (name : string) (fields : gmap string GraphQLField)
    (interfaces : list string)
| GraphQLInterfaceType (name : string) (fields : gmap string GraphQLField)
| GraphQLUnionType (name : string) (types : list string)
| GraphQLScalarType (name : string)
| GraphQLEnumType (name : string)
| GraphQLInputObjectType (name : string)
| NotAType (property : string).

Inductive GraphQLType : Type :=
| Named (type : GraphQLNamedType)
| GraphQLList (ofType : GraphQLType)
| GraphQLNonNull (ofType : GraphQLType).

(** A schema, as far as the code reads it: the type map behind [getType],
    the root types, and [typeProperties]: the names of the properties that
    a type object of the schema has of its own or from its class, as
    graphql-js defines them.  They are read in one place only: through an
    object whose prototype the type object has become (see
    [validFragmentsWithTypeOf]). *)
Record GraphQLSchema : Type := mkSchema {
  typeMap : gmap string GraphQLNamedType;
  getQueryType : option GraphQLNamedType;
  getMutationType : option GraphQLNamedType;
  getSubscriptionType : option GraphQLNamedType;
  typeProperties : GraphQLNamedType → list string }.

Definition getType (schema : GraphQLSchema) (name : string)
  : option GraphQLNamedType :=
  typeMap schema !! name.

Definition typeName (t : GraphQLNamedType) : string :=
  match t with
  | GraphQLObjectType n _ _ | GraphQLInterfaceType n _
  | GraphQLUnionType n _ | GraphQLScalarType n
  | GraphQLEnumType n | GraphQLInputObjectType n | NotAType n => n
  end.

(** [parentType.getFields()] of an Object or Interface type. *)
Definition getFields (t : GraphQLNamedType) : gmap string GraphQLField :=
  match t with
  | GraphQLObjectType _ fields _ | GraphQLInterfaceType _ fields => fields
  | _ => ∅
  end.

(** [t instanceof GraphQLObjectType || t instanceof GraphQLInterfaceType],
    on a value that may be undefined. *)
Definition isObjectOrInterface (t : option GraphQLNamedType) : bool :=
  match t with
  | Some (GraphQLObjectType _ _ _) | Some (GraphQLInterfaceType _ _) => true
  | _ => false
  end.

Definition isUnion (t : option GraphQLNamedType) : bool :=
  match t with
  | Some (GraphQLUnionType _ _) => true
  | _ => false
  end.

(** The type object a written type denotes in a schema. *)
Fixpoint typeFromAST (schema : GraphQLSchema) (t : TypeNode)
  : option GraphQLType :=
  match t with
  | NamedTypeNode n => Named <$> getType schema n
  | ListTypeNode t' => GraphQLList <$> typeFromAST schema t'
  | NonNullTypeNode t' => GraphQLNonNull <$> typeFromAST schema t'
  end.

(** graphql-js built-ins used by the transform. *)
Definition GraphQLString : GraphQLNamedType := GraphQLScalarType "String".

(** [TypeNameMetaFieldDef]: name [__typename], type [String!], no
    arguments.  Its type is the built-in scalar object itself, whatever the
    schema holds. *)
Definition TypeNameMetaFieldDef_type : GraphQLType :=
  GraphQLNonNull (Named GraphQLString).
Definition TypeNameMetaFieldDef_args : list string := [].

(** ** JavaScript array helpers *)

(** [array.pop()]: the last element (undefined on an empty array) and the
    array without it. *)
Definition pop {A : Type} (l : list A) : option A * list A :=
  (last l, removelast l).

(** [array.indexOf(x) !== -1]. *)
Definition includes (x : string) (l : list string) : bool :=
  bool_decide (x ∈ l).

(** [i = array.indexOf(x); if (i !== -1) array.splice(i, 1)]: drop the
    first occurrence of [x], if any. *)
Fixpoint spliceFirst (x : string) (l : list string) : list string :=
  match l with
  | [] => []
  | y :: l' => if decide (x = y) then l' else y :: spliceFirst x l'
  end.

(** The names of the properties that every object literal inherits from
    [Object.prototype]; on [{}] each of them reads as a truthy value (a
    function, or the prototype itself for [__proto__]). *)
Definition objectPrototypeKeys : list string :=
  ["constructor"; "__defineGetter__"; "__defineSetter__"; "hasOwnProperty";
   "__lookupGetter__"; "__lookupSetter__"; "isPrototypeOf";
   "propertyIsEnumerable"; "toString"; "valueOf"; "__proto__";
   "toLocaleString"].

(** [union(...arrays)] (FilterToSchema.ts, 326-338): the items of the
    arrays in order, each pushed when [cache[item]] is not yet truthy.  The
    cache is the object literal [{}] (line 327): [cache[item]] is truthy
    from the start for the names of [objectPrototypeKeys], so the set of the
    items for which it is truthy starts as these names, and such an item is
    never pushed. *)
Definition unionStep (acc : gset string * list string) (item : string)
  : gset string * list string :=
  let '(cache, result) := acc in
  if decide (item ∈ cache) then (cache, result)
  else ({[item]} ∪ cache, result ++ [item]).

Definition union (arrays : list (list string)) : list string :=
  snd (foldl unionStep (list_to_set objectPrototypeKeys, []) (concat arrays)).

(** ** The variables of a subtree, in document order *)

Fixpoint valueVariables (v : ValueNode) : list string :=
  match v with
  | VariableNode name => [name]
  | LeafValueNode _ _ => []
  | ListValueNode values =>
      (fix go (vs : list ValueNode) : list string :=
         match vs with
         | [] => []
         | v' :: vs' => valueVariables v' ++ go vs'
         end) values
  | ObjectValueNode fields =>
      (fix go (fs : list (string * ValueNode)) : list string :=
         match fs with
         | [] => []
         | (_, v') :: fs' => valueVariables v' ++ go fs'
         end) fields
  end.

Definition argumentsVariables (args : list ArgumentNode) : list string :=
  concat (map (λ a, valueVariables (arg_value a)) args).

Definition directivesVariables (dirs : list DirectiveNode) : list string :=
  concat (map (λ d, argumentsVariables (dir_arguments d)) dirs).

Fixpoint selectionVariables (node : SelectionNode) : list string :=
  match node with
  | FieldNode _ _ args dirs ss =>
      argumentsVariables args ++ directivesVariables dirs ++
      match ss with
      | None => []
      | Some sels =>
          (fix go (l : list SelectionNode) : list string :=
             match l with
             | [] => []
             | s :: l' => selectionVariables s ++ go l'
             end) sels
      end
  | FragmentSpreadNode _ dirs => directivesVariables dirs
  | InlineFragmentNode _ dirs sels =>
      directivesVariables dirs ++
      (fix go (l : list SelectionNode) : list string :=
         match l with
         | [] => []
         | s :: l' => selectionVariables s ++ go l'
         end) sels
  end.

Definition selectionsVariables (sels : list SelectionNode) : list string :=
  concat (map selectionVariables sels).

(** The fragment spreads of a subtree, in document order. *)
Fixpoint selectionSpreads (node : SelectionNode) : list string :=
  match node with
  | FieldNode _ _ _ _ ss =>
      match ss with
      | None => []
      | Some sels =>
          (fix go (l : list SelectionNode) : list string :=
             match l with
             | [] => []
             | s :: l' => selectionSpreads s ++ go l'
             end) sels
      end
  | FragmentSpreadNode name _ => [name]
  | InlineFragmentNode _ _ sels =>
      (fix go (l : list SelectionNode) : list string :=
         match l with
         | [] => []
         | s :: l' => selectionSpreads s ++ go l'
         end) sels
  end.

Definition selectionsSpreads (sels : list SelectionNode) : list string :=
  concat (map selectionSpreads sels).

(** ** A state monad for the traversal

    The visitor functions of [filterSelectionSet] close over three mutable
    arrays; the embedding threads them as a state. *)
Record VisitState : Type := mkState {
  typeStack : list (option GraphQLType);
  usedFragments : list string;
  usedVariables : list string }.

Definition Visit (A : Type) : Type := VisitState → A * VisitState.

Definition ret {A : Type} (a : A) : Visit A := λ st, (a, st).

Definition bind {A B : Type} (m : Visit A) (k : A → Visit B) : Visit B :=
  λ st, let (a, st') := m st in k a st'.

Notation "x ←- m ;; k" := (bind m (λ x, k))
  (at level 100, m at next level, right associativity).
Notation "m ;;- k" := (bind m (λ _, k))
  (at level 100, right associativity).

(** What a visitor function returns to graphql-js [visit]: [undefined]
    (no change), [null] (delete the node), or a replacement. *)
Inductive VisitorResult (A : Type) : Type :=
| Undefined
| Null
| Replacement (a : A).
Arguments Undefined {A}.
Arguments Null {A}.
Arguments Replacement {A} a.

(** [resolveType] (FilterToSchema.ts, 315-324): strip the List and Non-Null
    wrappers.  [undefined] is an instance of neither class and is returned
    as it is. *)
Fixpoint unwrapType (t : GraphQLType) : GraphQLNamedType :=
  match t with
  | Named n => n
  | GraphQLList t' | GraphQLNonNull t' => unwrapType t'
  end.

Definition resolveType (type : option GraphQLType) : option GraphQLNamedType :=
  unwrapType <$> type.

(** [typeStack[typeStack.length - 1]] *)
Definition topType : Visit (option GraphQLType) :=
  λ st, (mjoin (last (typeStack st)), st).

(** [typeStack.push(t)] *)
Definition pushType (t : option GraphQLType) : Visit unit :=
  λ st, (tt, mkState (typeStack st ++ [t]) (usedFragments st) (usedVariables st)).

(** [typeStack.pop()] *)
Definition popType : Visit (option GraphQLType) :=
  λ st, let (t, rest) := pop (typeStack st) in
        (mjoin t, mkState rest (usedFragments st) (usedVariables st)).

(** [usedFragments.push(name)] *)
Definition pushUsedFragment (name : string) : Visit unit :=
  λ st, (tt, mkState (typeStack st) (usedFragments st ++ [name]) (usedVariables st)).

(** [usedVariables.push(name)] *)
Definition pushUsedVariable (name : string) : Visit unit :=
  λ st, (tt, mkState (typeStack st) (usedFragments st) (usedVariables st ++ [name])).

(** The body of the inner visitor of the Field [leave] (lines 256-261). *)
Definition spliceUsedVariable (name : string) : Visit unit :=
  λ st, (tt, mkState (typeStack st) (usedFragments st)
                     (spliceFirst name (usedVariables st))).

Fixpoint forEach {A : Type} (f : A → Visit unit) (l : list A) : Visit unit :=
  match l with
  | [] => ret tt
  | x :: l' => f x ;;- forEach f l'
  end.

Section FilterSelectionSet.

(** [implementsAbstractType] is imported from a module of its own; the
    transform is embedded over any such function. *)
Variable implementsAbstractType :
  GraphQLSchema → option GraphQLNamedType → option GraphQLNamedType → bool.

Variable schema : GraphQLSchema.

(** The object [validFragments] as the traversal reads it: the properties
    that [in] finds in it, own or inherited, with the values they read as
    (see [validFragmentsWithTypeOf]). *)
Variable validFragments : gmap string GraphQLNamedType.

(** *** The visitor functions (FilterToSchema.ts, 206-305) *)

(** Field [enter] (lines 207-244).  The only replacement it returns is
    [{...node, arguments: args}], given here by its [args]. *)
Definition Field_enter (name : string) (arguments : list ArgumentNode)
  : Visit (VisitorResult (list ArgumentNode)) :=
  top ←- topType ;;
  let parentType := resolveType top in
  if isObjectOrInterface parentType then
    let fields := from_option getFields ∅ parentType in
    let field :=
      if decide (name = "__typename")
      then Some (Some TypeNameMetaFieldDef_type, TypeNameMetaFieldDef_args)
      else (λ f, (typeFromAST schema (field_type f), field_args f))
             <$> fields !! name in
    match field with
    | None => ret Null
    | Some (fieldType, argNames) =>
        pushType fieldType ;;-
        let args := filter (λ arg, arg_name arg ∈ argNames) arguments in
        if decide (length args ≠ length arguments)
        then ret (Replacement args)
        else ret Undefined
    end
  else if isUnion parentType && bool_decide (name = "__typename") then
    pushType (Some TypeNameMetaFieldDef_type) ;;- ret Undefined
  else ret Undefined.

(** Field [leave] (lines 245-267); [node] is the field as [visit] hands it
    over, with the edits of its children applied. *)
Definition Field_leave (node : SelectionNode) : Visit (VisitorResult SelectionNode) :=
  currentType ←- popType ;;
  let resolvedType := resolveType currentType in
  if isObjectOrInterface resolvedType then
    let selections :=
      match node with
      | FieldNode _ _ _ _ (Some sels) => Some sels
      | _ => None
      end in
    match selections with
    | Some (_ :: _) => ret Undefined
    | _ =>
        forEach spliceUsedVariable (selectionVariables node) ;;-
        ret Null
    end
  else ret Undefined.

(** FragmentSpread (lines 269-284): [name in validFragments], then
    [validFragments[name]]. *)
Definition FragmentSpread_enter (name : string) : Visit (VisitorResult SelectionNode) :=
  match validFragments !! name with
  | Some innerType =>
      top ←- topType ;;
      let parentType := resolveType top in
      if negb (implementsAbstractType schema parentType (Some innerType))
      then ret Null
      else pushUsedFragment name ;;- ret Undefined
  | None => ret Null
  end.

(** InlineFragment [enter] and [leave] (lines 285-302). *)
Definition InlineFragment_enter (typeCondition : option string)
  : Visit (VisitorResult SelectionNode) :=
  match typeCondition with
  | Some cond =>
      let innerType := getType schema cond in
      top ←- topType ;;
      let parentType := resolveType top in
      if implementsAbstractType schema parentType innerType
      then pushType (Named <$> innerType) ;;- ret Undefined
      else ret Null
  | None => ret Undefined
  end.

Definition InlineFragment_leave : Visit (VisitorResult SelectionNode) :=
  popType ;;- ret Undefined.

(** Variable (lines 303-305). *)
Definition Variable_enter (name : string) : Visit unit :=
  pushUsedVariable name.

(** *** graphql-js [visit] under this visitor

    Depth first, children in the key order of the node kind
    (Field: alias, name, arguments, directives, selectionSet;
    FragmentSpread: name, directives; InlineFragment: typeCondition,
    directives, selectionSet).  A node whose [enter] returns [null]
    is deleted without visiting its children and without calling
    [leave]; after a replacement the traversal continues in the
    replacement; a node whose [leave] returns [null] is deleted. *)
Fixpoint visitValue (v : ValueNode) : Visit unit :=
  match v with
  | VariableNode name => Variable_enter name
  | LeafValueNode _ _ => ret tt
  | ListValueNode values =>
      (fix go (vs : list ValueNode) : Visit unit :=
         match vs with
         | [] => ret tt
         | v' :: vs' => visitValue v' ;;- go vs'
         end) values
  | ObjectValueNode fields =>
      (fix go (fs : list (string * ValueNode)) : Visit unit :=
         match fs with
         | [] => ret tt
         | (_, v') :: fs' => visitValue v' ;;- go fs'
         end) fields
  end.

Definition visitArguments (args : list ArgumentNode) : Visit unit :=
  forEach (λ a, visitValue (arg_value a)) args.

Definition visitDirectives (dirs : list DirectiveNode) : Visit unit :=
  forEach (λ d, visitArguments (dir_arguments d)) dirs.

Fixpoint visitSelection (node : SelectionNode) : Visit (option SelectionNode) :=
  match node with
  | FieldNode alias name arguments directives selectionSet =>
      entered ←- Field_enter name arguments ;;
      match entered with
      | Null => ret None
      | _ =>
          let arguments' :=
            match entered with
            | Replacement args => args
            | _ => arguments
            end in
          visitArguments arguments' ;;-
          visitDirectives directives ;;-
          selectionSet' ←-
            match selectionSet with
            | None => ret None
            | Some sels =>
                sels' ←-
                  (fix go (l : list SelectionNode) : Visit (list SelectionNode) :=
                     match l with
                     | [] => ret []
                     | s :: l' =>
                         r ←- visitSelection s ;;
                         rs ←- go l' ;;
                         ret (match r with Some s' => s' :: rs | None => rs end)
                     end) sels ;;
                ret (Some sels')
            end ;;
          let node' := FieldNode alias name arguments' directives selectionSet' in
          result ←- Field_leave node' ;;
          match result with
          | Null => ret None
          | Replacement n => ret (Some n)
          | Undefined => ret (Some node')
          end
      end
  | FragmentSpreadNode name directives =>
      entered ←- FragmentSpread_enter name ;;
      match entered with
      | Null => ret None
      | _ => visitDirectives directives ;;- ret (Some node)
      end
  | InlineFragmentNode typeCondition directives selectionSet =>
      entered ←- InlineFragment_enter typeCondition ;;
      match entered with
      | Null => ret None
      | _ =>
          visitDirectives directives ;;-
          sels' ←-
            (fix go (l : list SelectionNode) : Visit (list SelectionNode) :=
               match l with
               | [] => ret []
               | s :: l' =>
                   r ←- visitSelection s ;;
                   rs ←- go l' ;;
                   ret (match r with Some s' => s' :: rs | None => rs end)
               end) selectionSet ;;
          InlineFragment_leave ;;-
          ret (Some (InlineFragmentNode typeCondition directives sels'))
      end
  end.

(** The children of a [selections] array, left to right. *)
Fixpoint visitSelections (l : list SelectionNode) : Visit (list SelectionNode) :=
  match l with
  | [] => ret []
  | s :: l' =>
      r ←- visitSelection s ;;
      rs ←- visitSelections l' ;;
      ret (match r with Some s' => s' :: rs | None => rs end)
  end.

Record FilterResult : Type := mkFilterResult {
  res_selectionSet : list SelectionNode;
  res_usedFragments : list string;
  res_usedVariables : list string }.

(** [filterSelectionSet] (FilterToSchema.ts, 194-313). *)
Definition filterSelectionSet (type : option GraphQLType)
    (selectionSet : list SelectionNode) : FilterResult :=
  let (filteredSelectionSet, st) :=
    visitSelections selectionSet (mkState [type] [] []) in
  mkFilterResult filteredSelectionSet (usedFragments st) (usedVariables st).

End FilterSelectionSet.

(** ** Requests *)

(** JavaScript values, as far as the code looks at them.  An object is
    given by its own properties; a function, such as the [constructor] an
    object inherits, is known by its identity. *)
Inductive JSValue : Type :=
| JSUndefined
| JSNull
| JSBoolean (b : bool)
| JSNumber (n : Z)
| JSNaN
| JSString (s : string)
| JSArray (items : list JSValue)
| JSObject (properties : list (string * JSValue))
| JSFunction (ref : nat).

(** [Request] of [Interfaces.ts]: the document, the variable values and the
    optional extensions. *)
Record Request : Type := mkRequest {
  document : DocumentNode;
  variables : gmap string JSValue;
  extensions : option (gmap string JSValue) }.

(** ** The document transform *)

Section FilterToSchema.

Variable implementsAbstractType :
  GraphQLSchema → option GraphQLNamedType → option GraphQLNamedType → bool.

Variable targetSchema : GraphQLSchema.

(** *** [collectFragmentVariables] (FilterToSchema.ts, 140-192)

    The parameter [usedFragments] starts as the very array the caller
    passes; [pop] mutates that array until the first assignment
    [usedFragments = union(...)] rebinds the local variable.  The state
    keeps the caller's array ([callerArray]) and whether the local
    variable still refers to it ([aliased]). *)
Record CollectState : Type := mkCollect {
  callerArray : list string;
  aliased : bool;
  worklist : list string;
  collectedVariables : list string;
  collectedFragments : list FragmentDefinitionNode;
  fragmentSet : gset string }.

Variable validFragments : list FragmentDefinitionNode.
Variable validFragmentsWithType : gmap string GraphQLNamedType.

(** One iteration of the [while] loop (lines 151-184). *)
Definition collectStep (st : CollectState) : CollectState :=
  let (nextFragmentName, rest) := pop (worklist st) in
  let callerArray' := if aliased st then rest else callerArray st in
  match find (λ fr, bool_decide (Some (fr_name fr) = nextFragmentName))
             validFragments with
  | Some fragment =>
      let name := fr_name fragment in
      let typeName := fr_typeCondition fragment in
      let type := getType targetSchema typeName in
      let r := filterSelectionSet implementsAbstractType targetSchema
                 validFragmentsWithType (Named <$> type)
                 (fr_selectionSet fragment) in
      let usedFragments' := union [rest; res_usedFragments r] in
      let usedVariables' := union [collectedVariables st; res_usedVariables r] in
      if decide (name ∈ fragmentSet st) then
        mkCollect callerArray' false usedFragments' usedVariables'
                  (collectedFragments st) (fragmentSet st)
      else
        mkCollect callerArray' false usedFragments' usedVariables'
                  (collectedFragments st ++
                     [mkFragment name typeName [] (res_selectionSet r)])
                  ({[name]} ∪ fragmentSet st)
  | None =>
      mkCollect callerArray' (aliased st) rest (collectedVariables st)
                (collectedFragments st) (fragmentSet st)
  end.

(** The loop [while (usedFragments.length !== 0)], with [fuel] bounding
    the number of iterations; [None] when the fuel runs out. *)
Fixpoint collectLoop (fuel : nat) (st : CollectState) : option CollectState :=
  match worklist st with
  | [] => Some st
  | _ :: _ =>
      match fuel with
      | O => None
      | S fuel' => collectLoop fuel' (collectStep st)
      end
  end.

Definition collectFragmentVariables (fuel : nat) (fragmentSet : gset string)
    (usedFragments : list string) : option CollectState :=
  collectLoop fuel (mkCollect usedFragments true usedFragments [] [] fragmentSet).

(** *** [filterDocumentToSchema] (FilterToSchema.ts, 47-138) *)

Record DocumentState : Type := mkDocState {
  doc_usedFragments : list string;
  newOperations : list OperationDefinitionNode;
  newFragments : list FragmentDefinitionNode;
  doc_fragmentSet : gset string }.

Definition rootType (operation : OperationTypeNode) : option GraphQLNamedType :=
  match operation with
  | subscription => getSubscriptionType targetSchema
  | mutation => getMutationType targetSchema
  | query => getQueryType targetSchema
  end.

(** The body of [operations.forEach] (lines 80-132). *)
Definition filterOperation (fuel : nat) (st : DocumentState)
    (operation : OperationDefinitionNode) : option DocumentState :=
  let type := rootType (op_operation operation) in
  let r := filterSelectionSet implementsAbstractType targetSchema
             validFragmentsWithType (Named <$> type)
             (op_selectionSet operation) in
  let usedFragments := union [doc_usedFragments st; res_usedFragments r] in
  collected ← collectFragmentVariables fuel (doc_fragmentSet st) usedFragments;
  let fullUsedVariables :=
    union [res_usedVariables r; collectedVariables collected] in
  let variableDefinitions :=
    filter (λ v, includes (vd_variable v) fullUsedVariables = true)
           (op_variableDefinitions operation) in
  Some (mkDocState
          (callerArray collected)
          (newOperations st ++
             [mkOperation (op_operation operation) (op_name operation)
                variableDefinitions (op_directives operation)
                (res_selectionSet r)])
          (collectedFragments collected)
          (fragmentSet collected)).

Fixpoint filterOperations (fuel : nat) (st : DocumentState)
    (operations : list OperationDefinitionNode) : option DocumentState :=
  match operations with
  | [] => Some st
  | operation :: rest =>
      st' ← filterOperation fuel st operation;
      filterOperations fuel st' rest
  end.

End FilterToSchema.

Definition operationsOf (d : DocumentNode) : list OperationDefinitionNode :=
  omap (λ def, match def with OperationDefinition o => Some o | _ => None end)
       (definitions d).

Definition fragmentsOf (d : DocumentNode) : list FragmentDefinitionNode :=
  omap (λ def, match def with FragmentDefinition f => Some f | _ => None end)
       (definitions d).

Section Transform.

Variable implementsAbstractType :
  GraphQLSchema → option GraphQLNamedType → option GraphQLNamedType → bool.

(** The fragments whose type condition names a type of the schema
    (lines 64-69). *)
Definition validFragmentsOf (targetSchema : GraphQLSchema)
    (fragments : list FragmentDefinitionNode) : list FragmentDefinitionNode :=
  filter (λ fragment, is_Some (getType targetSchema (fr_typeCondition fragment)))
         fragments.

(** The object literal [validFragmentsWithType] (line 71): its own
    properties, and the type object that has become its prototype, if
    any. *)
Record FragmentTypes : Type := mkFragmentTypes {
  ownTypes : gmap string GraphQLNamedType;
  prototypeType : option GraphQLNamedType }.

(** [validFragmentsWithType[name] = type] (line 75): the assignment makes
    an own property, a later fragment of the same name overwriting an
    earlier one; under the name [__proto__] it runs the setter that
    [Object.prototype] defines, which makes the type object the prototype
    of the object and adds no own property. *)
Definition setFragmentType (object : FragmentTypes) (name : string)
    (type : GraphQLNamedType) : FragmentTypes :=
  if bool_decide (name = "__proto__")
  then mkFragmentTypes (ownTypes object) (Some type)
  else mkFragmentTypes (<[name := type]> (ownTypes object))
                       (prototypeType object).

(** Inherited properties, each holding a value that is no type. *)
Definition inheritedAs (properties : list string)
  : gmap string GraphQLNamedType :=
  list_to_map ((λ property, (property, NotAType property)) <$> properties).

(** What [name in validFragments] finds and [validFragments[name]] reads
    (lines 270, 274): an own property; else a property of the prototype
    chain, which is [Object.prototype], or the type object that replaced it
    followed by [Object.prototype].  [__proto__] reads the prototype
    itself. *)
Definition propertiesOf (targetSchema : GraphQLSchema)
    (object : FragmentTypes) : gmap string GraphQLNamedType :=
  ownTypes object ∪
  match prototypeType object with
  | Some type =>
      <["__proto__" := type]> (inheritedAs (typeProperties targetSchema type))
  | None => ∅
  end ∪
  inheritedAs objectPrototypeKeys.

(** [validFragmentsWithType] (lines 71-76), as the traversal reads it. *)
Definition validFragmentsWithTypeOf (targetSchema : GraphQLSchema)
    (validFragments : list FragmentDefinitionNode)
  : gmap string GraphQLNamedType :=
  propertiesOf targetSchema
    (foldl (λ object fragment,
              match getType targetSchema (fr_typeCondition fragment) with
              | Some type => setFragmentType object (fr_name fragment) type
              | None => object
              end)
           (mkFragmentTypes ∅ None) validFragments).

Definition filterDocumentToSchema (fuel : nat) (targetSchema : GraphQLSchema)
    (document : DocumentNode) : option DocumentNode :=
  let operations := operationsOf document in
  let fragments := fragmentsOf document in
  let validFragments := validFragmentsOf targetSchema fragments in
  let validFragmentsWithType :=
    validFragmentsWithTypeOf targetSchema validFragments in
  st ← filterOperations implementsAbstractType targetSchema validFragments
         validFragmentsWithType fuel (mkDocState [] [] [] ∅) operations;
  Some (mkDocument
          (map OperationDefinition (newOperations st) ++
           map FragmentDefinition (newFragments st))).

(** [FilterToSchema.transformRequest] (lines 35-44):
    [{...originalRequest, document}]. *)
Definition transformRequest (fuel : nat) (targetSchema : GraphQLSchema)
    (originalRequest : Request) : option Request :=
  document' ← filterDocumentToSchema fuel targetSchema (document originalRequest);
  Some (mkRequest document' (variables originalRequest)
                  (extensions originalRequest)).

End Transform.

(** ** A concrete type-compatibility check and a concrete schema *)

(** The object types a composite type can stand for. *)
Definition possibleTypes (schema : GraphQLSchema) (t : GraphQLNamedType)
  : list string :=
  match t with
  | GraphQLObjectType n _ _ => [n]
  | GraphQLInterfaceType n _ =>
      omap (λ entry,
              match snd entry with
              | GraphQLObjectType o _ ifaces =>
                  if decide (n ∈ ifaces) then Some o else None
              | _ => None
              end)
           (map_to_list (typeMap schema))
  | GraphQLUnionType _ types => types
  | _ => []
  end.

(** Modelled from the spec: [implementsAbstractType] of
    [src/implementsAbstractType.ts], which is not among the sources.  The
    spec (4.1) calls it an "implements-or-equals" check over interfaces and
    unions: two types are compatible when they are the same type, or when
    they are composite types that share a possible object type.  A value
    that is no type is compatible with nothing. *)
Definition implementsOrEquals (schema : GraphQLSchema)
    (typeA typeB : option GraphQLNamedType) : bool :=
  match typeA, typeB with
  | Some (NotAType _), _ | _, Some (NotAType _) => false
  | None, None => true
  | Some a, Some b =>
      bool_decide (typeName a = typeName b) ||
      existsb (λ o, bool_decide (o ∈ possibleTypes schema b))
              (possibleTypes schema a)
  | _, _ => false
  end.

(** The properties of the type objects of the examples, in the manner of
    graphql-js. *)
Definition typeObjectProperties : list string :=
  ["name"; "description"; "astNode"; "extensionASTNodes"; "isTypeOf";
   "getFields"; "getInterfaces"; "toJSON"; "inspect"].

Module Booking.

(** A schema in the shape of the booking schema the tests filter
    against. *)
Definition ID : TypeNode := NamedTypeNode "ID".
Definition NN (t : TypeNode) : TypeNode := NonNullTypeNode t.

Definition Address : GraphQLNamedType :=
  GraphQLObjectType "Address"
    (list_to_map [("street", mkField (NamedTypeNode "String") []);
                  ("city", mkField (NamedTypeNode "String") [])]) [].

Definition BookingT : GraphQLNamedType :=
  GraphQLObjectType "Booking"
    (list_to_map [("id", mkField (NN ID) []);
                  ("propertyId", mkField (NN ID) []);
                  ("customer", mkField (NN (NamedTypeNode "Customer")) [])]) [].

Definition Customer : GraphQLNamedType :=
  GraphQLObjectType "Customer"
    (list_to_map [("id", mkField (NN ID) []);
                  ("name", mkField (NN (NamedTypeNode "String")) []);
                  ("address", mkField (NamedTypeNode "Address") []);
                  ("bookings",
                    mkField (ListTypeNode (NN (NamedTypeNode "Booking"))) ["limit"]);
                  ("vehicle", mkField (NamedTypeNode "Vehicle") [])])
    ["Person"].

Definition Person : GraphQLNamedType :=
  GraphQLInterfaceType "Person"
    (list_to_map [("id", mkField (NN ID) []);
                  ("name", mkField (NN (NamedTypeNode "String")) [])]).

Definition Bike : GraphQLNamedType :=
  GraphQLObjectType "Bike"
    (list_to_map [("id", mkField (NN ID) []);
                  ("bikeType", mkField (NamedTypeNode "String") [])]) [].

Definition Car : GraphQLNamedType :=
  GraphQLObjectType "Car"
    (list_to_map [("id", mkField (NN ID) []);
                  ("licensePlate", mkField (NamedTypeNode "String") [])]) [].

Definition Vehicle : GraphQLNamedType := GraphQLUnionType "Vehicle" ["Bike"; "Car"].

Definition Query : GraphQLNamedType :=
  GraphQLObjectType "Query"
    (list_to_map [("bookingById", mkField (NamedTypeNode "Booking") ["id"]);
                  ("customerById", mkField (NamedTypeNode "Customer") ["id"]);
                  ("version", mkField (NamedTypeNode "String") [])]) [].

Definition bookingSchema : GraphQLSchema :=
  mkSchema
    (list_to_map [("Query", Query); ("Booking", BookingT);
                  ("Customer", Customer); ("Person", Person);
                  ("Address", Address); ("Vehicle", Vehicle);
                  ("Bike", Bike); ("Car", Car);
                  ("ID", GraphQLScalarType "ID");
                  ("Int", GraphQLScalarType "Int");
                  ("String", GraphQLString)])
    (Some Query) None None (λ _, typeObjectProperties).

Definition leaf (name : string) : SelectionNode := FieldNode None name [] [] None.
Definition var (arg name : string) : ArgumentNode := mkArgument arg (VariableNode name).
Definition varDef (name type : string) : VariableDefinitionNode :=
  mkVariableDefinition name (NamedTypeNode type) None.

Definition filter (fuel : nat) (d : DocumentNode) : option DocumentNode :=
  filterDocumentToSchema implementsOrEquals fuel bookingSchema d.

End Booking.

(** ** The default merged resolver ([src/stitching/defaultMergedResolver.ts]) *)

Inductive PathKey : Type :=
| Key (name : string)
| Index (i : nat).

(** The [path] of a [GraphQLResolveInfo]: a linked list from the field back
    to the root, [{ prev, key }]. *)
Inductive ResponsePath : Type :=
| PathEnd
| PathStep (prev : ResponsePath) (key : PathKey).

(** graphql-js [responsePathAsArray]: the keys from the root down. *)
Fixpoint responsePathAsArray (path : ResponsePath) : list PathKey :=
  match path with
  | PathEnd => []
  | PathStep prev key => responsePathAsArray prev ++ [key]
  end.

(** An error object: a plain [Error] has a message only; a GraphQLError also
    has nodes and a path. *)
Record JSError : Type := mkError {
  err_message : string;
  err_nodes : option (list SelectionNode);
  err_path : option (list PathKey) }.

(** [new Error(message)] *)
Definition newError (message : string) : JSError := mkError message None None.

(** graphql-js [locatedError(originalError, nodes, path)]: an error that
    already has a path is returned as it is; otherwise a GraphQLError with
    the original message, the given nodes and the given path. *)
Definition locatedError (originalError : JSError)
    (nodes : list SelectionNode) (path : list PathKey) : JSError :=
  match err_path originalError with
  | Some _ => originalError
  | None =>
      mkError (err_message originalError)
              (Some (default nodes (err_nodes originalError)))
              (Some path)
  end.

Record GraphQLResolveInfo : Type := mkInfo {
  fieldName : string;
  fieldNodes : list SelectionNode;
  path : ResponsePath }.

(** What [getErrorsFromParent] returns: [{ kind: 'OWN', error }] or
    [{ kind: 'CHILDREN', errors }]. *)
Inductive ErrorResult : Type :=
| OWN (error : JSError)
| CHILDREN (errors : option (list JSError)).

(** A call either returns or throws. *)
Inductive Completion (A : Type) : Type :=
| Return (a : A)
| Throw (e : JSError).
Arguments Return {A} a.
Arguments Throw {A} e.

(** [!value] is false *)
Definition truthy (v : JSValue) : bool :=
  match v with
  | JSUndefined | JSNull | JSNaN => false
  | JSBoolean b => b
  | JSNumber n => negb (n =? 0)%Z
  | JSString s => negb (bool_decide (s = ""))
  | JSArray _ | JSObject _ | JSFunction _ => true
  end.

(** [value == null] *)
Definition looselyNull (v : JSValue) : bool :=
  match v with
  | JSUndefined | JSNull => true
  | _ => false
  end.

Section DefaultMergedResolver.

(** What JavaScript answers when [key] is not an own property of an object,
    and for every read on a value that is not an object of the model: the
    properties a value has built in or inherits from its prototype, such as
    the [length] and the indices of a string or an array, or the
    [constructor] and [toString] every object inherits from
    [Object.prototype]; [undefined] where there is none. *)
Variable builtinProperty : JSValue → string → JSValue.

(** [object[key]]: an own property of the object hides what the prototype
    has under the same key.  The resolver reads no property of [undefined]
    or [null], where JavaScript throws: its parent is truthy, and
    [parent.data] is read from only after it was found truthy. *)
Definition getProperty (object : JSValue) (key : string) : JSValue :=
  match object with
  | JSObject properties =>
      match find (λ p, bool_decide (fst p = key)) properties with
      | Some p => snd p
      | None => builtinProperty object key
      end
  | _ => builtinProperty object key
  end.

(** The helpers imported from [./errors] and [./getResponseKeyFromInfo];
    as any function call, each may throw. *)
Variable getResponseKeyFromInfo : GraphQLResolveInfo → Completion string.
Variable getErrorsFromParent : JSValue → string → Completion ErrorResult.
Variable annotateWithChildrenErrors :
  JSValue → list JSError → Completion JSValue.

(** [defaultMergedResolver] (lines 9-36). *)
Definition defaultMergedResolver (parent args context : JSValue)
    (info : GraphQLResolveInfo) : Completion JSValue :=
  if negb (truthy parent) then Return JSNull
  else
    match getResponseKeyFromInfo info with
    | Throw e => Throw e
    | Return responseKey =>
        match getErrorsFromParent parent responseKey with
        | Throw e => Throw e
        | Return (OWN error) =>
            Throw (locatedError (newError (err_message error))
                     (fieldNodes info) (responsePathAsArray (path info)))
        | Return (CHILDREN errors) =>
            let result := getProperty parent responseKey in
            let result :=
              if looselyNull result
              then getProperty parent (fieldName info) else result in
            let data := getProperty parent "data" in
            let result :=
              if negb (truthy result) && truthy data
                 && truthy (getProperty data responseKey)
              then getProperty data responseKey else result in
            match errors with
            | Some errors' => annotateWithChildrenErrors result errors'
            | None => Return result
            end
        end
    end.

End DefaultMergedResolver.

(** ** Type definitions ([src/stitching/defaultMergedResolver.ts], 39-81) *)

(** [uniq] (lines 73-79): a [reduce] that appends the current value to the
    accumulator unless [indexOf] finds it there. *)
Definition uniqStep {A : Type} `{EqDecision A} (accumulator : list A)
    (currentValue : A) : list A :=
  if decide (currentValue ∈ accumulator) then accumulator
  else accumulator ++ [currentValue].

Definition uniq {A : Type} `{EqDecision A} (array : list A) : list A :=
  foldl uniqStep [] array.

(** The types of the values that are neither strings, functions, [null]
    nor [undefined]; [ObjectType] is an object without a [kind]. *)
Inductive OtherType : Type :=
| NumberType | BooleanType | ObjectType | SymbolType | BigIntType.

(** [typeof] on these values. *)
Definition typeOf (t : OtherType) : string :=
  match t with
  | NumberType => "number"
  | BooleanType => "boolean"
  | ObjectType => "object"
  | SymbolType => "symbol"
  | BigIntType => "bigint"
  end.

(** An element of the array of type definitions, as [concatenateTypeDefs]
    tells them apart: a string; an object with a [kind] (a parsed
    document); a function, known by its identity; [null] or [undefined];
    any other value, of which only [typeof] is looked at. *)
Inductive ITypedef : Type :=
| StringTypedef (source : string)
| DocumentTypedef (document : DocumentNode)
| FunctionTypedef (ref : nat)
| NullishTypedef
| OtherTypedef (type : OtherType).

(** What a call of [concatenateTypeDefs] throws: the [SchemaError] of line
    65, or the [TypeError] of reading [kind] on [null] or [undefined]
    (line 50). *)
Inductive TypeDefsError : Type :=
| SchemaError (message : string)
| TypeError.

(** [array.join(separator)]. *)
Fixpoint join (separator : string) (array : list string) : string :=
  match array with
  | [] => ""
  | [x] => x
  | x :: rest => x ++ separator ++ join separator rest
  end.

(** The line feed, the separator of [join] on line 70. *)
Definition lineFeed : string := String (Ascii.ascii_of_nat 10) "".

Section ConcatenateTypeDefs.

(** graphql-js [print] and [String.prototype.trim]. *)
Variable print : DocumentNode → string.
Variable trim : string → string.

(** The arrays the functions return when called; a function is called at
    most once in a run, so one array each is enough.  A function for which
    the table has no entry returns the empty array. *)
Variable functions : list (list ITypedef).

(** The body of [typeDefinitionsAry.forEach] (lines 49-69) over the
    elements in turn, with [resolvedTypeDefinitions] and
    [calledFunctionRefs] as they are updated; [recur] is the recursive call
    of line 58. *)
Fixpoint forEachTypeDef
    (recur : list ITypedef → list nat → option (TypeDefsError + string * list nat))
    (typeDefinitionsAry : list ITypedef)
    (resolvedTypeDefinitions : list string) (calledFunctionRefs : list nat)
  : option (TypeDefsError + list string * list nat) :=
  match typeDefinitionsAry with
  | [] => Some (inr (resolvedTypeDefinitions, calledFunctionRefs))
  | typeDef :: rest =>
      match typeDef with
      | NullishTypedef => Some (inl TypeError)
      | DocumentTypedef document =>
          forEachTypeDef recur rest
            (resolvedTypeDefinitions ++ [trim (print document)])
            calledFunctionRefs
      | StringTypedef source =>
          forEachTypeDef recur rest
            (resolvedTypeDefinitions ++ [trim source]) calledFunctionRefs
      | FunctionTypedef ref =>
          if decide (ref ∈ calledFunctionRefs)
          then forEachTypeDef recur rest resolvedTypeDefinitions
                 calledFunctionRefs
          else
            match recur (default [] (functions !! ref))
                        (calledFunctionRefs ++ [ref]) with
            | None => None
            | Some (inl error) => Some (inl error)
            | Some (inr (concatenated, calledFunctionRefs')) =>
                forEachTypeDef recur rest
                  (resolvedTypeDefinitions ++ [concatenated])
                  calledFunctionRefs'
            end
      | OtherTypedef type =>
          Some (inl (SchemaError
                       ("typeDef array must contain only strings and functions, got "
                        ++ typeOf type)))
      end
  end.

(** [concatenateTypeDefs] (lines 44-71); [fuel] bounds the depth of the
    recursion through functions, [None] when it runs out.  The array of the
    functions called so far is handed on and returned with the string. *)
Fixpoint concatenateTypeDefs (fuel : nat) (typeDefinitionsAry : list ITypedef)
    (calledFunctionRefs : list nat)
  : option (TypeDefsError + string * list nat) :=
  match fuel with
  | O => None
  | S fuel' =>
      match forEachTypeDef (concatenateTypeDefs fuel') typeDefinitionsAry []
                           calledFunctionRefs with
      | None => None
      | Some (inl error) => Some (inl error)
      | Some (inr (resolvedTypeDefinitions, calledFunctionRefs')) =>
          Some (inr (join lineFeed (uniq (map trim resolvedTypeDefinitions)),
                     calledFunctionRefs'))
      end
  end.

End ConcatenateTypeDefs.

(** ** Resolvers that must not return undefined ([src/makeExecutableSchema.ts]) *)

(** A field resolver: [(root, args, ctx, info) => result], which may
    throw. *)
Definition GraphQLFieldResolver : Type :=
  JSValue → JSValue → JSValue → GraphQLResolveInfo → Completion JSValue.

(** The double quote of the error message. *)
Definition doubleQuote : string := String (Ascii.ascii_of_nat 34) "".

Section DecorateToCatchUndefined.

(** graphql-js [defaultFieldResolver]. *)
Variable defaultFieldResolver : GraphQLFieldResolver.

(** [decorateToCatchUndefined] (lines 94-108); [fn] is [None] when
    [typeof fn === 'undefined']. *)
Definition decorateToCatchUndefined (fn : option GraphQLFieldResolver)
    (hint : string) : GraphQLFieldResolver :=
  let fn := match fn with
            | None => defaultFieldResolver
            | Some fn => fn
            end in
  λ root args ctx info,
    match fn root args ctx info with
    | Throw e => Throw e
    | Return result =>
        match result with
        | JSUndefined =>
            Throw (newError ("Resolve function for " ++ doubleQuote ++ hint
                             ++ doubleQuote ++ " returned undefined"))
        | _ => Return result
        end
    end.

End DecorateToCatchUndefined.

(* ===================================================================== *)
(** * Vocabulary of the properties *)
(* ===================================================================== *)

(** ** States of the traversal *)

(** [st] after [usedVariables.push] of each of [vars]. *)
Definition withVariables (st : VisitState) (vars : list string) : VisitState :=
  mkState (typeStack st) (usedFragments st) (usedVariables st ++ vars).

(** [typeStack[typeStack.length - 1]]; [None] is JavaScript's [undefined],
    read on an empty stack or pushed by a handler. *)
Definition topOf (st : VisitState) : option GraphQLType :=
  mjoin (last (typeStack st)).

(** [st] after [typeStack.push(t)]. *)
Definition pushed (st : VisitState) (t : option GraphQLType) : VisitState :=
  mkState (typeStack st ++ [t]) (usedFragments st) (usedVariables st).

(** [st] after [typeStack.pop()]; on an empty stack nothing changes. *)
Definition popped (st : VisitState) : VisitState :=
  mkState (removelast (typeStack st)) (usedFragments st) (usedVariables st).

(** [st] after [usedFragments.push(name)]. *)
Definition withFragment (st : VisitState) (name : string) : VisitState :=
  mkState (typeStack st) (usedFragments st ++ [name]) (usedVariables st).

(** [st] after Field [leave] has retracted, for each of [vars] in turn, the
    first occurrence of the name in [usedVariables]. *)
Definition spliced (st : VisitState) (vars : list string) : VisitState :=
  mkState (typeStack st) (usedFragments st)
          (foldl (λ used name, spliceFirst name used) (usedVariables st) vars).

(** The state after a subtree that is kept whole. *)
Definition afterKept (st : VisitState) (spreads variables : list string)
  : VisitState :=
  mkState (typeStack st) (usedFragments st ++ spreads)
          (usedVariables st ++ variables).

(** The state in which [filterSelectionSet] starts the traversal. *)
Definition rootState (type : GraphQLNamedType) : VisitState :=
  mkState [Some (Named type)] [] [].

(** ** The decisions of the visitor functions *)

(** The field definition Field [enter] finds on an Object or Interface
    parent: its type and its argument names. *)
Definition fieldOn (schema : GraphQLSchema) (parentType : option GraphQLNamedType)
    (name : string) : option (option GraphQLType * list string) :=
  if decide (name = "__typename")
  then Some (Some TypeNameMetaFieldDef_type, TypeNameMetaFieldDef_args)
  else (λ f, (typeFromAST schema (field_type f), field_args f))
         <$> from_option getFields ∅ parentType !! name.

(** The arguments Field [enter] keeps: those the field definition declares. *)
Definition filterArguments (argNames : list string) (arguments : list ArgumentNode)
  : list ArgumentNode :=
  filter (λ arg, arg_name arg ∈ argNames) arguments.

(** Whether Field [leave] finds a selection on the node. *)
Definition hasSelections (node : SelectionNode) : bool :=
  match node with
  | FieldNode _ _ _ _ (Some (_ :: _)) => true
  | _ => false
  end.

(** Whether the node is of kind [Kind.FIELD]. *)
Definition isField (node : SelectionNode) : bool :=
  match node with
  | FieldNode _ _ _ _ _ => true
  | _ => false
  end.

(** Object, Interface and Union types: the parents under which a
    [__typename] field pushes a type on [enter]. *)
Definition isComposite (t : option GraphQLNamedType) : bool :=
  isObjectOrInterface t || isUnion t.

(** Field [leave] as a function of the node as edited by its children and
    the state after them. *)
Definition leaveField (node' : SelectionNode) (st : VisitState)
  : option SelectionNode * VisitState :=
  if isObjectOrInterface (resolveType (topOf st)) && negb (hasSelections node')
  then (None, spliced (popped st) (selectionVariables node'))
  else (Some node', popped st).

(** The state in which the children of a field are visited when the parent
    is neither an Object nor an Interface type. *)
Definition enteredElsewhere (name : string) (st : VisitState) : VisitState :=
  if isUnion (resolveType (topOf st)) && bool_decide (name = "__typename")
  then pushed st (Some TypeNameMetaFieldDef_type)
  else st.

(** What is known after the children of a field when none of them is
    left: the stack and the used fragments are those before. *)
Definition childrenGone (ss' : option (list SelectionNode))
    (st st' : VisitState) : Prop :=
  hasSelections (FieldNode None "" [] [] ss') = false →
  typeStack st' = typeStack st ∧ usedFragments st' = usedFragments st.

(** The fragment spreads of what the traversal of a node leaves. *)
Definition keptSpreads (r : option SelectionNode) : list string :=
  from_option selectionSpreads [] r.

(** The variable references of what the traversal of a node leaves. *)
Definition keptVariables (r : option SelectionNode) : list string :=
  from_option selectionVariables [] r.

(** ** Predicates on the traversal of a node *)

Section TraversalPredicates.

Variable implementsAbstractType :
  GraphQLSchema → option GraphQLNamedType → option GraphQLNamedType → bool.
Variable schema : GraphQLSchema.
Variable validFragments : gmap string GraphQLNamedType.

Local Abbreviation visitNode :=
  (visitSelection implementsAbstractType schema validFragments).
Local Abbreviation visitList :=
  (visitSelections implementsAbstractType schema validFragments).

(** The children of a field: its arguments (as replaced on [enter]), its
    directives and its selection set. *)
Definition visitFieldChildren (arguments' : list ArgumentNode)
    (directives : list DirectiveNode) (selectionSet : option (list SelectionNode))
    (st : VisitState) : option (list SelectionNode) * VisitState :=
  let st2 := withVariables st
               (argumentsVariables arguments' ++ directivesVariables directives) in
  match selectionSet with
  | None => (None, st2)
  | Some sels => let (rs, st3) := visitList sels st2 in (Some rs, st3)
  end.

(** A deleted node leaves the stack and the used fragments as they were,
    and a field under a parent that is neither an Object nor an Interface
    type is not deleted. *)
Definition DeletedUnchanged (node : SelectionNode) : Prop :=
  ∀ st r st', visitNode node st = (r, st') →
    (r = None →
       typeStack st' = typeStack st ∧ usedFragments st' = usedFragments st) ∧
    (isObjectOrInterface (resolveType (topOf st)) = false →
       isField node = true → r ≠ None).

(** Every name is a key of [validFragments]. *)
Definition knownFragments (names : list string) : Prop :=
  Forall (λ name, is_Some (validFragments !! name)) names.

(** The traversal of a node appends to [usedFragments] exactly the spreads
    of what it leaves, in order; these are spreads of the node and are
    found in [validFragments]. *)
Definition UsedAreKept (node : SelectionNode) : Prop :=
  ∀ st r st', visitNode node st = (r, st') →
    usedFragments st' = usedFragments st ++ keptSpreads r ∧
    sublist (keptSpreads r) (selectionSpreads node) ∧
    knownFragments (keptSpreads r).

(** The traversal of a node adds to [usedVariables], up to order, exactly
    the variable references of what it leaves. *)
Definition VariablesAreKept (node : SelectionNode) : Prop :=
  ∀ st r st', visitNode node st = (r, st') →
    usedVariables st' ≡ₚ usedVariables st ++ keptVariables r ∧
    sublist (keptVariables r) (selectionVariables node).

(** A node the traversal leaves is left as it is by a second traversal from
    any state with the same stack, and with the same effect on the stack. *)
Definition Replays (node : SelectionNode) : Prop :=
  ∀ st n' st', visitNode node st = (Some n', st') →
    ∀ st2, typeStack st2 = typeStack st →
      ∃ st2', visitNode n' st2 = (Some n', st2') ∧ typeStack st2' = typeStack st'.

End TraversalPredicates.

Section Validity.

Variable implementsAbstractType :
  GraphQLSchema → option GraphQLNamedType → option GraphQLNamedType → bool.
Variable schema : GraphQLSchema.
Variable validFragments : gmap string GraphQLNamedType.

(** A selection is valid under a parent type when: a field exists on its
    Object or Interface parent (or is [__typename], also under a Union),
    passes declared arguments only, has a non-empty valid sub-selection if
    its type is composite and none otherwise; a fragment spread names a
    known fragment whose type is compatible with the parent; an inline
    fragment has a type condition that exists and is compatible, or none,
    and a valid body. *)
Fixpoint validSelection (parent : option GraphQLType) (node : SelectionNode)
  : bool :=
  match node with
  | FieldNode _ name arguments _ selectionSet =>
      let parentType := resolveType parent in
      if isObjectOrInterface parentType then
        match fieldOn schema parentType name with
        | Some (fieldType, argNames) =>
            forallb (λ a, bool_decide (arg_name a ∈ argNames)) arguments &&
            (if isComposite (resolveType fieldType)
             then match selectionSet with
                  | Some (s :: sels) =>
                      forallb (validSelection fieldType) (s :: sels)
                  | _ => false
                  end
             else match selectionSet with
                  | None => true
                  | Some _ => false
                  end)
        | None => false
        end
      else
        isUnion parentType && bool_decide (name = "__typename") &&
        match arguments, selectionSet with
        | [], None => true
        | _, _ => false
        end
  | FragmentSpreadNode name _ =>
      match validFragments !! name with
      | Some innerType =>
          implementsAbstractType schema (resolveType parent) (Some innerType)
      | None => false
      end
  | InlineFragmentNode (Some cond) _ selectionSet =>
      match getType schema cond with
      | Some innerType =>
          implementsAbstractType schema (resolveType parent) (Some innerType) &&
          forallb (validSelection (Some (Named innerType))) selectionSet
      | None => false
      end
  | InlineFragmentNode None _ selectionSet =>
      forallb (validSelection parent) selectionSet
  end.

(** Every inline fragment of the subtree carries a type condition. *)
Fixpoint typeConditioned (node : SelectionNode) : bool :=
  match node with
  | FieldNode _ _ _ _ selectionSet =>
      match selectionSet with
      | Some sels => forallb typeConditioned sels
      | None => true
      end
  | FragmentSpreadNode _ _ => true
  | InlineFragmentNode cond _ selectionSet =>
      bool_decide (is_Some cond) && forallb typeConditioned selectionSet
  end.

End Validity.

Section KeptWhole.

Variable implementsAbstractType :
  GraphQLSchema → option GraphQLNamedType → option GraphQLNamedType → bool.
Variable schema : GraphQLSchema.
Variable validFragments : gmap string GraphQLNamedType.

(** A valid node whose inline fragments carry type conditions is left as it
    is, and the state records all its spreads and variables. *)
Definition KeptWhole (node : SelectionNode) : Prop :=
  ∀ st, validSelection implementsAbstractType schema validFragments (topOf st) node = true → typeConditioned node = true →
    visitSelection implementsAbstractType schema validFragments node st =
    (Some node, afterKept st (selectionSpreads node) (selectionVariables node)).

End KeptWhole.

(** ** The fragment closure *)

(** The selection set of a fragment definition filtered against the type of
    its own type condition, as the fragment closure does. *)
Definition filteredBody impl (schema : GraphQLSchema)
    (vfwt : gmap string GraphQLNamedType) (fragment : FragmentDefinitionNode)
  : FilterResult :=
  filterSelectionSet impl schema vfwt
    (Named <$> getType schema (fr_typeCondition fragment))
    (fr_selectionSet fragment).

(** The weight of a worklist under a ranking [w] of the fragment names. *)
Definition spreadsWeight (w : string → nat) (names : list string) : nat :=
  sum_list_with (λ n, S (w n)) names.

(** [w] ranks the fragment definitions: every definition outweighs the
    fragments its selection set spreads, so no definition reaches itself. *)
Definition FragmentsRanked (w : string → nat)
    (fragments : list FragmentDefinitionNode) : Prop :=
  Forall (λ f, spreadsWeight w (selectionsSpreads (fr_selectionSet f))
               ≤ w (fr_name f)) fragments.

(** The names of the fragment definitions the loop has emitted so far. *)
Definition emittedNames (st : CollectState) : list string :=
  map fr_name (collectedFragments st).

Section ClosurePredicates.

Variable implementsAbstractType :
  GraphQLSchema → option GraphQLNamedType → option GraphQLNamedType → bool.
Variable targetSchema : GraphQLSchema.
Variable validFragments : list FragmentDefinitionNode.
Variable validFragmentsWithType : gmap string GraphQLNamedType.

Local Abbreviation filterBody :=
  (filteredBody implementsAbstractType targetSchema validFragmentsWithType).

(** Every collected variable is used by the filtered body of some valid
    fragment; every collected fragment is a valid fragment with its body
    filtered. *)
Definition collectedFromFragments (st : CollectState) : Prop :=
  (∀ x, x ∈ collectedVariables st →
        ∃ f, f ∈ validFragments ∧ x ∈ res_usedVariables (filterBody f)) ∧
  (∀ f', f' ∈ collectedFragments st →
         ∃ f, f ∈ validFragments ∧
              f' = mkFragment (fr_name f) (fr_typeCondition f) []
                     (res_selectionSet (filterBody f))).

(** A name that [union] keeps and that a valid fragment definition has. *)
Definition definedPlainly (name : string) : Prop :=
  (name ∉ objectPrototypeKeys) ∧
  (∃ f, f ∈ validFragments ∧ fr_name f = name).

(** Every name of [names] and every spread of an emitted fragment is still
    on the worklist or already emitted; the set of emitted names is the set
    the code keeps; the worklist holds names of valid fragments, none of
    them the name of an inherited property. *)
Definition closureInvariant (names : list string) (st : CollectState) : Prop :=
  (∀ n, n ∈ fragmentSet st ↔ n ∈ emittedNames st) ∧
  (∀ n, n ∈ worklist st → definedPlainly n) ∧
  (∀ n, n ∈ names → n ∈ worklist st ∨ n ∈ emittedNames st) ∧
  (∀ f' n, f' ∈ collectedFragments st →
           n ∈ selectionsSpreads (fr_selectionSet f') →
           n ∈ worklist st ∨ n ∈ emittedNames st).

End ClosurePredicates.

(** ** Documents *)

(** [operation'] is what [filterDocumentToSchema] emits for [operation]:
    the same kind, name and directives, the filtered selection set (empty
    or not), and some of the variable definitions, in their order. *)
Definition emittedFor impl (targetSchema : GraphQLSchema)
    (validFragmentsWithType : gmap string GraphQLNamedType)
    (operation operation' : OperationDefinitionNode) : Prop :=
  op_operation operation' = op_operation operation ∧
  op_name operation' = op_name operation ∧
  op_directives operation' = op_directives operation ∧
  op_selectionSet operation' =
    res_selectionSet
      (filterSelectionSet impl targetSchema validFragmentsWithType
         (Named <$> rootType targetSchema (op_operation operation))
         (op_selectionSet operation)) ∧
  sublist (op_variableDefinitions operation')
          (op_variableDefinitions operation).



(** The names a document spreads, in its operations and in its fragment
    definitions. *)
Definition documentSpreads (d : DocumentNode) : list string :=
  concat (map (λ o, selectionsSpreads (op_selectionSet o)) (operationsOf d)) ++
  concat (map (λ f, selectionsSpreads (fr_selectionSet f)) (fragmentsOf d)).

(** A document is valid against a schema when every fragment spread names
    a fragment definition of the document, the type condition of every
    fragment definition exists and every selection set is valid: that of an
    operation under its root type, that of a fragment under its type
    condition. *)
Definition validDocument impl (schema : GraphQLSchema) (d : DocumentNode) : bool :=
  let vfwt :=
    validFragmentsWithTypeOf schema (validFragmentsOf schema (fragmentsOf d)) in
  forallb (λ name, bool_decide (name ∈ map fr_name (fragmentsOf d)))
          (documentSpreads d) &&
  forallb (λ f, bool_decide (is_Some (getType schema (fr_typeCondition f))) &&
                forallb (validSelection impl schema vfwt
                           (Named <$> getType schema (fr_typeCondition f)))
                        (fr_selectionSet f))
          (fragmentsOf d) &&
  forallb (λ o, forallb (validSelection impl schema vfwt
                           (Named <$> rootType schema (op_operation o)))
                        (op_selectionSet o))
          (operationsOf d).

(** Every inline fragment of the document carries a type condition. *)
Definition documentTypeConditioned (d : DocumentNode) : bool :=
  forallb (λ f, forallb typeConditioned (fr_selectionSet f)) (fragmentsOf d) &&
  forallb (λ o, forallb typeConditioned (op_selectionSet o)) (operationsOf d).

(** Every variable an operation declares is referenced in the operation's
    own selection set. *)
Definition declaredVariablesUsed (d : DocumentNode) : bool :=
  forallb (λ o, forallb (λ vd, bool_decide (vd_variable vd ∈
                                 selectionsVariables (op_selectionSet o)))
                        (op_variableDefinitions o))
          (operationsOf d).

(** A fragment definition as the transform re-emits it: name, type
    condition and selection set, no directives. *)
Definition reemitted (f : FragmentDefinitionNode) : FragmentDefinitionNode :=
  mkFragment (fr_name f) (fr_typeCondition f) [] (fr_selectionSet f).

(** The name a definition is printed under. *)
Definition definitionName (def : DefinitionNode) : string :=
  match def with
  | OperationDefinition o => default "" (op_name o)
  | FragmentDefinition f => fr_name f
  | TypeSystemDefinition kind => kind
  end.

(** None of the names is the name of a property that object literals
    inherit: [union] does not drop them. *)
Definition plainNames (names : list string) : bool :=
  forallb (λ name, bool_decide (name ∉ objectPrototypeKeys)) names.

(** The fragment spreads of a document that name no fragment definition of
    the document. *)
Definition danglingSpreads (d : DocumentNode) : list string :=
  filter (λ name, name ∉ map fr_name (fragmentsOf d))
    (concat (map (λ o, selectionsSpreads (op_selectionSet o)) (operationsOf d)) ++
     concat (map (λ f, selectionsSpreads (fr_selectionSet f)) (fragmentsOf d))).

(** ** Example documents and calls *)

Module Blog.

(** The schema and the query of the test "should not throw `There can be
    only one fragment named ...` errors". *)
Definition Post : GraphQLNamedType :=
  GraphQLObjectType "Post"
    (list_to_map [("id", mkField (NonNullTypeNode (NamedTypeNode "ID")) []);
                  ("title", mkField (NonNullTypeNode (NamedTypeNode "String")) []);
                  ("owner", mkField (NonNullTypeNode (NamedTypeNode "User")) [])]) [].

Definition User : GraphQLNamedType :=
  GraphQLObjectType "User"
    (list_to_map [("id", mkField (NonNullTypeNode (NamedTypeNode "ID")) []);
                  ("email", mkField (NamedTypeNode "String") [])]) [].

Definition Query : GraphQLNamedType :=
  GraphQLObjectType "Query"
    (list_to_map [("post", mkField (NamedTypeNode "Post") ["id"])]) [].

Definition schema : GraphQLSchema :=
  mkSchema
    (list_to_map [("Query", Query); ("Post", Post); ("User", User);
                  ("ID", GraphQLScalarType "ID"); ("String", GraphQLString)])
    (Some Query) None None (λ _, typeObjectProperties).

Definition getPostById : DocumentNode :=
  mkDocument
    [OperationDefinition
       (mkOperation query (Some "getPostById")
          [mkVariableDefinition "id" (NonNullTypeNode (NamedTypeNode "ID")) None] []
          [FieldNode None "post" [mkArgument "id" (VariableNode "id")] []
             (Some [FragmentSpreadNode "Post" [];
                    FieldNode None "owner" [] []
                      (Some [FragmentSpreadNode "PostOwner" [];
                             FieldNode None "email" [] [] None])])]);
     FragmentDefinition
       (mkFragment "Post" "Post" []
          [FieldNode None "id" [] [] None;
           FieldNode None "title" [] [] None;
           FieldNode None "owner" [] [] (Some [FragmentSpreadNode "PostOwner" []])]);
     FragmentDefinition
       (mkFragment "PostOwner" "User" [] [FieldNode None "id" [] [] None])].

(** A ranking of its fragments: [Post] spreads [PostOwner]. *)
Definition rank (name : string) : nat :=
  if bool_decide (name = "Post") then 1 else 0.

End Blog.

(** A document of two operations, nothing of which the schema knows. *)
Definition unknownFieldsDocument : DocumentNode :=
  mkDocument
    [OperationDefinition
       (mkOperation query (Some "first") [] [] [Booking.leaf "bogus"]);
     OperationDefinition
       (mkOperation mutation (Some "second") [] []
          [FragmentSpreadNode "Missing" []])].

(** The request of the test "should also remove variables when removing
    empty selection sets". *)
Definition customerQuery : DocumentNode :=
  mkDocument
    [OperationDefinition
       (mkOperation query (Some "customerQuery")
          [Booking.varDef "id" "ID"; Booking.varDef "limit" "Int"] []
          [FieldNode None "customerById" [Booking.var "id" "id"] []
             (Some [Booking.leaf "id"; Booking.leaf "name";
                    FieldNode None "bookings" [Booking.var "limit" "limit"] []
                      (Some [Booking.leaf "paid"])])])].

(** Its [bookings] field, whose only sub-selection [paid] the schema does
    not declare, and the state in which the traversal reaches it. *)
Definition bookingsField : SelectionNode :=
  FieldNode None "bookings" [Booking.var "limit" "limit"] []
    (Some [Booking.leaf "paid"]).


Definition customerRequest : Request :=
  mkRequest customerQuery
    (list_to_map [("id", JSString "c1"); ("limit", JSNumber 10)]) None.

Definition selfSpreadingDocument : DocumentNode :=
  mkDocument
    [OperationDefinition
       (mkOperation query None [] [] [FragmentSpreadNode "A" []]);
     FragmentDefinition
       (mkFragment "A" "Query" []
          [Booking.leaf "version"; FragmentSpreadNode "A" []])].

Definition sharedFragmentDocument : DocumentNode :=
  mkDocument
    [OperationDefinition
       (mkOperation query (Some "first") [] [] [FragmentSpreadNode "A" []]);
     OperationDefinition
       (mkOperation query (Some "second") [] [] [FragmentSpreadNode "A" []]);
     FragmentDefinition (mkFragment "A" "Query" [] [Booking.leaf "version"])].

(** An example call: the parent is an object annotated with an error of its
    own for the key [name]; the helpers read the key off the info and the
    annotation off a table. *)
Definition exampleInfo : GraphQLResolveInfo :=
  mkInfo "name" [FieldNode None "name" [] [] None]
         (PathStep (PathStep PathEnd (Key "user")) (Key "name")).

Definition exampleErrors (parent : JSValue) (key : string)
  : Completion ErrorResult :=
  if bool_decide (key = "name")
  then Return (OWN (mkError "upstream failure" None (Some [Key "name"])))
  else Return (CHILDREN (Some [])).

(** The built-in reads of the examples: the [length] of an array.  The
    examples read nothing else that is not an own property of an object. *)
Definition lengthOfArrays (object : JSValue) (key : string) : JSValue :=
  match object with
  | JSArray items =>
      if bool_decide (key = "length") then JSNumber (Z.of_nat (length items))
      else JSUndefined
  | _ => JSUndefined
  end.

(** ** What the filter may do to a selection set *)

(** [Pruning node' node]: [node'] is [node] with some of its arguments and
    some of the nodes under it taken out; nothing is added, renamed or
    reordered. *)
Inductive Pruning : SelectionNode → SelectionNode → Prop :=
| Pruning_leaf alias name arguments' arguments directives :
    sublist arguments' arguments →
    Pruning (FieldNode alias name arguments' directives None)
            (FieldNode alias name arguments directives None)
| Pruning_field alias name arguments' arguments directives sels' sels :
    sublist arguments' arguments →
    PruningList sels' sels →
    Pruning (FieldNode alias name arguments' directives (Some sels'))
            (FieldNode alias name arguments directives (Some sels))
| Pruning_spread name directives :
    Pruning (FragmentSpreadNode name directives)
            (FragmentSpreadNode name directives)
| Pruning_inline typeCondition directives sels' sels :
    PruningList sels' sels →
    Pruning (InlineFragmentNode typeCondition directives sels')
            (InlineFragmentNode typeCondition directives sels)
with PruningList : list SelectionNode → list SelectionNode → Prop :=
| PruningList_nil : PruningList [] []
| PruningList_delete node sels' sels :
    PruningList sels' sels → PruningList sels' (node :: sels)
| PruningList_keep node' node sels' sels :
    Pruning node' node → PruningList sels' sels →
    PruningList (node' :: sels') (node :: sels).

(** The fragment names of a list of definitions. *)
Definition fragmentNames (fragments : list FragmentDefinitionNode) : list string :=
  map fr_name fragments.

(** The names emitted so far are distinct and recorded in [fragmentSet]. *)
Definition emittedOnce (st : CollectState) : Prop :=
  NoDup (emittedNames st) ∧ ∀ n, n ∈ emittedNames st → n ∈ fragmentSet st.


(** The state in which the traversal reaches the selections of a field of
    type [Customer] under the root, with [vars] used so far. *)
Definition underCustomerWith (vars : list string) : VisitState :=
  withVariables
    (pushed (rootState Booking.Query) (Some (Named Booking.Customer))) vars.

(** A document that spreads a fragment on a type the schema does not have
    beside one on a type it has. *)
Definition ghostFragmentDocument : DocumentNode :=
  mkDocument
    [OperationDefinition
       (mkOperation query None [] []
          [FragmentSpreadNode "Known" []; FragmentSpreadNode "Ghost" []]);
     FragmentDefinition
       (mkFragment "Known" "Query" [] [Booking.leaf "version"; Booking.leaf "bogus"]);
     FragmentDefinition
       (mkFragment "Ghost" "Phantom" [] [Booking.leaf "version"])].

(** ** Type definitions *)

(** The source text of an element that is a string or a document. *)
Definition sourceOf (print : DocumentNode → string) (typeDef : ITypedef)
  : option string :=
  match typeDef with
  | StringTypedef source => Some source
  | DocumentTypedef document => Some (print document)
  | _ => None
  end.

(** The functions of the table that have not been called. *)
Definition pending (functions : list (list ITypedef)) (called : list nat) : nat :=
  length functions - length (filter (λ ref, ref < length functions) called).

(** What a run that started with [called] may return: the functions called
    are recorded once each, after those recorded before. *)
Definition calledOnce {A : Type} (called : list nat)
    (out : TypeDefsError + A * list nat) : Prop :=
  match out with
  | inl _ => True
  | inr (_, called') => NoDup called' ∧ called `prefix_of` called'
  end.

(** [trim] on strings of ASCII characters: the white space and line
    terminators among them are the characters 9 to 13 and 32. *)
Definition isSpace (c : Ascii.ascii) : bool :=
  let n := Ascii.nat_of_ascii c in
  (9 <=? n) && (n <=? 13) || (n =? 32).

Fixpoint trimStart (s : string) : string :=
  match s with
  | String c rest => if isSpace c then trimStart rest else s
  | EmptyString => s
  end.

Definition trimAscii (s : string) : string :=
  String.rev (trimStart (String.rev (trimStart s))).

(** Two modules of type definitions that refer to each other. *)
Definition circularTypeDefs : list (list ITypedef) :=
  [[FunctionTypedef 1; StringTypedef "type Author { books: [Book] }"];
   [FunctionTypedef 0; StringTypedef " type Book { author: Author } "]].

(** ** Resolvers *)

(** The result once the value is settled (lines 32-35). *)
Definition annotated
    (annotateWithChildrenErrors : JSValue → list JSError → Completion JSValue)
    (errors : option (list JSError)) (result : JSValue) : Completion JSValue :=
  match errors with
  | Some errors' => annotateWithChildrenErrors result errors'
  | None => Return result
  end.

(** The resolver that is called when [fn] is given or not. *)
Definition resolverOr (defaultFieldResolver : GraphQLFieldResolver)
    (fn : option GraphQLFieldResolver) : GraphQLFieldResolver :=
  match fn with
  | Some fn => fn
  | None => defaultFieldResolver
  end.

(** ** The fragments an operation reaches *)

Section Reach.

Variable implementsAbstractType :
  GraphQLSchema → option GraphQLNamedType → option GraphQLNamedType → bool.
Variable targetSchema : GraphQLSchema.
Variable validFragments : list FragmentDefinitionNode.
Variable validFragmentsWithType : gmap string GraphQLNamedType.

(** The definition the loop finds for a name: the first valid fragment of
    that name. *)
Definition fragmentNamed (name : string) : option FragmentDefinitionNode :=
  find (λ fr, bool_decide (Some (fr_name fr) = Some name)) validFragments.

(** The names reached from [start]: those of [start], and those spread by
    the filtered body of the definition of a name that is reached; names of
    inherited properties apart, which [union] keeps off the worklist. *)
Inductive Reached (start : list string) : string → Prop :=
| Reached_start name :
    name ∈ start → name ∉ objectPrototypeKeys → Reached start name
| Reached_spread from fragment name :
    Reached start from →
    fragmentNamed from = Some fragment →
    name ∈ res_usedFragments
             (filteredBody implementsAbstractType targetSchema
                validFragmentsWithType fragment) →
    name ∉ objectPrototypeKeys →
    Reached start name.

(** A variable is in reach of an operation when its selection set
    references it, or the filtered body of a fragment reached from its
    spreads does. *)
Definition inReach (operation' : OperationDefinitionNode) (variable : string)
  : Prop :=
  variable ∈ selectionsVariables (op_selectionSet operation') ∨
  ∃ name fragment,
    Reached (selectionsSpreads (op_selectionSet operation')) name ∧
    fragmentNamed name = Some fragment ∧
    variable ∈ selectionsVariables
                 (res_selectionSet
                    (filteredBody implementsAbstractType targetSchema
                       validFragmentsWithType fragment)).

(** [operation'] keeps the definition of every variable in its reach that
    [operation] defines, unless the variable is named like an inherited
    property. *)
Definition keepsDefinitions (operation operation' : OperationDefinitionNode)
  : Prop :=
  ∀ definition,
    definition ∈ op_variableDefinitions operation →
    vd_variable definition ∉ objectPrototypeKeys →
    inReach operation' (vd_variable definition) →
    definition ∈ op_variableDefinitions operation'.

(** The names in [done] have been taken off the worklist: the variables of
    their filtered bodies are collected, and what these bodies spread is on
    the worklist or done as well; every name of [start] is on the worklist
    or done -- names of inherited properties apart. *)
Definition reachInvariant (start : list string) (st : CollectState) : Prop :=
  ∃ done : string → Prop,
    (∀ name, name ∈ start → name ∉ objectPrototypeKeys →
             name ∈ worklist st ∨ done name) ∧
    (∀ name fragment,
       done name → fragmentNamed name = Some fragment →
       (∀ v, v ∈ res_usedVariables
                   (filteredBody implementsAbstractType targetSchema
                      validFragmentsWithType fragment) →
             v ∉ objectPrototypeKeys →
             v ∈ collectedVariables st) ∧
       (∀ n, n ∈ res_usedFragments
                   (filteredBody implementsAbstractType targetSchema
                      validFragmentsWithType fragment) →
             n ∉ objectPrototypeKeys →
             n ∈ worklist st ∨ done n)).

End Reach.

(** A query whose second variable is referenced in a fragment only. *)
Definition bookingsFragmentDocument : DocumentNode :=
  mkDocument
    [OperationDefinition
       (mkOperation query (Some "customer")
          [Booking.varDef "id" "ID"; Booking.varDef "limit" "Int";
           Booking.varDef "unused" "Int"] []
          [FieldNode None "customerById" [Booking.var "id" "id"] []
             (Some [FragmentSpreadNode "Bookings" []])]);
     FragmentDefinition
       (mkFragment "Bookings" "Customer" []
          [FieldNode None "bookings" [Booking.var "limit" "limit"] []
             (Some [Booking.leaf "id"])])].

(** ** The fragments and variables an operation uses, as written *)

(** The names an operation spreads, directly or through fragment
    definitions: those of [start], and those spread by the selection set of
    the definition of a name that is spread. *)
Inductive Spread (fragments : list FragmentDefinitionNode) (start : list string)
  : string → Prop :=
| Spread_start name : name ∈ start → Spread fragments start name
| Spread_from from fragment name :
    Spread fragments start from →
    fragmentNamed fragments from = Some fragment →
    name ∈ selectionsSpreads (fr_selectionSet fragment) →
    Spread fragments start name.

(** A variable is used by an operation when the operation's selection set
    references it, or the selection set of a fragment that the operation
    spreads does. *)
Definition usedBy (fragments : list FragmentDefinitionNode)
    (operation : OperationDefinitionNode) (variable : string) : Prop :=
  variable ∈ selectionsVariables (op_selectionSet operation) ∨
  ∃ name fragment,
    Spread fragments (selectionsSpreads (op_selectionSet operation)) name ∧
    fragmentNamed fragments name = Some fragment ∧
    variable ∈ selectionsVariables (fr_selectionSet fragment).

(** Every variable an operation declares is used by it (the rule "no unused
    variables" of GraphQL validation). *)
Definition declaredVariablesNeeded (d : DocumentNode) : Prop :=
  Forall (λ o, Forall (λ vd, usedBy (fragmentsOf d) o (vd_variable vd))
                      (op_variableDefinitions o))
         (operationsOf d).

(** Every fragment definition is spread by the operation (the rule "no
    unused fragments"), and no two have the same name (the rule "unique
    fragment names"). *)
Definition fragmentsAllSpread (d : DocumentNode)
    (operation : OperationDefinitionNode) : Prop :=
  NoDup (fragmentNames (fragmentsOf d)) ∧
  Forall (λ f, Spread (fragmentsOf d)
                 (selectionsSpreads (op_selectionSet operation)) (fr_name f))
         (fragmentsOf d).

(** No fragment definition and no declared variable is named like a
    property that object literals inherit. *)
Definition documentNamesPlain (d : DocumentNode) : bool :=
  plainNames (map fr_name (fragmentsOf d)) &&
  forallb (λ o, plainNames (map vd_variable (op_variableDefinitions o)))
          (operationsOf d).

(** A document that names a variable and a fragment like properties that
    object literals inherit:
    [query q($toString: ID, $id: ID) {
       bookingById(id: $toString) { id ...constructor } }
     fragment constructor on Booking { propertyId }]. *)
Definition inheritedNamesDocument : DocumentNode :=
  mkDocument
    [OperationDefinition
       (mkOperation query (Some "q")
          [Booking.varDef "toString" "ID"; Booking.varDef "id" "ID"] []
          [FieldNode None "bookingById" [Booking.var "id" "toString"] []
             (Some [Booking.leaf "id"; FragmentSpreadNode "constructor" []])]);
     FragmentDefinition
       (mkFragment "constructor" "Booking" [] [Booking.leaf "propertyId"])].

(** The variables an operation references in its selection set and does
    not declare. *)
Definition undeclaredVariables (operation : OperationDefinitionNode)
  : list string :=
  filter (λ v, v ∉ map vd_variable (op_variableDefinitions operation))
         (selectionsVariables (op_selectionSet operation)).

(** ** Induction over the nested syntax *)

Section ValueInduction.

Variable P : ValueNode → Prop.
Hypothesis Hvar : ∀ name, P (VariableNode name).
Hypothesis Hleaf : ∀ kind value, P (LeafValueNode kind value).
Hypothesis Hlist : ∀ values, Forall P values → P (ListValueNode values).
Hypothesis Hobject :
  ∀ fields, Forall (λ f, P (snd f)) fields → P (ObjectValueNode fields).

Fixpoint ValueNode_nested_ind (v : ValueNode) : P v :=
  match v with
  | VariableNode name => Hvar name
  | LeafValueNode kind value => Hleaf kind value
  | ListValueNode values =>
      Hlist values
        ((fix go (vs : list ValueNode) : Forall P vs :=
            match vs with
            | [] => Forall_nil_2 P
            | v' :: vs' => Forall_cons_2 P v' vs' (ValueNode_nested_ind v') (go vs')
            end) values)
  | ObjectValueNode fields =>
      Hobject fields
        ((fix go (fs : list (string * ValueNode))
            : Forall (λ f, P (snd f)) fs :=
            match fs with
            | [] => Forall_nil_2 _
            | f :: fs' =>
                Forall_cons_2 (λ f, P (snd f)) f fs'
                  (ValueNode_nested_ind (snd f)) (go fs')
            end) fields)
  end.

End ValueInduction.

Section SelectionInduction.

Variable P : SelectionNode → Prop.
Hypothesis Hfield_leaf :
  ∀ alias name args dirs, P (FieldNode alias name args dirs None).
Hypothesis Hfield :
  ∀ alias name args dirs sels,
    Forall P sels → P (FieldNode alias name args dirs (Some sels)).
Hypothesis Hspread : ∀ name dirs, P (FragmentSpreadNode name dirs).
Hypothesis Hinline :
  ∀ cond dirs sels, Forall P sels → P (InlineFragmentNode cond dirs sels).

Fixpoint SelectionNode_nested_ind (node : SelectionNode) : P node :=
  match node with
  | FieldNode alias name args dirs None => Hfield_leaf alias name args dirs
  | FieldNode alias name args dirs (Some sels) =>
      Hfield alias name args dirs sels
        ((fix go (l : list SelectionNode) : Forall P l :=
            match l with
            | [] => Forall_nil_2 P
            | s :: l' => Forall_cons_2 P s l' (SelectionNode_nested_ind s) (go l')
            end) sels)
  | FragmentSpreadNode name dirs => Hspread name dirs
  | InlineFragmentNode cond dirs sels =>
      Hinline cond dirs sels
        ((fix go (l : list SelectionNode) : Forall P l :=
            match l with
            | [] => Forall_nil_2 P
            | s :: l' => Forall_cons_2 P s l' (SelectionNode_nested_ind s) (go l')
            end) sels)
  end.

End SelectionInduction.

(* ===================================================================== *)
(** * Properties *)
(* ===================================================================== *)

(** ** The default merged resolver *)

Section DefaultMergedResolverProperties.

Variable builtinProperty : JSValue → string → JSValue.
Variable getResponseKeyFromInfo : GraphQLResolveInfo → Completion string.
Variable getErrorsFromParent : JSValue → string → Completion ErrorResult.
Variable annotateWithChildrenErrors :
  JSValue → list JSError → Completion JSValue.

(** C10: a falsy parent (null, undefined, false, 0, NaN or the empty
    string) makes the resolver return null; no helper is consulted, so the
    result is null even with helpers that would throw. *)
Theorem defaultMergedResolver_falsy_parent :
  ∀ parent args context info,
    truthy parent = false →
    defaultMergedResolver builtinProperty getResponseKeyFromInfo
      getErrorsFromParent annotateWithChildrenErrors
      parent args context info = Return JSNull.
Proof.
  intros parent args context info Hfalsy.
  unfold defaultMergedResolver. by rewrite Hfalsy.
Qed.

(** C6: when the parent carries an error of its own for this field's
    response key, the resolver throws a located error with the annotated
    error's message, the path of the caller's field and the caller's
    field nodes. *)
Theorem defaultMergedResolver_own_error :
  ∀ parent args context info responseKey error,
    truthy parent = true →
    getResponseKeyFromInfo info = Return responseKey →
    getErrorsFromParent parent responseKey = Return (OWN error) →
    ∃ thrown,
      defaultMergedResolver builtinProperty getResponseKeyFromInfo
        getErrorsFromParent annotateWithChildrenErrors
        parent args context info = Throw thrown ∧
      err_message thrown = err_message error ∧
      err_path thrown = Some (responsePathAsArray (path info)) ∧
      err_nodes thrown = Some (fieldNodes info).
Proof.
  intros parent args context info responseKey error Htruthy Hkey Hown.
  eexists. unfold defaultMergedResolver.
  rewrite Htruthy, Hkey, Hown. simpl. done.
Qed.

End DefaultMergedResolverProperties.

Lemma defaultMergedResolver_falsy_parent_witness :
  truthy JSNull = false ∧
  defaultMergedResolver lengthOfArrays
    (λ _, Throw (newError "unreachable")) exampleErrors
    (λ _ _, Throw (newError "unreachable"))
    JSNull JSUndefined JSUndefined exampleInfo = Return JSNull.
Proof.
  split; [reflexivity|].
  apply (defaultMergedResolver_falsy_parent lengthOfArrays
           (λ _, Throw (newError "unreachable")) exampleErrors
           (λ _ _, Throw (newError "unreachable"))
           JSNull JSUndefined JSUndefined exampleInfo).
  reflexivity.
Defined.

Lemma defaultMergedResolver_own_error_witness :
  ∃ thrown,
    defaultMergedResolver lengthOfArrays
      (λ info, Return (fieldName info)) exampleErrors (λ v _, Return v)
      (JSObject [("name", JSNull)]) JSUndefined JSUndefined exampleInfo =
    Throw thrown ∧
    err_message thrown = "upstream failure" ∧
    err_path thrown = Some [Key "user"; Key "name"] ∧
    err_nodes thrown = Some (fieldNodes exampleInfo).
Proof.
  apply (defaultMergedResolver_own_error lengthOfArrays
           (λ info, Return (fieldName info))
           exampleErrors (λ v _, Return v)
           (JSObject [("name", JSNull)]) JSUndefined JSUndefined exampleInfo
           "name" (mkError "upstream failure" None (Some [Key "name"])));
    reflexivity.
Defined.

(** ** Effects of the traversal on its state *)

Lemma withVariables_nil st : withVariables st [] = st.
Proof. destruct st. unfold withVariables. simpl. by rewrite app_nil_r. Qed.

Lemma withVariables_app st l1 l2 :
  withVariables (withVariables st l1) l2 = withVariables st (l1 ++ l2).
Proof. unfold withVariables. simpl. by rewrite app_assoc. Qed.

Lemma valueVariables_list values :
  valueVariables (ListValueNode values) = concat (map valueVariables values).
Proof. simpl. induction values as [|v vs IH]; simpl; [done | by rewrite IH]. Qed.

Lemma valueVariables_object fields :
  valueVariables (ObjectValueNode fields) =
  concat (map (λ f, valueVariables (snd f)) fields).
Proof.
  simpl. induction fields as [|[k v] fs IH]; simpl; [done | by rewrite IH].
Qed.

Lemma visitValue_state v st :
  visitValue v st = (tt, withVariables st (valueVariables v)).
Proof.
  revert st. induction v as [name | kind value | values IH | fields IH]
    using ValueNode_nested_ind; intros st.
  - done.
  - simpl. unfold ret. by rewrite withVariables_nil.
  - rewrite valueVariables_list. simpl. revert st.
    induction IH as [|v vs Hv _ IHvs]; intros st; simpl.
    + unfold ret. by rewrite withVariables_nil.
    + unfold bind. rewrite Hv, IHvs. by rewrite withVariables_app.
  - rewrite valueVariables_object. simpl. revert st.
    induction IH as [|[k v] fs Hv _ IHfs]; intros st; simpl.
    + unfold ret. by rewrite withVariables_nil.
    + unfold bind. simpl in Hv. rewrite Hv, IHfs. by rewrite withVariables_app.
Qed.

Lemma visitArguments_state args st :
  visitArguments args st = (tt, withVariables st (argumentsVariables args)).
Proof.
  unfold visitArguments, argumentsVariables. revert st.
  induction args as [|a args IH]; intros st; simpl.
  - unfold ret. by rewrite withVariables_nil.
  - unfold bind. rewrite visitValue_state, IH. by rewrite withVariables_app.
Qed.

Lemma visitDirectives_state dirs st :
  visitDirectives dirs st = (tt, withVariables st (directivesVariables dirs)).
Proof.
  unfold visitDirectives, directivesVariables. revert st.
  induction dirs as [|d dirs IH]; intros st; simpl.
  - unfold ret. by rewrite withVariables_nil.
  - unfold bind. rewrite visitArguments_state, IH. by rewrite withVariables_app.
Qed.

(** The traversal of a node, with the children's loop named. *)
Section VisitEquations.

Variable implementsAbstractType :
  GraphQLSchema → option GraphQLNamedType → option GraphQLNamedType → bool.
Variable schema : GraphQLSchema.
Variable validFragments : gmap string GraphQLNamedType.

Local Abbreviation visitNode :=
  (visitSelection implementsAbstractType schema validFragments).
Local Abbreviation visitList :=
  (visitSelections implementsAbstractType schema validFragments).

Lemma visitSelection_field alias name arguments directives selectionSet :
  visitNode (FieldNode alias name arguments directives selectionSet) =
  (entered ←- Field_enter schema name arguments ;;
   match entered with
   | Null => ret None
   | _ =>
       let arguments' :=
         match entered with
         | Replacement args => args
         | _ => arguments
         end in
       visitArguments arguments' ;;-
       visitDirectives directives ;;-
       selectionSet' ←-
         match selectionSet with
         | None => ret None
         | Some sels => sels' ←- visitList sels ;; ret (Some sels')
         end ;;
       let node' := FieldNode alias name arguments' directives selectionSet' in
       result ←- Field_leave node' ;;
       match result with
       | Null => ret None
       | Replacement n => ret (Some n)
       | Undefined => ret (Some node')
       end
   end).
Proof. reflexivity. Qed.

Lemma visitSelection_spread name directives :
  visitNode (FragmentSpreadNode name directives) =
  (entered ←- FragmentSpread_enter implementsAbstractType schema validFragments name ;;
   match entered with
   | Null => ret None
   | _ => visitDirectives directives ;;- ret (Some (FragmentSpreadNode name directives))
   end).
Proof. reflexivity. Qed.

Lemma visitSelection_inline typeCondition directives selectionSet :
  visitNode (InlineFragmentNode typeCondition directives selectionSet) =
  (entered ←- InlineFragment_enter implementsAbstractType schema typeCondition ;;
   match entered with
   | Null => ret None
   | _ =>
       visitDirectives directives ;;-
       sels' ←- visitList selectionSet ;;
       InlineFragment_leave ;;-
       ret (Some (InlineFragmentNode typeCondition directives sels'))
   end).
Proof. reflexivity. Qed.

Lemma visitSelections_cons s l :
  visitList (s :: l) =
  (r ←- visitNode s ;;
   rs ←- visitList l ;;
   ret (match r with Some s' => s' :: rs | None => rs end)).
Proof. reflexivity. Qed.

End VisitEquations.

(** ** The visitor functions as state transformers *)

Lemma topOf_pushed st t : topOf (pushed st t) = t.
Proof. unfold topOf, pushed. simpl. by rewrite last_snoc. Qed.

Lemma popped_pushed st t : popped (pushed st t) = st.
Proof.
  destruct st. unfold popped, pushed. simpl. by rewrite removelast_last.
Qed.

Lemma topOf_withVariables st vars : topOf (withVariables st vars) = topOf st.
Proof. done. Qed.

Lemma Field_enter_eq schema name arguments st :
  Field_enter schema name arguments st =
  if isObjectOrInterface (resolveType (topOf st)) then
    match fieldOn schema (resolveType (topOf st)) name with
    | None => (Null, st)
    | Some (fieldType, argNames) =>
        (if decide (length (filterArguments argNames arguments) ≠ length arguments)
         then Replacement (filterArguments argNames arguments)
         else Undefined,
         pushed st fieldType)
    end
  else if isUnion (resolveType (topOf st)) && bool_decide (name = "__typename")
  then (Undefined, pushed st (Some TypeNameMetaFieldDef_type))
  else (Undefined, st).
Proof.
  unfold Field_enter, bind, topType, fieldOn, filterArguments. fold (topOf st).
  destruct (isObjectOrInterface (resolveType (topOf st))).
  - destruct (decide (name = "__typename")); simpl.
    + by destruct (decide _).
    + destruct (from_option getFields ∅ (resolveType (topOf st)) !! name); simpl;
        [by destruct (decide _) | done].
  - by destruct (isUnion (resolveType (topOf st)) && bool_decide (name = "__typename")).
Qed.

Lemma forEach_splice vars st :
  forEach spliceUsedVariable vars st = (tt, spliced st vars).
Proof.
  revert st. induction vars as [|v vars IH]; intros st; simpl.
  - by destruct st.
  - unfold bind. simpl. rewrite IH. done.
Qed.

Lemma Field_leave_eq node st :
  Field_leave node st =
  if isObjectOrInterface (resolveType (topOf st)) && negb (hasSelections node)
  then (Null, spliced (popped st) (selectionVariables node))
  else (Undefined, popped st).
Proof.
  unfold Field_leave, bind, popType, pop. simpl. fold (topOf st).
  destruct (isObjectOrInterface (resolveType (topOf st))); simpl; [|done].
  destruct node as [alias name args dirs [[|s sels]|] | |]; simpl;
    try done; by rewrite forEach_splice.
Qed.

Lemma FragmentSpread_enter_eq impl schema validFragments name st :
  FragmentSpread_enter impl schema validFragments name st =
  match validFragments !! name with
  | Some innerType =>
      if impl schema (resolveType (topOf st)) (Some innerType)
      then (Undefined, withFragment st name)
      else (Null, st)
  | None => (Null, st)
  end.
Proof.
  unfold FragmentSpread_enter. destruct (validFragments !! name); [|done].
  unfold bind, topType. fold (topOf st).
  by destruct (impl schema (resolveType (topOf st)) (Some _)).
Qed.

Lemma InlineFragment_enter_eq impl schema typeCondition st :
  InlineFragment_enter impl schema typeCondition st =
  match typeCondition with
  | Some cond =>
      if impl schema (resolveType (topOf st)) (getType schema cond)
      then (Undefined, pushed st (Named <$> getType schema cond))
      else (Null, st)
  | None => (Undefined, st)
  end.
Proof.
  unfold InlineFragment_enter. destruct typeCondition; [|done].
  unfold bind, topType. fold (topOf st).
  by destruct (impl schema (resolveType (topOf st)) (getType schema _)).
Qed.

Lemma InlineFragment_leave_eq st :
  InlineFragment_leave st = (Undefined, popped st).
Proof. done. Qed.

Section Traversal.

Variable implementsAbstractType :
  GraphQLSchema → option GraphQLNamedType → option GraphQLNamedType → bool.
Variable schema : GraphQLSchema.
Variable validFragments : gmap string GraphQLNamedType.

Local Abbreviation visitNode :=
  (visitSelection implementsAbstractType schema validFragments).
Local Abbreviation visitList :=
  (visitSelections implementsAbstractType schema validFragments).
Local Abbreviation knownFragments := (knownFragments validFragments).
Local Abbreviation visitFieldChildren :=
  (visitFieldChildren implementsAbstractType schema validFragments).
Local Abbreviation DeletedUnchanged :=
  (DeletedUnchanged implementsAbstractType schema validFragments).
Local Abbreviation UsedAreKept :=
  (UsedAreKept implementsAbstractType schema validFragments).
Local Abbreviation VariablesAreKept :=
  (VariablesAreKept implementsAbstractType schema validFragments).
Local Abbreviation Replays :=
  (Replays implementsAbstractType schema validFragments).

Lemma visitSelection_field_eq alias name arguments directives selectionSet st :
  visitNode (FieldNode alias name arguments directives selectionSet) st =
  let (entered, st1) := Field_enter schema name arguments st in
  match entered with
  | Null => (None, st1)
  | _ =>
      let arguments' :=
        match entered with Replacement args => args | _ => arguments end in
      let (selectionSet', st3) :=
        visitFieldChildren arguments' directives selectionSet st1 in
      leaveField (FieldNode alias name arguments' directives selectionSet') st3
  end.
Proof.
  rewrite visitSelection_field. unfold bind.
  destruct (Field_enter schema name arguments st) as [entered st1].
  destruct entered; try done; cbv zeta;
    rewrite visitArguments_state, visitDirectives_state, withVariables_app;
    unfold visitFieldChildren;
    (destruct selectionSet as [sels|];
     [ destruct (visitSelections _ _ _ sels _) as [rs st3] | ]);
    unfold ret; rewrite Field_leave_eq; unfold leaveField;
    by destruct (isObjectOrInterface _ && negb _).
Qed.

Lemma filterArguments_same argNames arguments :
  length (filterArguments argNames arguments) = length arguments →
  filterArguments argNames arguments = arguments.
Proof.
  unfold filterArguments. induction arguments as [|a args IH]; [done|].
  rewrite filter_cons. destruct (decide _) as [Hin|Hnot]; simpl; intros Hlen.
  - f_equal. apply IH. lia.
  - pose proof (length_filter (λ arg, arg_name arg ∈ argNames) args). lia.
Qed.

Lemma visitSelection_field_cases alias name arguments directives selectionSet st :
  visitNode (FieldNode alias name arguments directives selectionSet) st =
  if isObjectOrInterface (resolveType (topOf st)) then
    match fieldOn schema (resolveType (topOf st)) name with
    | None => (None, st)
    | Some (fieldType, argNames) =>
        let arguments' := filterArguments argNames arguments in
        let (selectionSet', st3) :=
          visitFieldChildren arguments' directives selectionSet
            (pushed st fieldType) in
        leaveField (FieldNode alias name arguments' directives selectionSet') st3
    end
  else
    let (selectionSet', st3) :=
      visitFieldChildren arguments directives selectionSet
        (enteredElsewhere name st) in
    leaveField (FieldNode alias name arguments directives selectionSet') st3.
Proof.
  rewrite visitSelection_field_eq, Field_enter_eq. unfold enteredElsewhere.
  destruct (isObjectOrInterface (resolveType (topOf st))).
  - destruct (fieldOn schema (resolveType (topOf st)) name)
      as [[fieldType argNames]|]; [|done].
    destruct (decide _) as [Hne|Heq]; [done|].
    apply dec_stable in Heq. cbv zeta.
    by rewrite (filterArguments_same _ _ Heq).
  - by destruct (isUnion _ && bool_decide _).
Qed.

Lemma visitSelection_spread_eq name directives st :
  visitNode (FragmentSpreadNode name directives) st =
  match validFragments !! name with
  | Some innerType =>
      if implementsAbstractType schema (resolveType (topOf st)) (Some innerType)
      then (Some (FragmentSpreadNode name directives),
            withVariables (withFragment st name) (directivesVariables directives))
      else (None, st)
  | None => (None, st)
  end.
Proof.
  rewrite visitSelection_spread. unfold bind.
  rewrite FragmentSpread_enter_eq.
  destruct (validFragments !! name) as [innerType|]; [|done].
  destruct (implementsAbstractType _ _ _); [|done].
  by rewrite visitDirectives_state.
Qed.

Lemma visitSelection_inline_eq typeCondition directives selectionSet st :
  visitNode (InlineFragmentNode typeCondition directives selectionSet) st =
  let (entered, st1) :=
    InlineFragment_enter implementsAbstractType schema typeCondition st in
  match entered with
  | Null => (None, st1)
  | _ =>
      let (rs, st3) :=
        visitList selectionSet (withVariables st1 (directivesVariables directives)) in
      (Some (InlineFragmentNode typeCondition directives rs), popped st3)
  end.
Proof.
  rewrite visitSelection_inline. unfold bind.
  destruct (InlineFragment_enter _ _ _ _) as [entered st1].
  destruct entered; try done;
    rewrite visitDirectives_state;
    by destruct (visitSelections _ _ _ _ _).
Qed.

Lemma visitSelections_cons_eq s l st :
  visitList (s :: l) st =
  let (r, st1) := visitNode s st in
  let (rs, st2) := visitList l st1 in
  (match r with Some s' => s' :: rs | None => rs end, st2).
Proof.
  rewrite visitSelections_cons. unfold bind.
  destruct (visitSelection _ _ _ s st) as [r st1].
  by destruct (visitSelections _ _ _ l st1).
Qed.

(** *** Deleted nodes leave the stack alone; fields under a parent that is
    neither Object nor Interface are never deleted *)

Lemma typeStack_spliced st vars : typeStack (spliced st vars) = typeStack st.
Proof. done. Qed.

Lemma usedFragments_spliced st vars :
  usedFragments (spliced st vars) = usedFragments st.
Proof. done. Qed.

Lemma typeStack_popped_pushed st t vars :
  typeStack (popped (withVariables (pushed st t) vars)) = typeStack st.
Proof. simpl. by rewrite removelast_last. Qed.

Lemma TypeNameMeta_not_composite :
  isObjectOrInterface (resolveType (Some TypeNameMetaFieldDef_type)) = false.
Proof. done. Qed.

Lemma enteredElsewhere_top name st :
  isObjectOrInterface (resolveType (topOf st)) = false →
  isObjectOrInterface (resolveType (topOf (enteredElsewhere name st))) = false.
Proof.
  intros Htop. unfold enteredElsewhere.
  destruct (isUnion _ && bool_decide _); [|done].
  by rewrite topOf_pushed.
Qed.

Lemma enteredElsewhere_frame name st :
  usedFragments (enteredElsewhere name st) = usedFragments st ∧
  usedVariables (enteredElsewhere name st) = usedVariables st.
Proof. unfold enteredElsewhere. by destruct (isUnion _ && bool_decide _). Qed.

Lemma visitSelections_all_deleted sels :
  Forall DeletedUnchanged sels →
  ∀ st rs st', visitList sels st = (rs, st') → rs = [] →
    typeStack st' = typeStack st ∧ usedFragments st' = usedFragments st.
Proof.
  induction 1 as [|s sels Hs _ IH]; intros st rs st' Hvisit Hnil.
  - by inversion Hvisit.
  - rewrite visitSelections_cons_eq in Hvisit.
    destruct (visitNode s st) as [r st1] eqn:Hnode.
    destruct (visitList sels st1) as [rs' st2] eqn:Hrest.
    destruct r as [s'|]; [by inversion Hvisit; subst|].
    assert (rs' = rs ∧ st2 = st') as [-> ->] by (by inversion Hvisit).
    destruct (Hs _ _ _ Hnode) as [[Hstack Hfrags] _]; [done|].
    destruct (IH _ _ _ Hrest Hnil) as [Hstack' Hfrags'].
    split; congruence.
Qed.

Lemma visitFieldChildren_gone arguments' directives selectionSet st ss' st' :
  (∀ sels, selectionSet = Some sels → Forall DeletedUnchanged sels) →
  visitFieldChildren arguments' directives selectionSet st = (ss', st') →
  childrenGone ss' st st'.
Proof.
  intros Hall Hchildren Hgone. unfold visitFieldChildren in Hchildren.
  destruct selectionSet as [sels|].
  - destruct (visitList sels _) as [rs st3] eqn:Hvisit.
    inversion Hchildren; subst. destruct rs; [|done].
    by destruct (visitSelections_all_deleted sels (Hall _ eq_refl) _ _ _ Hvisit).
  - by inversion Hchildren; subst.
Qed.

Lemma leaveField_kept node' st :
  isObjectOrInterface (resolveType (topOf st)) = false →
  leaveField node' st = (Some node', popped st).
Proof. intros Htop. unfold leaveField. by rewrite Htop. Qed.

Lemma topOf_same_stack st st' :
  typeStack st' = typeStack st → topOf st' = topOf st.
Proof. unfold topOf. by intros ->. Qed.

Lemma visit_field_deleted_unchanged alias name arguments directives selectionSet :
  (∀ sels, selectionSet = Some sels → Forall DeletedUnchanged sels) →
  DeletedUnchanged (FieldNode alias name arguments directives selectionSet).
Proof.
  intros Hall st r st' Hvisit. rewrite visitSelection_field_cases in Hvisit.
  destruct (isObjectOrInterface (resolveType (topOf st))) eqn:Htop.
  - split; [|done]. intros ->.
    destruct (fieldOn schema _ name) as [[fieldType argNames]|];
      [|by inversion Hvisit].
    cbv zeta in Hvisit.
    destruct (visitFieldChildren _ _ _ _) as [ss' st3] eqn:Hchildren.
    unfold leaveField in Hvisit.
    destruct (isObjectOrInterface _ && negb _) eqn:Hleave; [|done].
    inversion Hvisit; subst. apply andb_true_iff in Hleave as [_ Hsel].
    apply negb_true_iff in Hsel.
    destruct (visitFieldChildren_gone _ _ _ _ _ _ Hall Hchildren) as [Hstack Hfrags].
    { by destruct ss' as [[|]|]. }
    simpl. rewrite Hstack, Hfrags. simpl. by rewrite removelast_last.
  - destruct (visitFieldChildren _ _ _ _) as [ss' st3] eqn:Hchildren.
    assert (Hkept : r ≠ None).
    { unfold leaveField in Hvisit.
      destruct (isObjectOrInterface _ && negb _) eqn:Hleave;
        [|by inversion Hvisit].
      apply andb_true_iff in Hleave as [Hcomposite Hsel].
      apply negb_true_iff in Hsel.
      destruct (visitFieldChildren_gone _ _ _ _ _ _ Hall Hchildren) as [Hstack _].
      { by destruct ss' as [[|]|]. }
      rewrite (topOf_same_stack _ _ Hstack) in Hcomposite.
      by rewrite (enteredElsewhere_top _ _ Htop) in Hcomposite. }
    split; [done | by intros _ _].
Qed.

Lemma visit_deleted_unchanged node : DeletedUnchanged node.
Proof.
  induction node as [alias name args dirs | alias name args dirs sels IH
                     | name dirs | cond dirs sels IH]
    using SelectionNode_nested_ind.
  - apply visit_field_deleted_unchanged. by intros sels.
  - apply visit_field_deleted_unchanged. by intros ? [= <-].
  - intros st r st' Hvisit. rewrite visitSelection_spread_eq in Hvisit.
    split; [|done]. intros ->.
    destruct (validFragments !! name); [|by inversion Hvisit].
    destruct (implementsAbstractType _ _ _); by inversion Hvisit.
  - intros st r st' Hvisit. rewrite visitSelection_inline_eq in Hvisit.
    split; [|done]. intros ->. rewrite InlineFragment_enter_eq in Hvisit.
    destruct cond as [cond|].
    + destruct (implementsAbstractType _ _ _); [|by inversion Hvisit].
      by destruct (visitList sels _).
    + by destruct (visitList sels _).
Qed.

(** A field visited under a parent type that is neither an Object nor an
    Interface type is kept. *)
Lemma visit_field_elsewhere_kept alias name arguments directives selectionSet st :
  isObjectOrInterface (resolveType (topOf st)) = false →
  ∃ ss' st',
    visitNode (FieldNode alias name arguments directives selectionSet) st =
    (Some (FieldNode alias name arguments directives ss'), st').
Proof.
  intros Htop.
  destruct (visitNode (FieldNode alias name arguments directives selectionSet) st)
    as [r st'] eqn:Hvisit.
  destruct (visit_deleted_unchanged _ _ _ _ Hvisit) as [_ Hkept].
  specialize (Hkept Htop eq_refl).
  rewrite visitSelection_field_cases, Htop in Hvisit.
  destruct (visitFieldChildren _ _ _ _) as [ss' st3].
  unfold leaveField in Hvisit.
  destruct (isObjectOrInterface _ && negb _); inversion Hvisit; subst; [done|].
  eauto.
Qed.

Lemma visitSelections_app l1 l2 st :
  visitList (l1 ++ l2) st =
  let (rs1, st1) := visitList l1 st in
  let (rs2, st2) := visitList l2 st1 in
  (rs1 ++ rs2, st2).
Proof.
  revert st. induction l1 as [|s l1 IH]; intros st.
  - simpl. unfold ret. by destruct (visitList l2 st).
  - rewrite <- app_comm_cons, !visitSelections_cons_eq.
    destruct (visitNode s st) as [r st1]. rewrite IH.
    destruct (visitList l1 st1) as [rs1 st2].
    destruct (visitList l2 st2) as [rs2 st3].
    by destruct r.
Qed.

Lemma fieldOn_typename parentType :
  fieldOn schema parentType "__typename" =
  Some (Some TypeNameMetaFieldDef_type, TypeNameMetaFieldDef_args).
Proof. done. Qed.

(** A [__typename] field is kept wherever it is visited. *)
Lemma visit_typename_kept alias arguments directives selectionSet st :
  ∃ arguments' ss' st',
    visitNode (FieldNode alias "__typename" arguments directives selectionSet) st =
    (Some (FieldNode alias "__typename" arguments' directives ss'), st').
Proof.
  destruct (isObjectOrInterface (resolveType (topOf st))) eqn:Htop.
  - rewrite visitSelection_field_cases, Htop, fieldOn_typename. cbv zeta.
    destruct (visitFieldChildren _ _ _ _) as [ss' st3] eqn:Hchildren.
    unfold leaveField.
    destruct (isObjectOrInterface _ && negb _) eqn:Hleave; [|eauto].
    apply andb_true_iff in Hleave as [Hcomposite Hsel].
    apply negb_true_iff in Hsel.
    destruct (visitFieldChildren_gone _ _ _ _ _ _
                (λ sels _, proj2 (Forall_forall _ _)
                             (λ s _, visit_deleted_unchanged s)) Hchildren)
      as [Hstack _].
    { by destruct ss' as [[|]|]. }
    rewrite (topOf_same_stack _ _ Hstack), topOf_pushed in Hcomposite.
    discriminate.
  - destruct (visit_field_elsewhere_kept alias "__typename" arguments directives
                selectionSet st Htop) as (ss' & st' & ->).
    eauto.
Qed.

(** *** The used fragments are the spreads that are kept *)

Lemma selectionSpreads_field alias name arguments directives sels :
  selectionSpreads (FieldNode alias name arguments directives (Some sels)) =
  selectionsSpreads sels.
Proof.
  unfold selectionsSpreads. simpl.
  induction sels as [|s sels IH]; simpl; [done | by rewrite IH].
Qed.

Lemma selectionSpreads_inline cond directives sels :
  selectionSpreads (InlineFragmentNode cond directives sels) =
  selectionsSpreads sels.
Proof.
  unfold selectionsSpreads. simpl.
  induction sels as [|s sels IH]; simpl; [done | by rewrite IH].
Qed.

Lemma selectionVariables_field alias name arguments directives ss :
  selectionVariables (FieldNode alias name arguments directives ss) =
  argumentsVariables arguments ++ directivesVariables directives ++
  selectionsVariables (default [] ss).
Proof.
  unfold selectionsVariables. simpl. do 2 f_equal.
  destruct ss as [sels|]; [|done]. simpl.
  induction sels as [|s sels IH]; simpl; [done | by rewrite IH].
Qed.

Lemma selectionVariables_inline cond directives sels :
  selectionVariables (InlineFragmentNode cond directives sels) =
  directivesVariables directives ++ selectionsVariables sels.
Proof.
  unfold selectionsVariables. simpl. f_equal.
  induction sels as [|s sels IH]; simpl; [done | by rewrite IH].
Qed.

Lemma selectionSpreads_field_default alias name arguments directives ss :
  selectionSpreads (FieldNode alias name arguments directives ss) =
  selectionsSpreads (default [] ss).
Proof. destruct ss; [apply selectionSpreads_field | done]. Qed.

Lemma visitSelections_used sels :
  Forall UsedAreKept sels →
  ∀ st rs st', visitList sels st = (rs, st') →
    usedFragments st' = usedFragments st ++ selectionsSpreads rs ∧
    sublist (selectionsSpreads rs) (selectionsSpreads sels) ∧
    knownFragments (selectionsSpreads rs).
Proof.
  induction 1 as [|s sels Hs _ IH]; intros st rs st' Hvisit.
  - inversion Hvisit; subst. rewrite app_nil_r. split_and!; try done.
    constructor.
  - rewrite visitSelections_cons_eq in Hvisit.
    destruct (visitNode s st) as [r st1] eqn:Hnode.
    destruct (visitList sels st1) as [rs' st2] eqn:Hrest.
    assert (rs = match r with Some s' => s' :: rs' | None => rs' end ∧ st2 = st')
      as [-> ->] by (by inversion Hvisit).
    destruct (Hs _ _ _ Hnode) as (Hused & Hsub & Hknown).
    destruct (IH _ _ _ Hrest) as (Hused' & Hsub' & Hknown').
    rewrite Hused', Hused. unfold selectionsSpreads, knownFragments in *.
    destruct r as [s'|]; simpl in *.
    + split_and!; [by rewrite app_assoc | by apply sublist_app
                   | by apply Forall_app].
    + split_and!; [by rewrite app_nil_r | by apply sublist_inserts_l | done].
Qed.

Lemma leaveField_used alias name arguments directives ss' st r st' used sels :
  leaveField (FieldNode alias name arguments directives ss') st = (r, st') →
  usedFragments st = used ++ selectionsSpreads (default [] ss') →
  sublist (selectionsSpreads (default [] ss')) sels →
  knownFragments (selectionsSpreads (default [] ss')) →
  usedFragments st' = used ++ keptSpreads r ∧ sublist (keptSpreads r) sels ∧
  knownFragments (keptSpreads r).
Proof.
  unfold leaveField. intros Hleave Hused Hsub Hknown.
  destruct (isObjectOrInterface _ && negb _) eqn:Hdecide.
  - inversion Hleave; subst. apply andb_true_iff in Hdecide as [_ Hsel].
    apply negb_true_iff in Hsel. simpl.
    assert (default [] ss' = []) as Hnil by (by destruct ss' as [[|]|]).
    rewrite Hnil in Hused. rewrite Hused.
    split_and!; [done | apply sublist_nil_l | constructor].
  - inversion Hleave; subst. unfold keptSpreads.
    cbn [from_option popped usedFragments].
    by rewrite Hused, selectionSpreads_field_default.
Qed.

Lemma visitFieldChildren_used arguments' directives selectionSet st ss' st' :
  (∀ sels, selectionSet = Some sels → Forall UsedAreKept sels) →
  visitFieldChildren arguments' directives selectionSet st = (ss', st') →
  usedFragments st' = usedFragments st ++ selectionsSpreads (default [] ss') ∧
  sublist (selectionsSpreads (default [] ss'))
          (selectionsSpreads (default [] selectionSet)) ∧
  knownFragments (selectionsSpreads (default [] ss')).
Proof.
  intros Hall Hchildren. unfold visitFieldChildren in Hchildren.
  destruct selectionSet as [sels|].
  - destruct (visitList sels _) as [rs st3] eqn:Hvisit.
    inversion Hchildren; subst.
    by destruct (visitSelections_used sels (Hall _ eq_refl) _ _ _ Hvisit)
      as (? & ? & ?).
  - inversion Hchildren; subst. simpl. rewrite app_nil_r.
    split_and!; [done | done | constructor].
Qed.

Lemma visit_field_used alias name arguments directives selectionSet :
  (∀ sels, selectionSet = Some sels → Forall UsedAreKept sels) →
  UsedAreKept (FieldNode alias name arguments directives selectionSet).
Proof.
  intros Hall st r st' Hvisit. rewrite visitSelection_field_cases in Hvisit.
  rewrite selectionSpreads_field_default.
  destruct (isObjectOrInterface (resolveType (topOf st))).
  - destruct (fieldOn schema _ name) as [[fieldType argNames]|].
    + cbv zeta in Hvisit.
      destruct (visitFieldChildren _ _ _ _) as [ss' st3] eqn:Hchildren.
      destruct (visitFieldChildren_used _ _ _ _ _ _ Hall Hchildren)
        as (Hused & Hsub & Hknown).
      by apply (leaveField_used _ _ _ _ _ _ _ _ _ _ Hvisit).
    + inversion Hvisit; subst. simpl. rewrite app_nil_r.
      split_and!; [done | apply sublist_nil_l | constructor].
  - destruct (visitFieldChildren _ _ _ _) as [ss' st3] eqn:Hchildren.
    destruct (visitFieldChildren_used _ _ _ _ _ _ Hall Hchildren)
      as (Hused & Hsub & Hknown).
    rewrite (proj1 (enteredElsewhere_frame _ _)) in Hused.
    by apply (leaveField_used _ _ _ _ _ _ _ _ _ _ Hvisit).
Qed.

Lemma visit_used node : UsedAreKept node.
Proof.
  induction node as [alias name args dirs | alias name args dirs sels IH
                     | name dirs | cond dirs sels IH]
    using SelectionNode_nested_ind.
  - apply visit_field_used. by intros sels.
  - apply visit_field_used. by intros ? [= <-].
  - intros st r st' Hvisit. rewrite visitSelection_spread_eq in Hvisit.
    destruct (validFragments !! name) eqn:Hvalid.
    + destruct (implementsAbstractType _ _ _); inversion Hvisit; subst; simpl.
      * split_and!; [done | done |]. constructor; [by rewrite Hvalid | constructor].
      * rewrite app_nil_r. split_and!; [done | apply sublist_nil_l | constructor].
    + inversion Hvisit; subst; simpl. rewrite app_nil_r.
      split_and!; [done | apply sublist_nil_l | constructor].
  - intros st r st' Hvisit. rewrite visitSelection_inline_eq in Hvisit.
    rewrite InlineFragment_enter_eq in Hvisit.
    assert (Hbody : ∀ st1, usedFragments st1 = usedFragments st →
      (let (rs, st3) := visitList sels (withVariables st1 (directivesVariables dirs)) in
       (Some (InlineFragmentNode cond dirs rs), popped st3)) = (r, st') →
      usedFragments st' = usedFragments st ++ keptSpreads r ∧
      sublist (keptSpreads r) (selectionSpreads (InlineFragmentNode cond dirs sels)) ∧
      knownFragments (keptSpreads r)).
    { intros st1 Hst1 Hbody.
      destruct (visitList sels _) as [rs st3] eqn:Hlist.
      inversion Hbody; subst.
      destruct (visitSelections_used sels IH _ _ _ Hlist) as (Hused & Hsub & Hknown).
      cbn [withVariables usedFragments] in Hused. unfold keptSpreads.
      cbn [from_option popped usedFragments].
      rewrite !selectionSpreads_inline.
      split_and!; [by rewrite Hused, Hst1 | done | done]. }
    destruct cond as [cond|].
    + destruct (implementsAbstractType _ _ _);
        [by apply (Hbody (pushed st (Named <$> getType schema cond)) eq_refl)|].
      inversion Hvisit; subst. simpl. rewrite app_nil_r.
      split_and!; [done | apply sublist_nil_l | constructor].
    + by apply (Hbody st eq_refl).
Qed.

Lemma visitSelections_used_all sels st rs st' :
  visitList sels st = (rs, st') →
  usedFragments st' = usedFragments st ++ selectionsSpreads rs ∧
  sublist (selectionsSpreads rs) (selectionsSpreads sels) ∧
  knownFragments (selectionsSpreads rs).
Proof.
  apply visitSelections_used. apply Forall_forall. intros s _. apply visit_used.
Qed.

(** *** The used variables are the variables of what is kept *)

Lemma spliceFirst_perm x l : x ∈ l → l ≡ₚ x :: spliceFirst x l.
Proof.
  induction l as [|y l IH]; intros Hin; [by apply elem_of_nil in Hin|].
  simpl. destruct (decide (x = y)) as [->|Hne]; [done|].
  apply elem_of_cons in Hin as [?|Hin]; [done|].
  rewrite (IH Hin) at 1. apply Permutation_swap.
Qed.

Lemma splice_all vars :
  ∀ used kept, used ≡ₚ kept ++ vars →
    foldl (λ used name, spliceFirst name used) used vars ≡ₚ kept.
Proof.
  induction vars as [|v vars IH]; intros used kept Hperm; simpl.
  - by rewrite app_nil_r in Hperm.
  - apply IH. apply (Permutation_cons_inv (a := v)).
    rewrite <- spliceFirst_perm.
    + by rewrite Hperm, Permutation_middle.
    + rewrite Hperm. set_solver.
Qed.

Lemma argumentsVariables_filter argNames arguments :
  sublist (argumentsVariables (filterArguments argNames arguments))
          (argumentsVariables arguments).
Proof.
  unfold argumentsVariables, filterArguments.
  induction arguments as [|a args IH]; [done|].
  rewrite filter_cons. destruct (decide _); simpl.
  - by apply sublist_app.
  - by apply sublist_inserts_l.
Qed.

Lemma visitSelections_variables sels :
  Forall VariablesAreKept sels →
  ∀ st rs st', visitList sels st = (rs, st') →
    usedVariables st' ≡ₚ usedVariables st ++ selectionsVariables rs ∧
    sublist (selectionsVariables rs) (selectionsVariables sels).
Proof.
  induction 1 as [|s sels Hs _ IH]; intros st rs st' Hvisit.
  - inversion Hvisit; subst. by rewrite app_nil_r.
  - rewrite visitSelections_cons_eq in Hvisit.
    destruct (visitNode s st) as [r st1] eqn:Hnode.
    destruct (visitList sels st1) as [rs' st2] eqn:Hrest.
    assert (rs = match r with Some s' => s' :: rs' | None => rs' end ∧ st2 = st')
      as [-> ->] by (by inversion Hvisit).
    destruct (IH _ _ _ Hrest) as [Hperm' Hsub'].
    destruct (Hs _ _ _ Hnode) as [Hperm Hsub].
    rewrite Hperm', Hperm. unfold selectionsVariables in *.
    destruct r as [s'|]; simpl in *.
    + split; [by rewrite app_assoc | by apply sublist_app].
    + split; [by rewrite app_nil_r | by apply sublist_inserts_l].
Qed.

Lemma visitFieldChildren_variables arguments' directives selectionSet st ss' st' :
  (∀ sels, selectionSet = Some sels → Forall VariablesAreKept sels) →
  visitFieldChildren arguments' directives selectionSet st = (ss', st') →
  usedVariables st' ≡ₚ
    usedVariables st ++
    selectionVariables (FieldNode None "" arguments' directives ss') ∧
  sublist (selectionsVariables (default [] ss'))
          (selectionsVariables (default [] selectionSet)).
Proof.
  intros Hall Hchildren. unfold visitFieldChildren in Hchildren.
  rewrite selectionVariables_field.
  destruct selectionSet as [sels|].
  - destruct (visitList sels _) as [rs st3] eqn:Hvisit.
    inversion Hchildren; subst.
    destruct (visitSelections_variables sels (Hall _ eq_refl) _ _ _ Hvisit)
      as [Hperm Hsub].
    split; [|done]. rewrite Hperm. simpl. by rewrite <- ?app_assoc.
  - inversion Hchildren; subst. simpl. by rewrite ?app_nil_r, <- ?app_assoc.
Qed.

Lemma leaveField_variables alias name arguments directives ss' st r st' used vars :
  leaveField (FieldNode alias name arguments directives ss') st = (r, st') →
  usedVariables st ≡ₚ
    used ++ selectionVariables (FieldNode None "" arguments directives ss') →
  sublist (selectionVariables (FieldNode None "" arguments directives ss')) vars →
  usedVariables st' ≡ₚ used ++ keptVariables r ∧ sublist (keptVariables r) vars.
Proof.
  unfold leaveField. intros Hleave Hused Hsub.
  destruct (isObjectOrInterface _ && negb _).
  - apply pair_equal_spec in Hleave as [<- <-]. unfold keptVariables, spliced.
    cbn [from_option popped usedVariables]. rewrite app_nil_r.
    split; [|apply sublist_nil_l].
    apply splice_all. rewrite Hused. by rewrite !selectionVariables_field.
  - apply pair_equal_spec in Hleave as [<- <-]. unfold keptVariables.
    cbn [from_option popped usedVariables].
    rewrite Hused. rewrite !selectionVariables_field in *. done.
Qed.

Lemma visit_field_variables alias name arguments directives selectionSet :
  (∀ sels, selectionSet = Some sels → Forall VariablesAreKept sels) →
  VariablesAreKept (FieldNode alias name arguments directives selectionSet).
Proof.
  intros Hall st r st' Hvisit. rewrite visitSelection_field_cases in Hvisit.
  destruct (isObjectOrInterface (resolveType (topOf st))).
  - destruct (fieldOn schema _ name) as [[fieldType argNames]|].
    + cbv zeta in Hvisit.
      destruct (visitFieldChildren _ _ _ _) as [ss' st3] eqn:Hchildren.
      destruct (visitFieldChildren_variables _ _ _ _ _ _ Hall Hchildren)
        as [Hperm Hsub].
      apply (leaveField_variables _ _ _ _ _ _ _ _ _ _ Hvisit); [done|].
      rewrite !selectionVariables_field.
      apply sublist_app; [apply argumentsVariables_filter|].
      by apply sublist_app.
    + inversion Hvisit; subst. simpl keptVariables. rewrite app_nil_r.
      split; [done | apply sublist_nil_l].
  - destruct (visitFieldChildren _ _ _ _) as [ss' st3] eqn:Hchildren.
    destruct (visitFieldChildren_variables _ _ _ _ _ _ Hall Hchildren)
      as [Hperm Hsub].
    apply (leaveField_variables _ _ _ _ _ _ _ _ _ _ Hvisit).
    + by rewrite Hperm, (proj2 (enteredElsewhere_frame _ _)).
    + rewrite !selectionVariables_field.
      apply sublist_app; [done|]. by apply sublist_app.
Qed.

Lemma visit_variables node : VariablesAreKept node.
Proof.
  induction node as [alias name args dirs | alias name args dirs sels IH
                     | name dirs | cond dirs sels IH]
    using SelectionNode_nested_ind.
  - apply visit_field_variables. by intros sels.
  - apply visit_field_variables. by intros ? [= <-].
  - intros st r st' Hvisit. rewrite visitSelection_spread_eq in Hvisit.
    destruct (validFragments !! name).
    + destruct (implementsAbstractType _ _ _); inversion Hvisit; subst; simpl;
        [done | rewrite app_nil_r; split; [done | apply sublist_nil_l]].
    + inversion Hvisit; subst; simpl. rewrite app_nil_r.
      split; [done | apply sublist_nil_l].
  - intros st r st' Hvisit. rewrite visitSelection_inline_eq in Hvisit.
    rewrite InlineFragment_enter_eq in Hvisit.
    assert (Hbody : ∀ st1, usedVariables st1 = usedVariables st →
      (let (rs, st3) := visitList sels (withVariables st1 (directivesVariables dirs)) in
       (Some (InlineFragmentNode cond dirs rs), popped st3)) = (r, st') →
      usedVariables st' ≡ₚ usedVariables st ++ keptVariables r ∧
      sublist (keptVariables r)
              (selectionVariables (InlineFragmentNode cond dirs sels))).
    { intros st1 Hst1 Hbody.
      destruct (visitList sels _) as [rs st3] eqn:Hlist.
      apply pair_equal_spec in Hbody as [<- <-]. unfold keptVariables.
      cbn [from_option popped usedVariables].
      destruct (visitSelections_variables sels IH _ _ _ Hlist) as [Hperm Hsub].
      rewrite !selectionVariables_inline. split; [|by apply sublist_app].
      rewrite Hperm. cbn [withVariables usedVariables].
      by rewrite Hst1, <- app_assoc. }
    destruct cond as [cond|].
    + destruct (implementsAbstractType _ _ _);
        [by apply (Hbody (pushed st (Named <$> getType schema cond)) eq_refl)|].
      inversion Hvisit; subst. simpl keptVariables. rewrite app_nil_r.
      split; [done | apply sublist_nil_l].
    + by apply (Hbody st eq_refl).
Qed.

Lemma visitSelections_variables_all sels st rs st' :
  visitList sels st = (rs, st') →
  usedVariables st' ≡ₚ usedVariables st ++ selectionsVariables rs ∧
  sublist (selectionsVariables rs) (selectionsVariables sels).
Proof.
  apply visitSelections_variables. apply Forall_forall. intros s _.
  apply visit_variables.
Qed.

(** *** A second pass deletes nothing *)

Lemma filterArguments_idemp argNames arguments :
  filterArguments argNames (filterArguments argNames arguments) =
  filterArguments argNames arguments.
Proof.
  unfold filterArguments. induction arguments as [|a args IH]; [done|].
  rewrite filter_cons. destruct (decide _) as [Hin|Hnot]; [|done].
  rewrite filter_cons. destruct (decide _); [by rewrite IH | done].
Qed.

Lemma typeStack_enteredElsewhere name st st2 :
  typeStack st2 = typeStack st →
  typeStack (enteredElsewhere name st2) = typeStack (enteredElsewhere name st).
Proof.
  intros Hstack. unfold enteredElsewhere.
  rewrite (topOf_same_stack _ _ Hstack).
  destruct (isUnion _ && bool_decide _); simpl; by rewrite Hstack.
Qed.

Lemma visitSelections_replay sels :
  Forall Replays sels →
  ∀ st rs st', visitList sels st = (rs, st') →
    ∀ st2, typeStack st2 = typeStack st →
      ∃ st2', visitList rs st2 = (rs, st2') ∧ typeStack st2' = typeStack st'.
Proof.
  induction 1 as [|s sels Hs _ IH]; intros st rs st' Hvisit st2 Hstack.
  - apply pair_equal_spec in Hvisit as [<- <-]. by exists st2.
  - rewrite visitSelections_cons_eq in Hvisit.
    destruct (visitNode s st) as [r st1] eqn:Hnode.
    destruct (visitList sels st1) as [rs' st3] eqn:Hrest.
    apply pair_equal_spec in Hvisit as [<- <-].
    destruct r as [s'|].
    + destruct (Hs _ _ _ Hnode st2 Hstack) as (st2a & Hnode2 & Hstack2).
      destruct (IH _ _ _ Hrest st2a Hstack2) as (st2' & Hrest2 & Hstack').
      exists st2'. by rewrite visitSelections_cons_eq, Hnode2, Hrest2.
    + destruct (visit_deleted_unchanged _ _ _ _ Hnode) as [[Hsame _] _]; [done|].
      apply (IH _ _ _ Hrest). congruence.
Qed.

Lemma visitFieldChildren_replay arguments directives selectionSet st ss' st' :
  (∀ sels, selectionSet = Some sels → Forall Replays sels) →
  visitFieldChildren arguments directives selectionSet st = (ss', st') →
  ∀ st2 arguments2, typeStack st2 = typeStack st →
    ∃ st2', visitFieldChildren arguments2 directives ss' st2 = (ss', st2') ∧
            typeStack st2' = typeStack st'.
Proof.
  intros Hall Hchildren st2 arguments2 Hstack.
  unfold visitFieldChildren in *. destruct selectionSet as [sels|].
  - destruct (visitList sels _) as [rs st3] eqn:Hvisit.
    apply pair_equal_spec in Hchildren as [<- <-].
    destruct (visitSelections_replay sels (Hall _ eq_refl) _ _ _ Hvisit
                (withVariables st2 (argumentsVariables arguments2 ++
                                    directivesVariables directives)) Hstack)
      as (st2' & -> & Hstack'). by exists st2'.
  - apply pair_equal_spec in Hchildren as [<- <-]. eexists. by split.
Qed.

Lemma leaveField_replay node' st n' st' st2 :
  leaveField node' st = (Some n', st') →
  typeStack st2 = typeStack st →
  n' = node' ∧ leaveField node' st2 = (Some node', popped st2) ∧
  typeStack (popped st2) = typeStack st'.
Proof.
  unfold leaveField. intros Hleave Hstack.
  rewrite (topOf_same_stack _ _ Hstack).
  destruct (isObjectOrInterface _ && negb _); [done|].
  apply pair_equal_spec in Hleave as [[= <-] <-]. simpl. by rewrite Hstack.
Qed.

Lemma visit_field_replays alias name arguments directives selectionSet :
  (∀ sels, selectionSet = Some sels → Forall Replays sels) →
  Replays (FieldNode alias name arguments directives selectionSet).
Proof.
  intros Hall st n' st' Hvisit st2 Hstack.
  rewrite visitSelection_field_cases in Hvisit.
  destruct (isObjectOrInterface (resolveType (topOf st))) eqn:Htop.
  - destruct (fieldOn schema _ name) as [[fieldType argNames]|] eqn:Hfield;
      [|done].
    cbv zeta in Hvisit.
    destruct (visitFieldChildren _ _ _ _) as [ss' st3] eqn:Hchildren.
    destruct (visitFieldChildren_replay _ _ _ _ _ _ Hall Hchildren
                (pushed st2 fieldType) (filterArguments argNames arguments))
      as (st3' & Hchildren2 & Hstack3); [simpl; by rewrite Hstack|].
    destruct (leaveField_replay _ _ _ _ _ Hvisit Hstack3) as (-> & Hleave2 & Hstack').
    exists (popped st3'). split; [|done].
    rewrite visitSelection_field_cases, (topOf_same_stack _ _ Hstack), Htop, Hfield.
    cbv zeta. by rewrite filterArguments_idemp, Hchildren2.
  - destruct (visitFieldChildren _ _ _ _) as [ss' st3] eqn:Hchildren.
    destruct (visitFieldChildren_replay _ _ _ _ _ _ Hall Hchildren
                (enteredElsewhere name st2) arguments)
      as (st3' & Hchildren2 & Hstack3); [by apply typeStack_enteredElsewhere|].
    destruct (leaveField_replay _ _ _ _ _ Hvisit Hstack3) as (-> & Hleave2 & Hstack').
    exists (popped st3'). split; [|done].
    rewrite visitSelection_field_cases, (topOf_same_stack _ _ Hstack), Htop.
    by rewrite Hchildren2.
Qed.

Lemma visit_replays node : Replays node.
Proof.
  induction node as [alias name args dirs | alias name args dirs sels IH
                     | name dirs | cond dirs sels IH]
    using SelectionNode_nested_ind.
  - apply visit_field_replays. by intros sels.
  - apply visit_field_replays. by intros ? [= <-].
  - intros st n' st' Hvisit st2 Hstack.
    rewrite visitSelection_spread_eq in Hvisit.
    destruct (validFragments !! name) as [innerType|] eqn:Hvalid; [|done].
    destruct (implementsAbstractType _ _ _) eqn:Himpl; [|done].
    apply pair_equal_spec in Hvisit as [[= <-] <-].
    eexists. rewrite visitSelection_spread_eq, Hvalid.
    rewrite (topOf_same_stack _ _ Hstack), Himpl. split; [reflexivity|].
    simpl. done.
  - intros st n' st' Hvisit st2 Hstack.
    rewrite visitSelection_inline_eq, InlineFragment_enter_eq in Hvisit.
    assert (Hbody : ∀ st1 st1', typeStack st1' = typeStack st1 →
      (let (rs, st3) := visitList sels (withVariables st1 (directivesVariables dirs)) in
       (Some (InlineFragmentNode cond dirs rs), popped st3)) = (Some n', st') →
      ∃ rs st2',
        n' = InlineFragmentNode cond dirs rs ∧
        (let (rs', st3) := visitList rs (withVariables st1' (directivesVariables dirs)) in
         (Some (InlineFragmentNode cond dirs rs'), popped st3)) = (Some n', st2') ∧
        typeStack st2' = typeStack st').
    { intros st1 st1' Hst1 Hbody.
      destruct (visitList sels _) as [rs st3] eqn:Hlist.
      apply pair_equal_spec in Hbody as [[= <-] <-].
      destruct (visitSelections_replay sels IH _ _ _ Hlist
                  (withVariables st1' (directivesVariables dirs)) Hst1)
        as (st3' & Hrun & Hstack3).
      exists rs, (popped st3'). rewrite Hrun. split_and!; [done | done |].
      simpl. by rewrite Hstack3. }
    destruct cond as [cond|].
    + destruct (implementsAbstractType _ _ _) eqn:Himpl; [|done].
      destruct (Hbody (pushed st (Named <$> getType schema cond))
                  (pushed st2 (Named <$> getType schema cond)))
        as (rs & st2' & -> & Hrun & Hstack'); [simpl; by rewrite Hstack | done |].
      exists st2'. split; [|done].
      rewrite visitSelection_inline_eq, InlineFragment_enter_eq.
      by rewrite (topOf_same_stack _ _ Hstack), Himpl.
    + destruct (Hbody st st2) as (rs & st2' & -> & Hrun & Hstack'); [done | done |].
      exists st2'. split; [|done].
      by rewrite visitSelection_inline_eq, InlineFragment_enter_eq.
Qed.

Lemma visitSelections_replay_all sels st rs st' :
  visitList sels st = (rs, st') →
  ∀ st2, typeStack st2 = typeStack st →
    ∃ st2', visitList rs st2 = (rs, st2') ∧ typeStack st2' = typeStack st'.
Proof.
  apply visitSelections_replay. apply Forall_forall. intros s _.
  apply visit_replays.
Qed.

(** *** A field whose sub-selection is filtered away *)



Lemma filterSelectionSet_variables type sels :
  res_usedVariables
    (filterSelectionSet implementsAbstractType schema validFragments type sels)
  ≡ₚ selectionsVariables
       (res_selectionSet
          (filterSelectionSet implementsAbstractType schema validFragments
             type sels)).
Proof.
  unfold filterSelectionSet.
  destruct (visitSelections _ _ _ sels _) as [rs st] eqn:Hvisit.
  simpl. by rewrite (proj1 (visitSelections_variables_all _ _ _ _ Hvisit)).
Qed.

(** Filtering what has been filtered changes nothing: no field is left
    that [leave] would delete. *)
Lemma filterSelectionSet_idempotent type sels :
  res_selectionSet
    (filterSelectionSet implementsAbstractType schema validFragments type
       (res_selectionSet
          (filterSelectionSet implementsAbstractType schema validFragments
             type sels))) =
  res_selectionSet
    (filterSelectionSet implementsAbstractType schema validFragments type sels).
Proof.
  unfold filterSelectionSet.
  destruct (visitSelections _ _ _ sels _) as [rs st] eqn:Hvisit.
  destruct (visitSelections_replay_all _ _ _ _ Hvisit (mkState [type] [] []) eq_refl)
    as (st2 & Hagain & _).
  simpl. by rewrite Hagain.
Qed.

End Traversal.

(** ** The [__typename] meta-field *)

(** C8: a requested [__typename] field whose parent type (the top of the
    type stack when the field is entered, after the siblings [pre] before
    it) is an Object, Interface or Union type is matched against the
    synthetic meta-field: [enter] does not return [null] and pushes the
    meta-field's type [String!] without consulting the parent's fields, and
    the field is in the selections that [visit] returns. *)
Theorem typename_always_retained :
  ∀ impl schema validFragments pre alias arguments directives selectionSet post st,
    let before := visitSelections impl schema validFragments pre st in
    isComposite (resolveType (topOf (snd before))) = true →
    (∃ r, Field_enter schema "__typename" arguments (snd before) =
            (r, pushed (snd before) (Some TypeNameMetaFieldDef_type)) ∧
          r ≠ Null) ∧
    (∃ arguments' selectionSet' after st',
       visitSelections impl schema validFragments
         (pre ++ FieldNode alias "__typename" arguments directives selectionSet
              :: post) st =
       (fst before ++
          FieldNode alias "__typename" arguments' directives selectionSet'
          :: after, st')).
Proof.
  intros impl schema validFragments pre alias arguments directives selectionSet
    post st before Hparent.
  split.
  - rewrite Field_enter_eq. unfold isComposite in Hparent.
    destruct (isObjectOrInterface (resolveType (topOf (snd before)))).
    + rewrite fieldOn_typename. eexists. split; [reflexivity|].
      by destruct (decide _).
    + simpl in Hparent. rewrite Hparent. simpl. by eexists.
  - rewrite visitSelections_app. subst before.
    destruct (visitSelections impl schema validFragments pre st) as [rs1 st1].
    rewrite visitSelections_cons_eq.
    destruct (visit_typename_kept impl schema validFragments alias arguments
                directives selectionSet st1) as (arguments' & ss' & st2 & ->).
    destruct (visitSelections impl schema validFragments post st2) as [rs2 st3].
    simpl. eauto.
Qed.

Lemma typename_always_retained_witness :
  isComposite (resolveType (topOf (snd
    (visitSelections implementsOrEquals Booking.bookingSchema ∅
       [Booking.leaf "version"] (mkState [Some (Named Booking.Query)] [] []))))) = true ∧
  ∃ arguments' selectionSet' after st',
    visitSelections implementsOrEquals Booking.bookingSchema ∅
      ([Booking.leaf "version"] ++
        FieldNode None "__typename" [Booking.var "x" "x"] [] None :: [])
      (mkState [Some (Named Booking.Query)] [] []) =
    (fst (visitSelections implementsOrEquals Booking.bookingSchema ∅
            [Booking.leaf "version"] (mkState [Some (Named Booking.Query)] [] []))
       ++ FieldNode None "__typename" arguments' [] selectionSet' :: after, st').
Proof.
  split; [vm_compute; reflexivity|].
  apply (typename_always_retained implementsOrEquals Booking.bookingSchema ∅
           [Booking.leaf "version"] None [Booking.var "x" "x"] [] None []
           (mkState [Some (Named Booking.Query)] [] [])).
  vm_compute. reflexivity.
Defined.

(** ** The operations of the filtered document *)

Lemma operationsOf_emitted ops frs :
  operationsOf (mkDocument (map OperationDefinition ops ++
                            map FragmentDefinition frs)) = ops.
Proof.
  unfold operationsOf. cbn [definitions]. rewrite omap_app.
  assert (H1 : ∀ l, omap (λ def, match def with
                                 | OperationDefinition o => Some o
                                 | _ => None end)
                         (map OperationDefinition l) = l).
  { induction l as [|o l IH]; [done | simpl; f_equal; exact IH]. }
  assert (H2 : ∀ l, omap (λ def, match def with
                                 | OperationDefinition o => Some o
                                 | _ => None end)
                         (map FragmentDefinition l) = []).
  { induction l as [|f l IH]; [done | simpl; f_equal; exact IH]. }
  by rewrite H1, H2, app_nil_r.
Qed.

Lemma fragmentsOf_emitted ops frs :
  fragmentsOf (mkDocument (map OperationDefinition ops ++
                           map FragmentDefinition frs)) = frs.
Proof.
  unfold fragmentsOf. cbn [definitions]. rewrite omap_app.
  assert (H1 : ∀ l, omap (λ def, match def with
                                 | FragmentDefinition f => Some f
                                 | _ => None end)
                         (map OperationDefinition l) = []).
  { induction l as [|o l IH]; [done | simpl; f_equal; exact IH]. }
  assert (H2 : ∀ l, omap (λ def, match def with
                                 | FragmentDefinition f => Some f
                                 | _ => None end)
                         (map FragmentDefinition l) = l).
  { induction l as [|f l IH]; [done | simpl; f_equal; exact IH]. }
  by rewrite H1, H2.
Qed.

Lemma filterOperation_emits impl schema validFragments vfwt fuel st operation st' :
  filterOperation impl schema validFragments vfwt fuel st operation = Some st' →
  ∃ operation',
    newOperations st' = newOperations st ++ [operation'] ∧
    emittedFor impl schema vfwt operation operation'.
Proof.
  unfold filterOperation. intros Hop.
  destruct (collectFragmentVariables _ _ _ _ _ _ _) as [collected|]; [|done].
  simpl in Hop. inversion Hop; subst; clear Hop. simpl.
  eexists. split; [reflexivity|].
  repeat split; simpl. apply sublist_filter.
Qed.

Lemma filterOperations_emit impl schema validFragments vfwt fuel
    (R : OperationDefinitionNode → OperationDefinitionNode → Prop) :
  (∀ st operation st',
     filterOperation impl schema validFragments vfwt fuel st operation = Some st' →
     ∃ operation',
       newOperations st' = newOperations st ++ [operation'] ∧
       R operation operation') →
  ∀ operations st st',
    filterOperations impl schema validFragments vfwt fuel st operations = Some st' →
    ∃ operations',
      newOperations st' = newOperations st ++ operations' ∧
      Forall2 R operations operations'.
Proof.
  intros Hone.
  induction operations as [|operation rest IH]; intros st st' Hops; simpl in Hops.
  - inversion Hops; subst. exists []. by rewrite app_nil_r.
  - destruct (filterOperation _ _ _ _ _ st operation) as [st1|] eqn:Hop; [|done].
    simpl in Hops.
    destruct (Hone _ _ _ Hop) as (operation' & Hnew & Hem).
    destruct (IH _ _ Hops) as (operations' & Hnew' & Hall).
    exists (operation' :: operations'). split; [|by constructor].
    by rewrite Hnew', Hnew, <- app_assoc.
Qed.

Lemma filterDocumentToSchema_emits impl fuel schema doc out
    (R : OperationDefinitionNode → OperationDefinitionNode → Prop) :
  (∀ st operation st',
     filterOperation impl schema (validFragmentsOf schema (fragmentsOf doc))
       (validFragmentsWithTypeOf schema
          (validFragmentsOf schema (fragmentsOf doc)))
       fuel st operation = Some st' →
     ∃ operation',
       newOperations st' = newOperations st ++ [operation'] ∧
       R operation operation') →
  filterDocumentToSchema impl fuel schema doc = Some out →
  Forall2 R (operationsOf doc) (operationsOf out).
Proof.
  unfold filterDocumentToSchema. intros Hone Hdoc.
  destruct (filterOperations _ _ _ _ _ _ _) as [st|] eqn:Hops; [|done].
  simpl in Hdoc. inversion Hdoc; subst; clear Hdoc.
  rewrite operationsOf_emitted.
  destruct (filterOperations_emit _ _ _ _ _ R Hone _ _ _ Hops)
    as (ops' & Hnew & Hall).
  simpl in Hnew. by rewrite Hnew.
Qed.

Lemma filterDocumentToSchema_operations impl fuel schema doc out :
  filterDocumentToSchema impl fuel schema doc = Some out →
  Forall2 (emittedFor impl schema
             (validFragmentsWithTypeOf schema
                (validFragmentsOf schema (fragmentsOf doc))))
          (operationsOf doc) (operationsOf out).
Proof.
  apply filterDocumentToSchema_emits. intros st operation st'.
  apply filterOperation_emits.
Qed.

(** ** [uniq], [union] and [pop] *)

Lemma filter_all {A} (P : A → Prop) `{∀ x, Decision (P x)} (l : list A) :
  Forall P l → filter P l = l.
Proof.
  induction 1 as [|x l Hx _ IH]; [done|].
  rewrite filter_cons. destruct (decide (P x)); [by rewrite IH | done].
Qed.

Lemma uniq_from {A : Type} `{EqDecision A} (l : list A) :
  ∀ acc, foldl uniqStep acc l = acc ++ uniq (filter (λ y, y ∉ acc) l).
Proof.
  unfold uniq.
  induction l as [l IH] using (induction_ltof1 _ (@length A));
    unfold ltof in IH.
  intros acc. destruct l as [|y l]; [by rewrite app_nil_r|].
  cbn [foldl]. unfold uniqStep at 2.
  destruct (decide (y ∈ acc)) as [Hin|Hnotin].
  - rewrite IH by (simpl; lia). by rewrite filter_cons_False by tauto.
  - rewrite IH by (simpl; lia). rewrite filter_cons_True by done.
    cbn [foldl]. unfold uniqStep at 3.
    destruct (decide (y ∈ [])) as [Hnil|_]; [by apply elem_of_nil in Hnil|].
    rewrite app_nil_l.
    rewrite (IH (filter (λ y0, y0 ∉ acc) l)).
    2:{ simpl. pose proof (length_filter (λ y0, y0 ∉ acc) l). lia. }
    rewrite <- app_assoc. do 3 f_equal.
    rewrite list_filter_filter. apply list_filter_iff.
    intros x. rewrite elem_of_app, list_elem_of_singleton. tauto.
Qed.

Lemma uniq_cons {A : Type} `{EqDecision A} (x : A) (l : list A) :
  uniq (x :: l) = x :: uniq (filter (λ y, y ≠ x) l).
Proof.
  unfold uniq at 1. cbn [foldl]. unfold uniqStep at 2.
  destruct (decide (x ∈ [])) as [Hnil|_]; [by apply elem_of_nil in Hnil|].
  rewrite app_nil_l, uniq_from. simpl. f_equal. f_equal.
  apply list_filter_iff. intros y. rewrite list_elem_of_singleton. tauto.
Qed.

Lemma uniq_spec {A : Type} `{EqDecision A} (l : list A) :
  NoDup (uniq l) ∧ sublist (uniq l) l ∧ ∀ x, x ∈ uniq l ↔ x ∈ l.
Proof.
  induction l as [l IH] using (induction_ltof1 _ (@length A));
    unfold ltof in IH.
  destruct l as [|x l]; [by split_and!; [constructor|..]|].
  rewrite uniq_cons.
  destruct (IH (filter (λ y, y ≠ x) l)) as (Hnd & Hsub & Hel).
  { simpl. pose proof (length_filter (λ y, y ≠ x) l). lia. }
  split_and!.
  - constructor; [|done]. rewrite Hel, list_elem_of_filter. tauto.
  - constructor. etrans; [done|]. apply sublist_filter.
  - intros y. rewrite !elem_of_cons, Hel, list_elem_of_filter.
    destruct (decide (y = x)); tauto.
Qed.

Lemma uniq_NoDup {A : Type} `{EqDecision A} (l : list A) :
  NoDup l → uniq l = l.
Proof.
  induction 1 as [|x l Hx Hnd IH]; [done|].
  rewrite uniq_cons. f_equal. rewrite <- IH at 2. f_equal.
  apply filter_all. apply Forall_forall. by intros y Hy ->.
Qed.

Lemma uniq_filter {A : Type} `{EqDecision A} (P : A → Prop)
    `{∀ x, Decision (P x)} (l : list A) :
  uniq (filter P l) = filter P (uniq l).
Proof.
  induction l as [l IH] using (induction_ltof1 _ (@length A));
    unfold ltof in IH.
  destruct l as [|x l]; [done|].
  rewrite uniq_cons.
  assert (Hlen : length (filter (λ y, y ≠ x) l) < length (x :: l)).
  { simpl. pose proof (length_filter (λ y, y ≠ x) l). lia. }
  destruct (decide (P x)) as [HP|HP].
  - rewrite !filter_cons_True by done. rewrite uniq_cons. f_equal.
    rewrite <- (IH _ Hlen). f_equal.
    rewrite !list_filter_filter. apply list_filter_iff.
    intros y. split; intros [? ?]; by split.
  - rewrite !filter_cons_False by done.
    rewrite <- (IH _ Hlen). f_equal.
    rewrite list_filter_filter. apply list_filter_iff.
    intros y. split; [|by intros [? _]]. intros HPy. split; [done|]. by intros ->.
Qed.

Lemma uniq_app {A : Type} `{EqDecision A} (l1 l2 : list A) :
  uniq (l1 ++ l2) = uniq l1 ++ uniq (filter (λ y, y ∉ uniq l1) l2).
Proof. unfold uniq at 1. rewrite foldl_app. apply uniq_from. Qed.

Lemma unionStep_uniqStep (inherited : list string) l :
  ∀ cache result,
    (∀ x, x ∈ cache ↔ x ∈ inherited ∨ x ∈ result) →
    snd (foldl unionStep (cache, result) l) =
    foldl uniqStep result (filter (λ x, x ∉ inherited) l).
Proof.
  induction l as [|item l IH]; intros cache result Hcache; [done|].
  cbn [foldl]. unfold unionStep at 2.
  destruct (decide (item ∈ cache)) as [Hin|Hnotin].
  - apply Hcache in Hin.
    destruct (decide (item ∈ inherited)) as [Hi|Hni].
    + rewrite filter_cons_False by tauto. by apply IH.
    + rewrite filter_cons_True by done. cbn [foldl]. unfold uniqStep at 2.
      destruct (decide (item ∈ result)); [by apply IH | tauto].
  - assert (Hni : item ∉ inherited) by (intros ?; apply Hnotin, Hcache; tauto).
    assert (Hnr : item ∉ result) by (intros ?; apply Hnotin, Hcache; tauto).
    rewrite filter_cons_True by done. cbn [foldl]. unfold uniqStep at 2.
    destruct (decide (item ∈ result)); [done|].
    apply IH. intros x.
    rewrite elem_of_union, elem_of_singleton, elem_of_app,
      list_elem_of_singleton, Hcache. tauto.
Qed.

Lemma union_uniq arrays :
  union arrays = uniq (filter (λ x, x ∉ objectPrototypeKeys) (concat arrays)).
Proof.
  unfold union, uniq. apply unionStep_uniqStep.
  intros x. rewrite elem_of_list_to_set, elem_of_nil. tauto.
Qed.

Lemma union_spec arrays :
  sublist (union arrays) (concat arrays) ∧
  NoDup (union arrays) ∧
  (∀ x, x ∈ union arrays ↔ x ∈ concat arrays ∧ x ∉ objectPrototypeKeys).
Proof.
  rewrite union_uniq.
  destruct (uniq_spec (filter (λ x, x ∉ objectPrototypeKeys) (concat arrays)))
    as (Hnd & Hsub & Hel).
  split_and!; [|done|].
  - etrans; [done|]. apply sublist_filter.
  - intros x. rewrite Hel, list_elem_of_filter. tauto.
Qed.

(** What [union] adds for names that are not inherited. *)
Lemma union_intro arrays x :
  x ∈ concat arrays → x ∉ objectPrototypeKeys → x ∈ union arrays.
Proof. intros Hx Hplain. by apply (proj2 (proj2 (union_spec _))). Qed.

Lemma union_elim arrays x :
  x ∈ union arrays → x ∈ concat arrays ∧ x ∉ objectPrototypeKeys.
Proof. intros Hx. by apply (proj2 (proj2 (union_spec _))). Qed.

Lemma pop_snoc {A} (l : list A) x : pop (l ++ [x]) = (Some x, l).
Proof. unfold pop. by rewrite last_snoc, removelast_last. Qed.

Lemma pop_nonempty {A} (l : list A) :
  l ≠ [] → ∃ x rest, l = rest ++ [x] ∧ pop l = (Some x, rest).
Proof.
  destruct l as [|y l] using rev_ind; [done|]. intros _.
  exists y, l. by rewrite pop_snoc.
Qed.

(** ** Termination of the fragment closure on ranked fragments *)

Lemma spreadsWeight_app w l1 l2 :
  spreadsWeight w (l1 ++ l2) = spreadsWeight w l1 + spreadsWeight w l2.
Proof. apply sum_list_with_app. Qed.

Lemma spreadsWeight_sublist w l1 l2 :
  sublist l1 l2 → spreadsWeight w l1 ≤ spreadsWeight w l2.
Proof.
  induction 1 as [|x l1 l2 _ IH|x l1 l2 _ IH]; unfold spreadsWeight in *; simpl; lia.
Qed.

Section Closure.

Variable implementsAbstractType :
  GraphQLSchema → option GraphQLNamedType → option GraphQLNamedType → bool.
Variable targetSchema : GraphQLSchema.
Variable validFragments : list FragmentDefinitionNode.
Variable validFragmentsWithType : gmap string GraphQLNamedType.

Local Abbreviation step :=
  (collectStep implementsAbstractType targetSchema validFragments
     validFragmentsWithType).
Local Abbreviation loop :=
  (collectLoop implementsAbstractType targetSchema validFragments
     validFragmentsWithType).
Local Abbreviation filterBody :=
  (filteredBody implementsAbstractType targetSchema validFragmentsWithType).
Local Abbreviation collectedFromFragments :=
  (collectedFromFragments implementsAbstractType targetSchema validFragments
     validFragmentsWithType).
Local Abbreviation definedPlainly := (definedPlainly validFragments).
Local Abbreviation closureInvariant := (closureInvariant validFragments).

Lemma filterSelectionSet_used type sels :
  let r := filterSelectionSet implementsAbstractType targetSchema
             validFragmentsWithType type sels in
  res_usedFragments r = selectionsSpreads (res_selectionSet r) ∧
  sublist (res_usedFragments r) (selectionsSpreads sels).
Proof.
  unfold filterSelectionSet.
  destruct (visitSelections _ _ _ sels _) as [rs st] eqn:Hvisit.
  destruct (visitSelections_used_all _ _ _ _ _ _ _ Hvisit) as (Hused & Hsub & _).
  simpl in *. by rewrite Hused.
Qed.

(** The next fragment of a non-empty worklist and what the step does with
    it. *)
Lemma collectStep_worklist st x rest :
  worklist st = rest ++ [x] →
  worklist (step st) =
  match find (λ fr, bool_decide (Some (fr_name fr) = Some x)) validFragments with
  | Some fragment => union [rest; res_usedFragments (filterBody fragment)]
  | None => rest
  end.
Proof.
  intros Hwl. unfold collectStep. rewrite Hwl, pop_snoc.
  destruct (find _ validFragments) as [fragment|]; [|done].
  by destruct (decide _).
Qed.

Lemma collectStep_weight w st :
  FragmentsRanked w validFragments →
  worklist st ≠ [] →
  spreadsWeight w (worklist (step st)) < spreadsWeight w (worklist st).
Proof.
  intros Hranked Hne.
  destruct (pop_nonempty _ Hne) as (x & rest & Hwl & _).
  rewrite (collectStep_worklist _ _ _ Hwl), Hwl, spreadsWeight_app.
  unfold spreadsWeight at 3. simpl.
  destruct (find _ validFragments) as [fragment|] eqn:Hfind; [|lia].
  apply find_some in Hfind as [Hin Hname].
  apply bool_decide_eq_true in Hname. injection Hname as <-.
  unfold FragmentsRanked in Hranked. rewrite Forall_forall in Hranked.
  specialize (Hranked fragment (proj2 (list_elem_of_In _ _) Hin)).
  destruct (union_spec [rest; res_usedFragments (filterBody fragment)])
    as (Hsub & _ & _).
  apply (spreadsWeight_sublist w) in Hsub. simpl in Hsub.
  rewrite app_nil_r, spreadsWeight_app in Hsub.
  destruct (filterSelectionSet_used
              (Named <$> getType targetSchema (fr_typeCondition fragment))
              (fr_selectionSet fragment)) as [_ Hused].
  apply (spreadsWeight_sublist w) in Hused. fold (filterBody fragment) in Hused.
  lia.
Qed.

Lemma collectLoop_terminates w :
  FragmentsRanked w validFragments →
  ∀ fuel st, spreadsWeight w (worklist st) ≤ fuel → is_Some (loop fuel st).
Proof.
  intros Hranked. induction fuel as [|fuel IH]; intros st Hweight.
  - destruct (worklist st) as [|x l] eqn:Hwl.
    + simpl. rewrite Hwl. eauto.
    + unfold spreadsWeight in Hweight. simpl in Hweight. lia.
  - simpl. destruct (worklist st) as [|x l] eqn:Hwl; [eauto|].
    apply IH. pose proof (collectStep_weight w st Hranked) as Hlt.
    rewrite Hwl in Hlt. specialize (Hlt ltac:(done)). lia.
Qed.

Lemma collectLoop_mono fuel :
  ∀ st r fuel', loop fuel st = Some r → fuel ≤ fuel' → loop fuel' st = Some r.
Proof.
  induction fuel as [|fuel IH]; intros st r fuel' Hrun Hle.
  - simpl in Hrun. destruct (worklist st) eqn:Hwl; [|done].
    destruct fuel'; simpl; by rewrite Hwl.
  - simpl in Hrun. destruct (worklist st) eqn:Hwl.
    + destruct fuel'; simpl; by rewrite Hwl.
    + destruct fuel' as [|fuel']; [lia|]. simpl. rewrite Hwl.
      apply IH; [done | lia].
Qed.

Lemma collectLoop_invariant (I : CollectState → Prop) :
  (∀ st, worklist st ≠ [] → I st → I (step st)) →
  ∀ fuel st r, I st → loop fuel st = Some r → I r ∧ worklist r = [].
Proof.
  intros Hstep. induction fuel as [|fuel IH]; intros st r Hst Hrun;
    simpl in Hrun.
  - destruct (worklist st) eqn:Hwl; [|done]. by inversion Hrun; subst.
  - destruct (worklist st) eqn:Hwl; [by inversion Hrun; subst|].
    apply (IH (step st)); [|done]. apply Hstep; [by rewrite Hwl | done].
Qed.

(** What the step does to the collected variables and fragments. *)
Lemma collectStep_collected st x rest :
  worklist st = rest ++ [x] →
  match find (λ fr, bool_decide (Some (fr_name fr) = Some x)) validFragments with
  | Some fragment =>
      fragment ∈ validFragments ∧ fr_name fragment = x ∧
      collectedVariables (step st) =
        union [collectedVariables st; res_usedVariables (filterBody fragment)] ∧
      (collectedFragments (step st) = collectedFragments st ∨
       collectedFragments (step st) =
         collectedFragments st ++
           [mkFragment (fr_name fragment) (fr_typeCondition fragment) []
              (res_selectionSet (filterBody fragment))])
  | None =>
      collectedVariables (step st) = collectedVariables st ∧
      collectedFragments (step st) = collectedFragments st
  end.
Proof.
  intros Hwl. unfold collectStep. rewrite Hwl, pop_snoc.
  destruct (find _ validFragments) as [fragment|] eqn:Hfind; [|done].
  apply find_some in Hfind as [Hin Hname].
  apply bool_decide_eq_true in Hname. injection Hname as Hname.
  apply list_elem_of_In in Hin.
  destruct (decide _); simpl; split_and!; auto.
Qed.

Lemma collectStep_fromFragments st :
  worklist st ≠ [] → collectedFromFragments st → collectedFromFragments (step st).
Proof.
  intros Hne [Hvars Hfrags].
  destruct (pop_nonempty _ Hne) as (x & rest & Hwl & _).
  pose proof (collectStep_collected st x rest Hwl) as Hstep.
  destruct (find _ validFragments) as [fragment|].
  - destruct Hstep as (Hin & Hname & Hv & Hf). split.
    + intros y Hy. rewrite Hv in Hy.
      apply union_elim in Hy as [Hy _]. simpl in Hy.
      rewrite app_nil_r in Hy. apply elem_of_app in Hy as [Hy|Hy]; eauto.
    + intros f' Hf'. destruct Hf as [Hf|Hf]; rewrite Hf in Hf'; [eauto|].
      apply elem_of_app in Hf' as [Hf'|Hf']; [eauto|].
      apply list_elem_of_singleton in Hf'. eauto.
  - destruct Hstep as [Hv Hf]. split.
    + intros y Hy. rewrite Hv in Hy. eauto.
    + intros f' Hf'. rewrite Hf in Hf'. eauto.
Qed.

Lemma collectFragmentVariables_fromFragments fuel fragmentSet usedFragments r :
  collectFragmentVariables implementsAbstractType targetSchema validFragments
    validFragmentsWithType fuel fragmentSet usedFragments = Some r →
  collectedFromFragments r.
Proof.
  unfold collectFragmentVariables. intros Hrun.
  refine (proj1 (collectLoop_invariant collectedFromFragments
                   collectStep_fromFragments fuel _ r _ Hrun)).
  split; intros ? Hin; by apply elem_of_nil in Hin.
Qed.

(** *** What the loop has emitted when it ends *)

Lemma filterSelectionSet_known type sels :
  Forall (λ name, is_Some (validFragmentsWithType !! name))
    (res_usedFragments
       (filterSelectionSet implementsAbstractType targetSchema
          validFragmentsWithType type sels)).
Proof.
  unfold filterSelectionSet.
  destruct (visitSelections _ _ _ sels _) as [rs st] eqn:Hvisit.
  destruct (visitSelections_used_all _ _ _ _ _ _ _ Hvisit) as (Hused & _ & Hknown).
  simpl in *. by rewrite Hused.
Qed.

Lemma find_by_name name :
  (∃ f, f ∈ validFragments ∧ fr_name f = name) →
  ∃ f, find (λ fr, bool_decide (Some (fr_name fr) = Some name)) validFragments
         = Some f ∧
       fr_name f = name ∧ f ∈ validFragments.
Proof.
  intros (f & Hf & Hname).
  destruct (find _ validFragments) as [g|] eqn:Hfind.
  - apply find_some in Hfind as [Hin Hg]. apply bool_decide_eq_true in Hg.
    injection Hg as Hg. exists g. by rewrite list_elem_of_In.
  - apply list_elem_of_In in Hf.
    pose proof (find_none _ _ Hfind f Hf) as Hnone. simpl in Hnone.
    apply bool_decide_eq_false in Hnone. by rewrite Hname in Hnone.
Qed.

Lemma collectStep_found st x rest f :
  worklist st = rest ++ [x] →
  find (λ fr, bool_decide (Some (fr_name fr) = Some x)) validFragments = Some f →
  if decide (fr_name f ∈ fragmentSet st) then
    collectedFragments (step st) = collectedFragments st ∧
    fragmentSet (step st) = fragmentSet st
  else
    collectedFragments (step st) =
      collectedFragments st ++
        [mkFragment (fr_name f) (fr_typeCondition f) []
           (res_selectionSet (filterBody f))] ∧
    fragmentSet (step st) = {[fr_name f]} ∪ fragmentSet st.
Proof.
  intros Hwl Hfind. unfold collectStep. rewrite Hwl, pop_snoc, Hfind.
  by destruct (decide _).
Qed.

Lemma collectStep_closure names st :
  (∀ f n, f ∈ validFragments → n ∈ res_usedFragments (filterBody f) →
          definedPlainly n) →
  worklist st ≠ [] →
  closureInvariant names st → closureInvariant names (step st).
Proof.
  intros Hbody Hne (Hset & Hknown & Hnames & Hbodies).
  destruct (pop_nonempty _ Hne) as (x & rest & Hwl & _).
  destruct (find_by_name x) as (f & Hfind & Hname & Hf).
  { apply Hknown. rewrite Hwl. apply elem_of_app. right.
    by apply list_elem_of_singleton. }
  pose proof (filterSelectionSet_used
                (Named <$> getType targetSchema (fr_typeCondition f))
                (fr_selectionSet f)) as [Hspreads _].
  fold (filterBody f) in Hspreads.
  assert (Hwl' : ∀ n, n ∈ worklist (step st) ↔
                      n ∈ rest ∨ n ∈ res_usedFragments (filterBody f)).
  { intros n. rewrite (collectStep_worklist _ _ _ Hwl), Hfind.
    rewrite (proj2 (proj2 (union_spec _))). simpl.
    rewrite app_nil_r, elem_of_app. split; [tauto|]. intros Hn.
    split; [done|]. destruct Hn as [Hn|Hn]; [|by apply (Hbody f n Hf Hn)].
    apply Hknown. rewrite Hwl. apply elem_of_app. by left. }
  assert (Hold : ∀ n, n ∈ worklist st ∨ n ∈ emittedNames st →
                      n ∈ worklist (step st) ∨ n = x ∨ n ∈ emittedNames st).
  { intros n [Hn|Hn]; [|tauto]. rewrite Hwl in Hn.
    apply elem_of_app in Hn as [Hn|Hn].
    - left. apply Hwl'. tauto.
    - apply list_elem_of_singleton in Hn. tauto. }
  assert (Hknown' : ∀ n, n ∈ worklist (step st) → definedPlainly n).
  { intros n Hn. apply Hwl' in Hn as [Hn|Hn]; [|by apply (Hbody f n Hf Hn)].
    apply Hknown. rewrite Hwl. apply elem_of_app. by left. }
  pose proof (collectStep_found st x rest f Hwl Hfind) as Hstep.
  rewrite Hname in Hstep. unfold closureInvariant, emittedNames in *.
  destruct (decide (x ∈ fragmentSet st)) as [Hin|Hnot];
    destruct Hstep as [-> ->].
  - split_and!; [done | done | |].
    + intros n Hn. destruct (Hold n (Hnames n Hn)) as [?|[->|?]]; auto.
      right. by apply Hset.
    + intros f' n Hf' Hn.
      destruct (Hold n (Hbodies f' n Hf' Hn)) as [?|[->|?]]; auto.
      right. by apply Hset.
  - split_and!; [| done | |].
    + intros n. rewrite map_app, elem_of_union, elem_of_singleton, elem_of_app.
      simpl. rewrite list_elem_of_singleton, Hset. tauto.
    + intros n Hn. rewrite map_app, elem_of_app. simpl.
      rewrite list_elem_of_singleton.
      destruct (Hold n (Hnames n Hn)) as [?|[->|?]]; auto.
    + intros f' n Hf' Hn. rewrite map_app, elem_of_app. simpl.
      rewrite list_elem_of_singleton.
      apply elem_of_app in Hf' as [Hf'|Hf'].
      * destruct (Hold n (Hbodies f' n Hf' Hn)) as [?|[->|?]]; auto.
      * apply list_elem_of_singleton in Hf'. subst f'. simpl in Hn.
        left. apply Hwl'. right. by rewrite Hspreads.
Qed.

Lemma collectFragmentVariables_closed fuel usedFragments r :
  (∀ f n, f ∈ validFragments → n ∈ res_usedFragments (filterBody f) →
          definedPlainly n) →
  (∀ n, n ∈ usedFragments → definedPlainly n) →
  collectFragmentVariables implementsAbstractType targetSchema validFragments
    validFragmentsWithType fuel ∅ usedFragments = Some r →
  (∀ n, n ∈ usedFragments → n ∈ emittedNames r) ∧
  (∀ f' n, f' ∈ collectedFragments r →
           n ∈ selectionsSpreads (fr_selectionSet f') → n ∈ emittedNames r).
Proof.
  unfold collectFragmentVariables. intros Hbody Hknown Hrun.
  assert (Hinit : closureInvariant usedFragments
                    (mkCollect usedFragments true usedFragments [] [] ∅)).
  { unfold closureInvariant, emittedNames. simpl. split_and!.
    - intros n. by rewrite elem_of_nil, elem_of_empty.
    - done.
    - auto.
    - intros f' n Hf'. by apply elem_of_nil in Hf'. }
  destruct (collectLoop_invariant (closureInvariant usedFragments)
              (λ st Hne, collectStep_closure usedFragments st Hbody Hne)
              fuel _ r Hinit Hrun) as [(_ & _ & Hnames & Hbodies) Hempty].
  rewrite Hempty in Hnames, Hbodies. split.
  - intros n Hn. destruct (Hnames n Hn) as [Hnil|?]; [|done].
    by apply elem_of_nil in Hnil.
  - intros f' n Hf' Hn. destruct (Hbodies f' n Hf' Hn) as [Hnil|?]; [|done].
    by apply elem_of_nil in Hnil.
Qed.

Lemma filterOperation_terminates w st operation :
  FragmentsRanked w validFragments →
  ∃ fuel st', ∀ fuel', fuel ≤ fuel' →
    filterOperation implementsAbstractType targetSchema validFragments
      validFragmentsWithType fuel' st operation = Some st'.
Proof.
  intros Hranked. unfold filterOperation, collectFragmentVariables.
  set (init := mkCollect _ true _ [] [] _).
  destruct (collectLoop_terminates w Hranked (spreadsWeight w (worklist init)) init)
    as [collected Hrun]; [done|].
  exists (spreadsWeight w (worklist init)). eexists. intros fuel' Hle.
  rewrite (collectLoop_mono _ _ _ _ Hrun Hle). simpl. reflexivity.
Qed.

Lemma filterOperations_terminate w operations :
  FragmentsRanked w validFragments →
  ∀ st, ∃ fuel st', ∀ fuel', fuel ≤ fuel' →
    filterOperations implementsAbstractType targetSchema validFragments
      validFragmentsWithType fuel' st operations = Some st'.
Proof.
  intros Hranked. induction operations as [|operation rest IH]; intros st.
  - exists 0, st. done.
  - destruct (filterOperation_terminates w st operation Hranked)
      as (fuel1 & st1 & Hop).
    destruct (IH st1) as (fuel2 & st2 & Hrest).
    exists (fuel1 `max` fuel2), st2. intros fuel' Hle. simpl.
    rewrite (Hop fuel') by lia. simpl. apply Hrest. lia.
Qed.

End Closure.

(** On a document whose (valid) fragment definitions are ranked, the
    transform returns, and more fuel does not change what it returns. *)
Lemma filterDocumentToSchema_terminates impl w schema doc :
  FragmentsRanked w (validFragmentsOf schema (fragmentsOf doc)) →
  ∃ fuel out, ∀ fuel', fuel ≤ fuel' →
    filterDocumentToSchema impl fuel' schema doc = Some out.
Proof.
  intros Hranked. unfold filterDocumentToSchema.
  destruct (filterOperations_terminate impl schema _
              (validFragmentsWithTypeOf schema
                 (validFragmentsOf schema (fragmentsOf doc)))
              w (operationsOf doc) Hranked (mkDocState [] [] [] ∅))
    as (fuel & st & Hrun).
  exists fuel. eexists. intros fuel' Hle. rewrite (Hrun fuel' Hle). simpl.
  reflexivity.
Qed.

(** ** Operations are never dropped; the request keeps its other fields *)

(** C7: every operation of the input has its operation in the output, in
    the same position, whether or not anything is left of its root
    selection set: whenever the transform returns, the operations of the
    output are those emitted for the operations of the input, one for one;
    and it does return on every document whose fragment definitions are
    ranked (do not reach themselves). *)
Theorem operations_always_emitted :
  ∀ impl schema doc,
    (∀ fuel out,
       filterDocumentToSchema impl fuel schema doc = Some out →
       Forall2 (emittedFor impl schema
                  (validFragmentsWithTypeOf schema
                     (validFragmentsOf schema (fragmentsOf doc))))
               (operationsOf doc) (operationsOf out)) ∧
    (∀ w, FragmentsRanked w (validFragmentsOf schema (fragmentsOf doc)) →
          ∃ fuel out, filterDocumentToSchema impl fuel schema doc = Some out).
Proof.
  intros impl schema doc. split.
  - intros fuel out. apply filterDocumentToSchema_operations.
  - intros w Hranked.
    destruct (filterDocumentToSchema_terminates impl w schema doc Hranked)
      as (fuel & out & Hrun).
    exists fuel, out. by apply Hrun.
Qed.

Lemma operations_always_emitted_witness :
  ∃ out,
    filterDocumentToSchema implementsOrEquals 0 Booking.bookingSchema
      unknownFieldsDocument = Some out ∧
    Forall2 (emittedFor implementsOrEquals Booking.bookingSchema
               (validFragmentsWithTypeOf Booking.bookingSchema []))
      (operationsOf unknownFieldsDocument) (operationsOf out) ∧
    map op_selectionSet (operationsOf out) = [[]; []].
Proof.
  eexists. split; [vm_compute; reflexivity|]. split; [|vm_compute; reflexivity].
  apply (proj1 (operations_always_emitted implementsOrEquals
                  Booking.bookingSchema unknownFieldsDocument) 0).
  vm_compute. reflexivity.
Defined.

(** C9: [transformRequest] replaces the document and nothing else: the
    variables and the extensions of the request it returns are those of the
    request it was given, and its document is the filtered document; and it
    does return on every request whose fragment definitions are ranked. *)
Theorem transformRequest_frame :
  ∀ impl schema originalRequest,
    (∀ fuel request',
       transformRequest impl fuel schema originalRequest = Some request' →
       variables request' = variables originalRequest ∧
       extensions request' = extensions originalRequest ∧
       filterDocumentToSchema impl fuel schema (document originalRequest)
         = Some (document request')) ∧
    (∀ w, FragmentsRanked w
            (validFragmentsOf schema (fragmentsOf (document originalRequest))) →
          ∃ fuel request',
            transformRequest impl fuel schema originalRequest = Some request').
Proof.
  intros impl schema originalRequest. split.
  - intros fuel request' Hrun. unfold transformRequest in Hrun.
    destruct (filterDocumentToSchema impl fuel schema (document originalRequest))
      as [document'|]; [|done].
    simpl in Hrun. by inversion Hrun; subst.
  - intros w Hranked.
    destruct (filterDocumentToSchema_terminates impl w schema
                (document originalRequest) Hranked) as (fuel & out & Hrun).
    exists fuel. eexists. unfold transformRequest.
    rewrite (Hrun fuel (le_n fuel)). reflexivity.
Qed.

Lemma transformRequest_frame_witness :
  ∃ request',
    transformRequest implementsOrEquals 0 Booking.bookingSchema customerRequest
      = Some request' ∧
    variables request' = variables customerRequest ∧
    extensions request' = extensions customerRequest.
Proof.
  eexists. split; [vm_compute; reflexivity|].
  split; eapply (proj1 (transformRequest_frame implementsOrEquals
                          Booking.bookingSchema customerRequest) 0);
    vm_compute; reflexivity.
Defined.

(** ** Where the code departs from the specification *)

(** *** C2: a fragment that spreads itself *)

(** A state that a step maps to a state with the same non-empty worklist
    and from which the same holds again is never left. *)
Lemma collectLoop_stuck impl schema validFragments vfwt st :
  worklist st ≠ [] →
  collectStep impl schema validFragments vfwt st = st →
  ∀ fuel, collectLoop impl schema validFragments vfwt fuel st = None.
Proof.
  intros Hne Hfix. induction fuel as [|fuel IH]; simpl.
  - by destruct (worklist st).
  - destruct (worklist st); [done|]. by rewrite Hfix.
Qed.

(** A selection set that ends with a spread of a valid fragment which the
    type-compatibility check accepts: the spread is kept and recorded. *)
Lemma filterSelectionSet_snoc_spread impl schema vfwt type sels name directives
    rs st1 innerType :
  visitSelections impl schema vfwt sels (mkState [type] [] []) = (rs, st1) →
  vfwt !! name = Some innerType →
  impl schema (resolveType (topOf st1)) (Some innerType) = true →
  filterSelectionSet impl schema vfwt type
    (sels ++ [FragmentSpreadNode name directives]) =
  mkFilterResult (rs ++ [FragmentSpreadNode name directives])
    (usedFragments st1 ++ [name])
    (usedVariables st1 ++ directivesVariables directives).
Proof.
  intros Hsels Hname Himpl. unfold filterSelectionSet.
  rewrite visitSelections_app, Hsels, visitSelections_cons_eq,
    visitSelection_spread_eq, Hname, Himpl.
  reflexivity.
Qed.

(** An iteration of the loop that finds the fragment it pops. *)
Lemma collectStep_run impl schema validFragments vfwt st x rest f r :
  worklist st = rest ++ [x] →
  find (λ fr, bool_decide (Some (fr_name fr) = Some x)) validFragments = Some f →
  filteredBody impl schema vfwt f = r →
  collectStep impl schema validFragments vfwt st =
  mkCollect (if aliased st then rest else callerArray st) false
    (union [rest; res_usedFragments r])
    (union [collectedVariables st; res_usedVariables r])
    (if decide (fr_name f ∈ fragmentSet st) then collectedFragments st
     else collectedFragments st ++
            [mkFragment (fr_name f) (fr_typeCondition f) [] (res_selectionSet r)])
    (if decide (fr_name f ∈ fragmentSet st) then fragmentSet st
     else {[fr_name f]} ∪ fragmentSet st).
Proof.
  intros Hwl Hfind <-. unfold collectStep, filteredBody.
  rewrite Hwl, pop_snoc, Hfind. by destruct (decide _).
Qed.

(** C2 (the code diverges from the claim): on a document whose fragment [A]
    spreads itself the loop of [collectFragmentVariables] never reaches an
    empty worklist; whatever the number of iterations allowed, the
    transform has not returned.  Names already emitted are skipped when
    emitting, not when filling the worklist.  All that is asked of
    [implementsAbstractType] is that it accepts the type [Query] under
    itself. *)
Theorem collectFragmentVariables_diverges_on_cycle :
  ∀ impl,
    impl Booking.bookingSchema (Some Booking.Query) (Some Booking.Query) = true →
    ∀ fuel,
      filterDocumentToSchema impl fuel Booking.bookingSchema
        selfSpreadingDocument = None.
Proof.
  intros impl Himpl fuel.
  set (fragmentA := mkFragment "A" "Query" []
                      [Booking.leaf "version"; FragmentSpreadNode "A" []]).
  set (vfwt := validFragmentsWithTypeOf Booking.bookingSchema [fragmentA]).
  assert (Hop : filterSelectionSet impl Booking.bookingSchema vfwt
                  (Some (Named Booking.Query)) [FragmentSpreadNode "A" []] =
                mkFilterResult [FragmentSpreadNode "A" []] ["A"] []).
  { apply (filterSelectionSet_snoc_spread impl Booking.bookingSchema vfwt
             (Some (Named Booking.Query)) [] "A" [] []
             (mkState [Some (Named Booking.Query)] [] []) Booking.Query);
      [reflexivity | vm_compute; reflexivity | exact Himpl]. }
  assert (Hbody : filteredBody impl Booking.bookingSchema vfwt fragmentA =
                  mkFilterResult
                    [Booking.leaf "version"; FragmentSpreadNode "A" []] ["A"] []).
  { apply (filterSelectionSet_snoc_spread impl Booking.bookingSchema vfwt
             (Some (Named Booking.Query)) [Booking.leaf "version"] "A" []
             [Booking.leaf "version"]
             (mkState [Some (Named Booking.Query)] [] []) Booking.Query);
      [vm_compute; reflexivity | vm_compute; reflexivity | exact Himpl]. }
  set (step := collectStep impl Booking.bookingSchema [fragmentA] vfwt).
  set (start := mkCollect ["A"] true ["A"] [] [] ∅).
  set (again := mkCollect [] false ["A"] []
                  [mkFragment "A" "Query" []
                     [Booking.leaf "version"; FragmentSpreadNode "A" []]]
                  {["A"]}).
  assert (Hfirst : step start = again).
  { unfold step.
    rewrite (collectStep_run impl Booking.bookingSchema [fragmentA] vfwt
               start "A" [] fragmentA _
               ltac:(reflexivity) ltac:(vm_compute; reflexivity) Hbody).
    vm_compute. reflexivity. }
  assert (Hagain : step again = again).
  { unfold step.
    rewrite (collectStep_run impl Booking.bookingSchema [fragmentA] vfwt
               again "A" [] fragmentA _
               ltac:(reflexivity) ltac:(vm_compute; reflexivity) Hbody).
    vm_compute. reflexivity. }
  assert (Hstart : collectLoop impl Booking.bookingSchema [fragmentA] vfwt
                     fuel start = None).
  { destruct fuel as [|fuel]; [reflexivity|].
    cbn [collectLoop worklist start]. fold step. rewrite Hfirst.
    by apply collectLoop_stuck. }
  unfold filterDocumentToSchema.
  change (validFragmentsOf Booking.bookingSchema (fragmentsOf selfSpreadingDocument))
    with [fragmentA].
  fold vfwt.
  change (operationsOf selfSpreadingDocument)
    with [mkOperation query None [] [] [FragmentSpreadNode "A" []]].
  cbn [filterOperations]. unfold filterOperation, collectFragmentVariables.
  cbn [op_selectionSet op_operation].
  change (Named <$> rootType Booking.bookingSchema query)
    with (Some (Named Booking.Query)).
  rewrite Hop.
  replace (union _) with ["A"] by (vm_compute; reflexivity).
  change (doc_fragmentSet _) with (∅ : gset string).
  fold start. by rewrite Hstart.
Qed.

Lemma collectFragmentVariables_diverges_on_cycle_witness :
  implementsOrEquals Booking.bookingSchema (Some Booking.Query)
    (Some Booking.Query) = true ∧
  ∀ fuel,
    filterDocumentToSchema implementsOrEquals fuel Booking.bookingSchema
      selfSpreadingDocument = None.
Proof.
  split; [vm_compute; reflexivity|].
  apply (collectFragmentVariables_diverges_on_cycle implementsOrEquals).
  vm_compute. reflexivity.
Defined.

(** *** C1: a fragment used by two operations *)

(** C1 (the code diverges from the claim): both operations of the document
    spread the fragment [A], which the document defines; the filtered
    document still spreads [A] in both operations and defines no fragment.
    The fragments collected for one operation replace those collected for
    the operations before it, while the set of names already emitted is
    kept.  All that is asked of [implementsAbstractType] is that it accepts
    the type [Query] under itself. *)
Theorem filtered_document_spreads_undefined_fragment :
  ∀ impl,
    impl Booking.bookingSchema (Some Booking.Query) (Some Booking.Query) = true →
    danglingSpreads sharedFragmentDocument = [] ∧
    ∃ out,
      filterDocumentToSchema impl 2 Booking.bookingSchema
        sharedFragmentDocument = Some out ∧
      fragmentsOf out = [] ∧
      danglingSpreads out = ["A"; "A"].
Proof.
  intros impl Himpl. split; [vm_compute; reflexivity|].
  exists (mkDocument
            [OperationDefinition
               (mkOperation query (Some "first") [] [] [FragmentSpreadNode "A" []]);
             OperationDefinition
               (mkOperation query (Some "second") [] []
                  [FragmentSpreadNode "A" []])]).
  split; [|split; vm_compute; reflexivity].
  set (vfwt := validFragmentsWithTypeOf Booking.bookingSchema
         (validFragmentsOf Booking.bookingSchema (fragmentsOf sharedFragmentDocument))).
  assert (Hop : filterSelectionSet impl Booking.bookingSchema vfwt
                  (Some (Named Booking.Query)) [FragmentSpreadNode "A" []] =
                mkFilterResult [FragmentSpreadNode "A" []] ["A"] []).
  { apply (filterSelectionSet_snoc_spread impl Booking.bookingSchema vfwt
             (Some (Named Booking.Query)) [] "A" [] []
             (mkState [Some (Named Booking.Query)] [] []) Booking.Query);
      [reflexivity | vm_compute; reflexivity | exact Himpl]. }
  unfold filterDocumentToSchema. fold vfwt.
  change (operationsOf sharedFragmentDocument)
    with [mkOperation query (Some "first") [] [] [FragmentSpreadNode "A" []];
          mkOperation query (Some "second") [] [] [FragmentSpreadNode "A" []]].
  cbn [filterOperations]. unfold filterOperation.
  cbn [op_selectionSet op_operation].
  change (Named <$> rootType Booking.bookingSchema query)
    with (Some (Named Booking.Query)).
  rewrite !Hop.
  vm_compute. reflexivity.
Qed.

Lemma filtered_document_spreads_undefined_fragment_witness :
  implementsOrEquals Booking.bookingSchema (Some Booking.Query)
    (Some Booking.Query) = true ∧
  ∃ out,
    filterDocumentToSchema implementsOrEquals 2 Booking.bookingSchema
      sharedFragmentDocument = Some out ∧
    fragmentsOf out = [] ∧
    danglingSpreads out = ["A"; "A"].
Proof.
  split; [vm_compute; reflexivity|].
  apply (filtered_document_spreads_undefined_fragment implementsOrEquals).
  vm_compute. reflexivity.
Defined.

(** *** C5: fields under a parent that is neither Object nor Interface *)

(** C5 (the code diverges from the claim): a kept field whose parent type
    is a scalar ([major] under [version : String]) or a Union ([wheels]
    under [vehicle : Vehicle]) pushes nothing on [enter] and still pops on
    [leave].  Back at the root after the traversal the stack is empty where
    it held the root type before, and a following field that the root type
    does not declare ([bogus]) is no longer excised.  No fragment is
    involved, so this holds whatever [implementsAbstractType] is. *)
Theorem type_stack_unbalanced_under_leaf_parent :
  ∀ impl,
    typeStack (snd (visitSelections impl Booking.bookingSchema ∅
                      [FieldNode None "version" [] []
                         (Some [Booking.leaf "major"])]
                      (rootState Booking.Query))) = [] ∧
    typeStack (snd (visitSelections impl Booking.bookingSchema ∅
                      [FieldNode None "vehicle" [] []
                         (Some [Booking.leaf "wheels"])]
                      (rootState Booking.Customer))) = [] ∧
    res_selectionSet
      (filterSelectionSet impl Booking.bookingSchema ∅
         (Some (Named Booking.Query))
         [FieldNode None "version" [] [] (Some [Booking.leaf "major"]);
          Booking.leaf "bogus"]) =
    [FieldNode None "version" [] [] (Some [Booking.leaf "major"]);
     Booking.leaf "bogus"] ∧
    res_selectionSet
      (filterSelectionSet impl Booking.bookingSchema ∅
         (Some (Named Booking.Query)) [Booking.leaf "bogus"]) = [].
Proof. intros impl. repeat split; vm_compute; reflexivity. Qed.

(** ** Empty selections are pruned, and their variables with them *)




(** ** Documents that are already valid *)

Section ValidIdentity.

Variable implementsAbstractType :
  GraphQLSchema → option GraphQLNamedType → option GraphQLNamedType → bool.
Variable schema : GraphQLSchema.
Variable validFragments : gmap string GraphQLNamedType.

Local Abbreviation visitNode :=
  (visitSelection implementsAbstractType schema validFragments).
Local Abbreviation visitList :=
  (visitSelections implementsAbstractType schema validFragments).
Local Abbreviation valid :=
  (validSelection implementsAbstractType schema validFragments).
Local Abbreviation KeptWhole :=
  (KeptWhole implementsAbstractType schema validFragments).

Lemma afterKept_nil st : afterKept st [] [] = st.
Proof. destruct st. unfold afterKept. simpl. by rewrite !app_nil_r. Qed.

Lemma visitSelections_kept_whole sels :
  Forall KeptWhole sels →
  ∀ st, forallb (valid (topOf st)) sels = true →
    forallb typeConditioned sels = true →
    visitList sels st =
    (sels, afterKept st (selectionsSpreads sels) (selectionsVariables sels)).
Proof.
  induction 1 as [|s sels Hs _ IH]; intros st Hvalid Hcond.
  - simpl. unfold ret. by rewrite afterKept_nil.
  - simpl in Hvalid, Hcond.
    apply andb_true_iff in Hvalid as [Hv Hvs].
    apply andb_true_iff in Hcond as [Hc Hcs].
    rewrite visitSelections_cons_eq. rewrite (Hs st Hv Hc).
    rewrite IH; [|done|done].
    unfold afterKept, selectionsSpreads, selectionsVariables. simpl.
    by rewrite !app_assoc.
Qed.

Lemma filterArguments_valid argNames arguments :
  forallb (λ a, bool_decide (arg_name a ∈ argNames)) arguments = true →
  filterArguments argNames arguments = arguments.
Proof.
  unfold filterArguments. induction arguments as [|a args IH]; [done|].
  simpl. intros Hall. apply andb_true_iff in Hall as [Ha Hargs].
  apply bool_decide_eq_true in Ha. rewrite filter_cons.
  destruct (decide _); [by rewrite IH | done].
Qed.

Lemma isComposite_false_not_object t :
  isComposite t = false → isObjectOrInterface t = false.
Proof. unfold isComposite. by destruct (isObjectOrInterface t). Qed.

Lemma visit_field_kept_whole alias name arguments directives selectionSet :
  (∀ sels, selectionSet = Some sels → Forall KeptWhole sels) →
  KeptWhole (FieldNode alias name arguments directives selectionSet).
Proof.
  intros Hall st Hvalid Hcond. simpl in Hvalid.
  rewrite visitSelection_field_cases.
  rewrite selectionSpreads_field_default, selectionVariables_field.
  destruct (isObjectOrInterface (resolveType (topOf st))) eqn:Hparent.
  - destruct (fieldOn schema _ name) as [[fieldType argNames]|]; [|done].
    apply andb_true_iff in Hvalid as [Hargs Hsub].
    cbv zeta. rewrite (filterArguments_valid _ _ Hargs).
    unfold visitFieldChildren, leaveField.
    destruct (isComposite (resolveType fieldType)) eqn:Hcomposite.
    + destruct selectionSet as [[|s sels]|]; try done.
      rewrite (visitSelections_kept_whole (s :: sels) (Hall _ eq_refl));
        [| by rewrite topOf_withVariables, topOf_pushed | done].
      rewrite andb_false_r. f_equal.
      unfold afterKept, popped, withVariables, pushed. simpl.
      by rewrite removelast_last, !app_assoc.
    + destruct selectionSet as [sels|]; [done|].
      rewrite topOf_withVariables, topOf_pushed.
      rewrite (isComposite_false_not_object _ Hcomposite). simpl. f_equal.
      unfold afterKept, popped, withVariables, pushed. simpl.
      by rewrite removelast_last, !app_nil_r, !app_assoc.
  - apply andb_true_iff in Hvalid as [Hunion Hshape].
    destruct arguments; [|done]. destruct selectionSet; [done|].
    unfold enteredElsewhere. rewrite Hunion.
    unfold visitFieldChildren, leaveField.
    rewrite topOf_withVariables, topOf_pushed. simpl. f_equal.
    unfold afterKept, popped, withVariables, pushed. simpl.
    by rewrite removelast_last, !app_nil_r.
Qed.

Lemma visit_kept_whole node : KeptWhole node.
Proof.
  induction node as [alias name args dirs | alias name args dirs sels IH
                     | name dirs | cond dirs sels IH]
    using SelectionNode_nested_ind.
  - apply visit_field_kept_whole. by intros sels.
  - apply visit_field_kept_whole. by intros ? [= <-].
  - intros st Hvalid _. simpl in Hvalid.
    rewrite visitSelection_spread_eq.
    destruct (validFragments !! name); [|done]. rewrite Hvalid. done.
  - intros st Hvalid Hcond. simpl in Hvalid, Hcond.
    apply andb_true_iff in Hcond as [Hsome Hconds].
    apply bool_decide_eq_true in Hsome as [c ->].
    destruct (getType schema c) as [innerType|] eqn:Htype; [|done].
    apply andb_true_iff in Hvalid as [Himpl Hbody].
    rewrite visitSelection_inline_eq, InlineFragment_enter_eq, Htype, Himpl.
    rewrite (visitSelections_kept_whole sels IH);
      [| by rewrite topOf_withVariables, topOf_pushed | done].
    rewrite selectionSpreads_inline, selectionVariables_inline. f_equal.
    unfold afterKept, popped, withVariables, pushed. simpl.
    by rewrite removelast_last, !app_assoc.
Qed.

(** A valid selection set in which every inline fragment carries a type
    condition is returned as it is, with all its spreads and variables
    recorded as used. *)
Lemma filterSelectionSet_valid type sels :
  forallb (valid type) sels = true →
  forallb typeConditioned sels = true →
  filterSelectionSet implementsAbstractType schema validFragments type sels =
  mkFilterResult sels (selectionsSpreads sels) (selectionsVariables sels).
Proof.
  intros Hvalid Hcond. unfold filterSelectionSet.
  pose proof (visitSelections_kept_whole sels
                (proj2 (Forall_forall _ _) (λ s _, visit_kept_whole s))
                (mkState [type] [] []) Hvalid Hcond) as Hrun.
  by rewrite Hrun.
Qed.

End ValidIdentity.

(** The fragments the transform emits are valid fragments with their
    bodies filtered. *)
Lemma filterOperations_fragments impl schema validFragments vfwt fuel operations :
  ∀ st st',
    filterOperations impl schema validFragments vfwt fuel st operations = Some st' →
    (∀ f', f' ∈ newFragments st →
           ∃ f, f ∈ validFragments ∧
                f' = mkFragment (fr_name f) (fr_typeCondition f) []
                       (res_selectionSet (filteredBody impl schema vfwt f))) →
    ∀ f', f' ∈ newFragments st' →
          ∃ f, f ∈ validFragments ∧
               f' = mkFragment (fr_name f) (fr_typeCondition f) []
                      (res_selectionSet (filteredBody impl schema vfwt f)).
Proof.
  induction operations as [|operation rest IH]; intros st st' Hops Hst;
    simpl in Hops.
  - by inversion Hops; subst.
  - destruct (filterOperation _ _ _ _ _ st operation) as [st1|] eqn:Hop; [|done].
    simpl in Hops. apply (IH _ _ Hops). clear Hops IH.
    unfold filterOperation in Hop.
    destruct (collectFragmentVariables _ _ _ _ _ _ _) as [collected|] eqn:Hcollect;
      [|done].
    simpl in Hop. inversion Hop; subst; clear Hop. cbn [newFragments].
    by destruct (collectFragmentVariables_fromFragments _ _ _ _ _ _ _ _ Hcollect).
Qed.


Lemma validFragmentsOf_all schema fragments :
  forallb (λ f, bool_decide (is_Some (getType schema (fr_typeCondition f))))
          fragments = true →
  validFragmentsOf schema fragments = fragments.
Proof.
  intros Hall. apply filter_all. apply Forall_forall. intros f Hf.
  rewrite forallb_forall in Hall.
  specialize (Hall f (proj1 (list_elem_of_In _ _) Hf)).
  by apply bool_decide_eq_true in Hall.
Qed.

(** ** Filtering a valid document *)

(** C4 as stated fails: the query of the repository's own test is valid
    against its schema and meets every other condition of the amended
    statement, and the filtered document lists the fragment definitions in
    another order ([PostOwner] before [Post]), so it does not print as the
    input does. *)
Lemma valid_document_printed_differently :
  validDocument implementsOrEquals Blog.schema Blog.getPostById = true ∧
  documentTypeConditioned Blog.getPostById = true ∧
  documentNamesPlain Blog.getPostById = true ∧
  declaredVariablesUsed Blog.getPostById = true ∧
  ∃ out,
    filterDocumentToSchema implementsOrEquals 3 Blog.schema Blog.getPostById
      = Some out ∧
    map definitionName (definitions Blog.getPostById)
      = ["getPostById"; "Post"; "PostOwner"] ∧
    map definitionName (definitions out)
      = ["getPostById"; "PostOwner"; "Post"] ∧
    out ≠ Blog.getPostById.
Proof.
  split; [vm_compute; reflexivity|].
  split; [vm_compute; reflexivity|].
  split; [vm_compute; reflexivity|].
  split; [vm_compute; reflexivity|].
  eexists. split; [vm_compute; reflexivity|].
  split; [vm_compute; reflexivity|].
  split; [vm_compute; reflexivity|].
  intros Heq. apply (f_equal (λ d, map definitionName (definitions d))) in Heq.
  vm_compute in Heq. discriminate.
Qed.


(** ** Documents with a single operation *)

Lemma lookup_inheritedAs properties name t :
  inheritedAs properties !! name = Some t → name ∈ properties.
Proof.
  unfold inheritedAs. intros Hlook. apply elem_of_list_to_map_2 in Hlook.
  apply list_elem_of_fmap in Hlook as (k & Heq & Hk). by injection Heq as -> _.
Qed.

(** Without a fragment named [__proto__] the object keeps
    [Object.prototype] as its prototype: what [in] finds is an own
    property, set for a fragment definition, or a key of
    [Object.prototype]. *)
Lemma validFragmentsWithTypeOf_names schema fragments name :
  "__proto__" ∉ map fr_name fragments →
  is_Some (validFragmentsWithTypeOf schema fragments !! name) →
  name ∉ objectPrototypeKeys →
  ∃ f, f ∈ fragments ∧ fr_name f = name.
Proof.
  unfold validFragmentsWithTypeOf.
  assert (Hgen : ∀ object,
    "__proto__" ∉ map fr_name fragments →
    prototypeType
      (foldl (λ object fragment,
                match getType schema (fr_typeCondition fragment) with
                | Some type => setFragmentType object (fr_name fragment) type
                | None => object
                end) object fragments) = prototypeType object ∧
    (is_Some (ownTypes
                (foldl (λ object fragment,
                          match getType schema (fr_typeCondition fragment) with
                          | Some type =>
                              setFragmentType object (fr_name fragment) type
                          | None => object
                          end) object fragments) !! name) →
     is_Some (ownTypes object !! name) ∨
     ∃ f, f ∈ fragments ∧ fr_name f = name)).
  { induction fragments as [|f fragments IH]; intros object Hno; [by split; [|left]|].
    simpl in Hno. apply not_elem_of_cons in Hno as [Hf Hno]. simpl.
    destruct (getType schema (fr_typeCondition f)) as [type|].
    - assert (Hset : setFragmentType object (fr_name f) type =
                     mkFragmentTypes (<[fr_name f := type]> (ownTypes object))
                                     (prototypeType object)).
      { unfold setFragmentType. rewrite bool_decide_false; [done|].
        intros Heq. apply Hf. by rewrite Heq. }
      rewrite Hset.
      destruct (IH (mkFragmentTypes (<[fr_name f := type]> (ownTypes object))
                                    (prototypeType object)) Hno)
        as [Hproto Hown].
      simpl in Hproto, Hown. split; [exact Hproto|]. intros Hsome.
      destruct (Hown Hsome) as [Hm|(g & Hg & Hname)].
      + destruct (decide (fr_name f = name)) as [Heq|Hne].
        * right. exists f. split; [apply elem_of_cons; by left | done].
        * left. by rewrite lookup_insert_ne in Hm.
      + right. exists g. split; [apply elem_of_cons; by right | done].
    - destruct (IH object Hno) as [Hproto Hown]. split; [done|].
      intros Hsome. destruct (Hown Hsome) as [?|(g & Hg & Hname)]; [by left|].
      right. exists g. split; [apply elem_of_cons; by right | done]. }
  intros Hno [t Hlook] Hplain.
  destruct (Hgen (mkFragmentTypes ∅ None) Hno) as [Hproto Hown].
  unfold propertiesOf in Hlook. rewrite Hproto in Hlook. simpl in Hlook.
  apply lookup_union_Some_raw in Hlook as [Hlook|[_ Hlook]].
  - apply lookup_union_Some_raw in Hlook as [Hlook|[_ Hlook]];
      [|by rewrite lookup_empty in Hlook].
    destruct Hown as [Hempty|?]; [by rewrite Hlook | | done].
    simpl in Hempty. rewrite lookup_empty in Hempty. by destruct Hempty.
  - by apply lookup_inheritedAs in Hlook.
Qed.

Lemma elem_of_map {A B} (f : A → B) (l : list A) y :
  y ∈ map f l ↔ ∃ x, y = f x ∧ x ∈ l.
Proof.
  rewrite list_elem_of_In, in_map_iff. split.
  - intros (x & <- & Hx). exists x. by rewrite list_elem_of_In.
  - intros (x & -> & Hx). exists x. by rewrite <- list_elem_of_In.
Qed.

Lemma elem_of_concat_map {A B} (f : A → list B) (l : list A) y :
  y ∈ concat (map f l) ↔ ∃ x, x ∈ l ∧ y ∈ f x.
Proof.
  induction l as [|x l IH]; simpl.
  - rewrite elem_of_nil. split; [done|]. intros (x & Hx & _).
    by apply elem_of_nil in Hx.
  - rewrite elem_of_app, IH. split.
    + intros [Hy|(z & Hz & Hy)]; [exists x | exists z];
        rewrite elem_of_cons; auto.
    + intros (z & Hz & Hy). apply elem_of_cons in Hz as [->|Hz]; eauto.
Qed.

Lemma filter_none {A} (P : A → Prop) `{∀ x, Decision (P x)} (l : list A) :
  Forall (λ x, ¬ P x) l → filter P l = [].
Proof.
  induction 1 as [|x l Hx _ IH]; [done|].
  rewrite filter_cons. by destruct (decide (P x)).
Qed.

Lemma plainNames_elem names name :
  plainNames names = true → name ∈ names → name ∉ objectPrototypeKeys.
Proof.
  unfold plainNames. rewrite forallb_forall. intros Hall Hin.
  apply list_elem_of_In in Hin. specialize (Hall _ Hin).
  by apply bool_decide_eq_true in Hall.
Qed.

Lemma plainNames_proto names :
  plainNames names = true → "__proto__" ∉ names.
Proof.
  intros Hplain Hin. apply (plainNames_elem _ _ Hplain Hin).
  unfold objectPrototypeKeys. set_solver.
Qed.

Lemma plainNames_app names names' :
  plainNames (names ++ names') = plainNames names && plainNames names'.
Proof. unfold plainNames. apply forallb_app. Qed.

Lemma validFragmentsOf_elem schema fragments f :
  f ∈ validFragmentsOf schema fragments → f ∈ fragments.
Proof.
  unfold validFragmentsOf. intros Hf. by apply list_elem_of_filter in Hf as [_ ?].
Qed.

(** When no fragment definition is named like an inherited property, a name
    that [in] finds in [validFragmentsWithType] and that is not such a name
    either is the name of a valid fragment definition. *)
Lemma validFragments_defined schema fragments name :
  plainNames (map fr_name fragments) = true →
  is_Some (validFragmentsWithTypeOf schema (validFragmentsOf schema fragments)
             !! name) →
  name ∉ objectPrototypeKeys →
  definedPlainly (validFragmentsOf schema fragments) name.
Proof.
  intros Hplain Hsome Hname. split; [done|].
  apply (validFragmentsWithTypeOf_names schema); [|done|done].
  intros Hin. apply (plainNames_proto _ Hplain).
  apply elem_of_map in Hin as (f & Heq & Hf). apply elem_of_map.
  exists f. split; [done|]. by apply (validFragmentsOf_elem schema).
Qed.

Lemma documentSpreads_operation doc operation name :
  operation ∈ operationsOf doc →
  name ∈ selectionsSpreads (op_selectionSet operation) →
  name ∈ documentSpreads doc.
Proof.
  intros Hop Hname. unfold documentSpreads. apply elem_of_app. left.
  apply elem_of_concat_map. by exists operation.
Qed.

Lemma documentSpreads_fragment doc fragment name :
  fragment ∈ fragmentsOf doc →
  name ∈ selectionsSpreads (fr_selectionSet fragment) →
  name ∈ documentSpreads doc.
Proof.
  intros Hf Hname. unfold documentSpreads. apply elem_of_app. right.
  apply elem_of_concat_map. by exists fragment.
Qed.

(** What the filtered body of a valid fragment spreads, in a document whose
    fragment definitions and spreads are plainly named. *)
Lemma filteredBody_definedPlainly impl schema doc f n :
  plainNames (map fr_name (fragmentsOf doc)) = true →
  plainNames (documentSpreads doc) = true →
  f ∈ validFragmentsOf schema (fragmentsOf doc) →
  n ∈ res_usedFragments
        (filteredBody impl schema
           (validFragmentsWithTypeOf schema
              (validFragmentsOf schema (fragmentsOf doc))) f) →
  definedPlainly (validFragmentsOf schema (fragmentsOf doc)) n.
Proof.
  intros Hplain Hspreads Hf Hn. unfold filteredBody in Hn.
  apply validFragments_defined; [done| |].
  - pose proof (filterSelectionSet_known impl schema
                  (validFragmentsWithTypeOf schema
                     (validFragmentsOf schema (fragmentsOf doc)))
                  (Named <$> getType schema (fr_typeCondition f))
                  (fr_selectionSet f)) as Hknown.
    rewrite Forall_forall in Hknown. by apply Hknown.
  - apply (plainNames_elem _ _ Hspreads).
    apply (documentSpreads_fragment doc f);
      [by apply (validFragmentsOf_elem schema)|].
    destruct (filterSelectionSet_used impl schema
                (validFragmentsWithTypeOf schema
                   (validFragmentsOf schema (fragmentsOf doc)))
                (Named <$> getType schema (fr_typeCondition f))
                (fr_selectionSet f)) as [_ Hsub].
    by apply (elem_of_sublist _ _ _ Hn Hsub).
Qed.

(** On a document with one operation -- the documents that delegation
    builds -- in which no fragment definition and no fragment spread is
    named like a property that object literals inherit ([constructor],
    [toString], ...), the filtered document is closed: every fragment it
    spreads, in the operation or in a fragment definition, it also defines;
    and if the operation declared every variable its selection set
    references, the filtered operation declares every variable it
    references that is not named like such a property.  (A fragment
    definition of such a name is never emitted, because [union] drops the
    name; a spread of such a name passes the test [in] without any
    definition, and is kept whenever the type-compatibility check accepts
    the inherited value.) *)
Theorem single_operation_closure_sound :
  ∀ impl fuel schema doc operation out,
    operationsOf doc = [operation] →
    plainNames (map fr_name (fragmentsOf doc)) = true →
    plainNames (documentSpreads doc) = true →
    filterDocumentToSchema impl fuel schema doc = Some out →
    danglingSpreads out = [] ∧
    ∃ operation',
      operationsOf out = [operation'] ∧
      ((∀ v, v ∈ selectionsVariables (op_selectionSet operation) →
             v ∈ map vd_variable (op_variableDefinitions operation)) →
       ∀ v, v ∈ selectionsVariables (op_selectionSet operation') →
            v ∉ objectPrototypeKeys →
            v ∈ map vd_variable (op_variableDefinitions operation')).
Proof.
  intros impl fuel schema doc operation out Hone Hplain Hspreads Hrun.
  assert (Hop : operation ∈ operationsOf doc)
    by (rewrite Hone; apply list_elem_of_singleton; done).
  unfold filterDocumentToSchema in Hrun. rewrite Hone in Hrun.
  cbn [filterOperations] in Hrun.
  pose proof (validFragments_defined schema (fragmentsOf doc)) as Hdefined.
  specialize (λ n, Hdefined n Hplain).
  pose proof (λ f n, filteredBody_definedPlainly impl schema doc f n
                       Hplain Hspreads) as Hbody.
  set (validFragments := validFragmentsOf schema (fragmentsOf doc)) in *.
  set (vfwt := validFragmentsWithTypeOf schema validFragments) in *.
  unfold filterOperation in Hrun. cbn [doc_usedFragments doc_fragmentSet] in Hrun.
  set (r := filterSelectionSet impl schema vfwt
              (Named <$> rootType schema (op_operation operation))
              (op_selectionSet operation)) in *.
  destruct (collectFragmentVariables _ _ _ _ _ _ _) as [collected|] eqn:Hcollect;
    [|done].
  assert (Hout : out = mkDocument
            (map OperationDefinition
               [mkOperation (op_operation operation) (op_name operation)
                  (filter (λ v, includes (vd_variable v)
                                  (union [res_usedVariables r;
                                          collectedVariables collected]) = true)
                          (op_variableDefinitions operation))
                  (op_directives operation) (res_selectionSet r)] ++
             map FragmentDefinition (collectedFragments collected)))
    by (simpl in Hrun; by inversion Hrun).
  clear Hrun. subst out.
  assert (Hrknown : ∀ n, n ∈ res_usedFragments r → definedPlainly validFragments n).
  { intros n Hn.
    assert (Hnplain : n ∉ objectPrototypeKeys).
    { apply (plainNames_elem _ _ Hspreads).
      apply (documentSpreads_operation doc operation); [done|].
      destruct (filterSelectionSet_used impl schema vfwt
                  (Named <$> rootType schema (op_operation operation))
                  (op_selectionSet operation)) as [_ Hsub].
      by apply (elem_of_sublist _ _ _ Hn Hsub). }
    apply Hdefined; [|done].
    pose proof (filterSelectionSet_known impl schema vfwt
                  (Named <$> rootType schema (op_operation operation))
                  (op_selectionSet operation)) as Hknown.
    rewrite Forall_forall in Hknown. by apply Hknown. }
  assert (Hused : ∀ n, n ∈ union [[]; res_usedFragments r] ↔
                       n ∈ res_usedFragments r).
  { intros n. rewrite (proj2 (proj2 (union_spec _))). simpl.
    rewrite app_nil_r. split; [tauto|]. intros Hn. split; [done|].
    by apply Hrknown. }
  assert (Hknown : ∀ n, n ∈ union [[]; res_usedFragments r] →
                        definedPlainly validFragments n).
  { intros n Hn. by apply Hrknown, Hused. }
  destruct (collectFragmentVariables_closed impl schema validFragments vfwt
              fuel _ collected Hbody Hknown Hcollect) as [Hnames Hbodies].
  split.
  - unfold danglingSpreads. rewrite operationsOf_emitted, fragmentsOf_emitted.
    apply filter_none. apply Forall_forall. intros n Hn Hnot. apply Hnot.
    cbn [map concat op_selectionSet] in Hn. rewrite app_nil_r in Hn.
    apply elem_of_app in Hn as [Hn|Hn].
    + apply Hnames, Hused. unfold r.
      by rewrite (proj1 (filterSelectionSet_used impl schema vfwt _ _)).
    + apply elem_of_concat_map in Hn as (f' & Hf' & Hn).
      by apply (Hbodies f' n).
  - eexists. rewrite operationsOf_emitted. split; [reflexivity|].
    cbn [op_selectionSet op_variableDefinitions]. intros Hdeclared v Hv Hvplain'.
    pose proof (filterSelectionSet_variables impl schema vfwt
                  (Named <$> rootType schema (op_operation operation))
                  (op_selectionSet operation)) as Hperm.
    fold r in Hperm.
    assert (Hin : v ∈ selectionsVariables (op_selectionSet operation)).
    { unfold r, filterSelectionSet in Hv.
      destruct (visitSelections _ _ _ _ _) as [rs st] eqn:Hvisit.
      destruct (visitSelections_variables_all _ _ _ _ _ _ _ Hvisit) as [_ Hsub].
      simpl in Hv. by apply (elem_of_sublist _ _ _ Hv Hsub). }
    apply Hdeclared in Hin. apply elem_of_map in Hin as (vd & -> & Hvd).
    apply elem_of_map. exists vd. split; [done|].
    apply list_elem_of_filter. split; [|done].
    unfold includes. apply bool_decide_eq_true.
    apply union_intro; [|done]. simpl. apply elem_of_app. left.
    by rewrite Hperm.
Qed.

Lemma single_operation_closure_sound_witness :
  ∃ out,
    filterDocumentToSchema implementsOrEquals 3 Blog.schema Blog.getPostById
      = Some out ∧
    danglingSpreads out = [] ∧
    map fr_name (fragmentsOf out) = ["PostOwner"; "Post"].
Proof.
  eexists. split; [vm_compute; reflexivity|].
  split; [|vm_compute; reflexivity].
  eapply (single_operation_closure_sound implementsOrEquals 3 Blog.schema
            Blog.getPostById);
    vm_compute; reflexivity.
Defined.

(** ** Further properties of the transform *)

(** The fragment closure terminates on every document whose valid fragment
    definitions are ranked -- each outweighs the fragments it spreads, so
    none reaches itself -- and more iterations do not change the result. *)
Theorem fragment_closure_terminates_when_ranked :
  ∀ impl w schema doc,
    FragmentsRanked w (validFragmentsOf schema (fragmentsOf doc)) →
    ∃ fuel out, ∀ fuel', fuel ≤ fuel' →
      filterDocumentToSchema impl fuel' schema doc = Some out.
Proof. intros impl w schema doc. apply filterDocumentToSchema_terminates. Qed.

Lemma fragment_closure_terminates_when_ranked_witness :
  FragmentsRanked Blog.rank
    (validFragmentsOf Blog.schema (fragmentsOf Blog.getPostById)) ∧
  ∃ fuel out, ∀ fuel', fuel ≤ fuel' →
    filterDocumentToSchema implementsOrEquals fuel' Blog.schema Blog.getPostById
      = Some out.
Proof.
  assert (Hranked : FragmentsRanked Blog.rank
            (validFragmentsOf Blog.schema (fragmentsOf Blog.getPostById))).
  { repeat constructor. }
  split; [exact Hranked|].
  exact (fragment_closure_terminates_when_ranked implementsOrEquals Blog.rank
           Blog.schema Blog.getPostById Hranked).
Defined.

(** Filtering a filtered selection set against the same type returns it
    unchanged: the first pass leaves no field that a second pass would
    excise or prune. *)
Theorem filtering_twice_is_filtering_once :
  ∀ impl schema vfwt type sels,
    res_selectionSet
      (filterSelectionSet impl schema vfwt type
         (res_selectionSet (filterSelectionSet impl schema vfwt type sels))) =
    res_selectionSet (filterSelectionSet impl schema vfwt type sels).
Proof. intros. apply filterSelectionSet_idempotent. Qed.

(** What [filterSelectionSet] reports as used is what its result holds:
    the used fragments are the fragment spreads of the filtered selection
    set, in order, each found in [validFragments]; the used variables are
    its variable references, up to order; and nothing is referenced that
    the input did not reference. *)
Theorem used_names_are_those_of_the_result :
  ∀ impl schema vfwt type sels,
    let r := filterSelectionSet impl schema vfwt type sels in
    res_usedFragments r = selectionsSpreads (res_selectionSet r) ∧
    Forall (λ name, is_Some (vfwt !! name)) (res_usedFragments r) ∧
    sublist (res_usedFragments r) (selectionsSpreads sels) ∧
    res_usedVariables r ≡ₚ selectionsVariables (res_selectionSet r) ∧
    sublist (selectionsVariables (res_selectionSet r)) (selectionsVariables sels).
Proof.
  intros impl schema vfwt type sels r. subst r.
  destruct (filterSelectionSet_used impl schema vfwt type sels) as [Hused Hsub].
  split_and!; [done | apply filterSelectionSet_known | done
               | apply filterSelectionSet_variables |].
  unfold filterSelectionSet.
  destruct (visitSelections _ _ _ sels _) as [rs st] eqn:Hvisit.
  by destruct (visitSelections_variables_all _ _ _ _ _ _ _ Hvisit).
Qed.



(** ** The filter only takes nodes out *)

Section PruningProperties.

Variable impl :
  GraphQLSchema → option GraphQLNamedType → option GraphQLNamedType → bool.
Variable schema : GraphQLSchema.
Variable validFragments : gmap string GraphQLNamedType.

Lemma visitSelections_pruning sels :
  Forall (λ node, ∀ st n' st',
            visitSelection impl schema validFragments node st = (Some n', st') →
            Pruning n' node) sels →
  ∀ st rs st',
    visitSelections impl schema validFragments sels st = (rs, st') →
    PruningList rs sels.
Proof.
  induction 1 as [|node sels Hnode _ IH]; intros st rs st' Hvisit.
  - simpl in Hvisit. inversion Hvisit; subst. constructor.
  - rewrite visitSelections_cons_eq in Hvisit.
    destruct (visitSelection impl schema validFragments node st)
      as [r st1] eqn:Hone.
    destruct (visitSelections impl schema validFragments sels st1)
      as [rs1 st2] eqn:Hrest.
    inversion Hvisit; subst; clear Hvisit.
    specialize (IH _ _ _ Hrest).
    destruct r as [n'|]; [|by constructor].
    constructor; [by apply (Hnode st n' st1) | done].
Qed.

Lemma leaveField_some node' st r st' :
  leaveField node' st = (Some r, st') → r = node'.
Proof.
  unfold leaveField. destruct (_ && _); intros Heq; by inversion Heq.
Qed.

Lemma visit_field_pruning alias name arguments directives selectionSet :
  (∀ sels, selectionSet = Some sels →
     Forall (λ node, ∀ st n' st',
               visitSelection impl schema validFragments node st = (Some n', st') →
               Pruning n' node) sels) →
  ∀ st n' st',
    visitSelection impl schema validFragments
      (FieldNode alias name arguments directives selectionSet) st = (Some n', st') →
    Pruning n' (FieldNode alias name arguments directives selectionSet).
Proof.
  intros IH st n' st' Hvisit.
  assert (Hchildren : ∀ arguments' st1 selectionSet' st3,
            sublist arguments' arguments →
            visitFieldChildren impl schema validFragments arguments' directives
              selectionSet st1 = (selectionSet', st3) →
            Pruning (FieldNode alias name arguments' directives selectionSet')
                    (FieldNode alias name arguments directives selectionSet)).
  { intros arguments' st1 selectionSet' st3 Hsub Hch.
    unfold visitFieldChildren in Hch.
    destruct selectionSet as [sels|].
    - destruct (visitSelections _ _ _ sels _) as [rs st4] eqn:Hsels.
      inversion Hch; subst. constructor; [done|].
      by apply (visitSelections_pruning sels (IH sels eq_refl) _ _ _ Hsels).
    - inversion Hch; subst. by constructor. }
  rewrite visitSelection_field_cases in Hvisit.
  destruct (isObjectOrInterface (resolveType (topOf st))).
  - destruct (fieldOn schema (resolveType (topOf st)) name)
      as [[fieldType argNames]|]; [|done].
    cbv zeta in Hvisit.
    destruct (visitFieldChildren _ _ _ _ _ _ _) as [selectionSet' st3] eqn:Hch.
    apply leaveField_some in Hvisit as ->.
    apply (Hchildren _ _ _ _ (sublist_filter _ _) Hch).
  - destruct (visitFieldChildren _ _ _ _ _ _ _) as [selectionSet' st3] eqn:Hch.
    apply leaveField_some in Hvisit as ->.
    by apply (Hchildren _ _ _ _ (reflexivity _) Hch).
Qed.

Lemma visit_pruning node :
  ∀ st n' st',
    visitSelection impl schema validFragments node st = (Some n', st') →
    Pruning n' node.
Proof.
  induction node as [alias name args dirs | alias name args dirs sels IH
                     | name dirs | cond dirs sels IH]
    using SelectionNode_nested_ind.
  - apply visit_field_pruning. by intros sels.
  - apply visit_field_pruning. by intros ? [= <-].
  - intros st n' st' Hvisit. rewrite visitSelection_spread_eq in Hvisit.
    destruct (validFragments !! name); [|done].
    destruct (impl _ _ _); inversion Hvisit; subst. constructor.
  - intros st n' st' Hvisit. rewrite visitSelection_inline_eq in Hvisit.
    destruct (InlineFragment_enter _ _ _ _) as [entered st1].
    destruct (visitSelections impl schema validFragments sels
                (withVariables st1 (directivesVariables dirs)))
      as [rs st3] eqn:Hsels.
    destruct entered; inversion Hvisit; subst; constructor;
      by apply (visitSelections_pruning sels IH _ _ _ Hsels).
Qed.

End PruningProperties.

(** Whatever the schema, [filterSelectionSet] only takes out: the filtered
    selection set is the given one with some arguments and some nodes
    deleted, and what is left is in the order and under the names it had. *)
Theorem filterSelectionSet_only_deletes :
  ∀ impl schema validFragments type selectionSet,
    PruningList
      (res_selectionSet
         (filterSelectionSet impl schema validFragments type selectionSet))
      selectionSet.
Proof.
  intros impl schema validFragments type selectionSet.
  unfold filterSelectionSet.
  destruct (visitSelections _ _ _ selectionSet _) as [rs st] eqn:Hvisit.
  cbn [res_selectionSet].
  apply (visitSelections_pruning impl schema validFragments selectionSet)
    with (st := mkState [type] [] []) (st' := st); [|done].
  apply Forall_forall. intros node _. apply visit_pruning.
Qed.

(** ** Fields under an Object or Interface parent *)



(** ** What deletion leaves behind *)

(** A node that the traversal deletes, for whatever reason, leaves no
    trace: the type stack and the used fragments are what they were when the
    node was entered, and so are the used variables up to their order
    (retraction takes out the first occurrence of a name, not the one the
    node added). *)
Theorem deletion_leaves_no_trace :
  ∀ impl schema validFragments node st st',
    visitSelection impl schema validFragments node st = (None, st') →
    typeStack st' = typeStack st ∧
    usedFragments st' = usedFragments st ∧
    usedVariables st' ≡ₚ usedVariables st.
Proof.
  intros impl schema validFragments node st st' Hvisit.
  destruct (visit_deleted_unchanged impl schema validFragments node _ _ _ Hvisit)
    as [Hdel _].
  destruct (Hdel eq_refl) as [Hstack Hused].
  destruct (visit_variables impl schema validFragments node _ _ _ Hvisit)
    as [Hvars _].
  simpl in Hvars. rewrite app_nil_r in Hvars. done.
Qed.

Lemma deletion_leaves_no_trace_witness :
  visitSelection implementsOrEquals Booking.bookingSchema ∅ bookingsField
    (underCustomerWith ["limit"; "id"])
    = (None, underCustomerWith ["id"; "limit"]) ∧
  typeStack (underCustomerWith ["id"; "limit"])
    = typeStack (underCustomerWith ["limit"; "id"]) ∧
  usedFragments (underCustomerWith ["id"; "limit"])
    = usedFragments (underCustomerWith ["limit"; "id"]) ∧
  usedVariables (underCustomerWith ["id"; "limit"])
    ≡ₚ usedVariables (underCustomerWith ["limit"; "id"]).
Proof.
  split; [vm_compute; reflexivity|].
  apply (deletion_leaves_no_trace implementsOrEquals Booking.bookingSchema ∅
           bookingsField).
  vm_compute. reflexivity.
Defined.

(** ** Inline fragments are never pruned *)



(** ** The fragment definitions of the filtered document *)

Lemma collectStep_emittedOnce impl schema validFragments vfwt st :
  emittedOnce st → emittedOnce (collectStep impl schema validFragments vfwt st).
Proof.
  unfold emittedOnce, emittedNames, collectStep. intros [Hnd Hset].
  destruct (pop (worklist st)) as [next rest].
  destruct (find _ validFragments) as [fragment|]; [|done].
  destruct (decide (fr_name fragment ∈ fragmentSet st)) as [Hin|Hnotin];
    cbn [collectedFragments fragmentSet]; [done|].
  rewrite map_app. simpl. split.
  - apply NoDup_app. split_and!; [done| |apply NoDup_singleton].
    intros n Hn Hn'. apply list_elem_of_singleton in Hn' as ->.
    by apply Hnotin, Hset.
  - intros n Hn. apply elem_of_app in Hn as [Hn|Hn].
    + apply elem_of_union_r. by apply Hset.
    + apply list_elem_of_singleton in Hn as ->.
      apply elem_of_union_l. by apply elem_of_singleton.
Qed.

Lemma collectFragmentVariables_emittedOnce impl schema validFragments vfwt
    fuel fragmentSet usedFragments r :
  collectFragmentVariables impl schema validFragments vfwt fuel fragmentSet
    usedFragments = Some r →
  emittedOnce r.
Proof.
  unfold collectFragmentVariables. intros Hrun.
  refine (proj1 (collectLoop_invariant impl schema validFragments vfwt emittedOnce
                   (λ st _, collectStep_emittedOnce impl schema validFragments vfwt st)
                   fuel _ r _ Hrun)).
  split; [constructor | intros n Hn; by apply elem_of_nil in Hn].
Qed.

(** The fragments of the final state are those the state started with or
    those collected by one run of the loop. *)
Lemma filterOperations_newFragments impl schema validFragments vfwt fuel
    (P : list FragmentDefinitionNode → Prop) operations :
  (∀ fragmentSet usedFragments r,
     collectFragmentVariables impl schema validFragments vfwt fuel fragmentSet
       usedFragments = Some r → P (collectedFragments r)) →
  ∀ st st',
    filterOperations impl schema validFragments vfwt fuel st operations = Some st' →
    P (newFragments st) → P (newFragments st').
Proof.
  intros Hcollect.
  induction operations as [|operation rest IH]; intros st st' Hops Hst;
    simpl in Hops.
  - by inversion Hops; subst.
  - destruct (filterOperation _ _ _ _ _ st operation) as [st1|] eqn:Hop; [|done].
    simpl in Hops. apply (IH _ _ Hops). clear Hops IH.
    unfold filterOperation in Hop.
    destruct (collectFragmentVariables _ _ _ _ _ _ _) as [collected|] eqn:Hrun;
      [|done].
    simpl in Hop. inversion Hop; subst; clear Hop. cbn [newFragments].
    by apply (Hcollect _ _ _ Hrun).
Qed.

(** Whatever [filterDocumentToSchema] returns, no two of its fragment
    definitions have the same name, however often and from wherever a
    fragment is spread; each is a fragment definition of the input whose
    type condition names a type of the schema, re-emitted under its name and
    type condition with its selection set filtered against that type, and
    without its directives. *)
Theorem emitted_fragments_distinct_and_valid :
  ∀ impl fuel schema doc out,
    filterDocumentToSchema impl fuel schema doc = Some out →
    NoDup (fragmentNames (fragmentsOf out)) ∧
    ∀ f', f' ∈ fragmentsOf out →
      ∃ f, f ∈ fragmentsOf doc ∧
           is_Some (getType schema (fr_typeCondition f)) ∧
           f' = mkFragment (fr_name f) (fr_typeCondition f) []
                  (res_selectionSet
                     (filterSelectionSet impl schema
                        (validFragmentsWithTypeOf schema
                           (validFragmentsOf schema (fragmentsOf doc)))
                        (Named <$> getType schema (fr_typeCondition f))
                        (fr_selectionSet f))).
Proof.
  intros impl fuel schema doc out Hrun. unfold filterDocumentToSchema in Hrun.
  destruct (filterOperations _ _ _ _ _ _ _) as [st|] eqn:Hops; [|done].
  simpl in Hrun. inversion Hrun; subst; clear Hrun.
  rewrite fragmentsOf_emitted. split.
  - apply (filterOperations_newFragments _ _ _ _ _
             (λ frs, NoDup (fragmentNames frs)) _
             (λ fs uf r Hr,
                proj1 (collectFragmentVariables_emittedOnce _ _ _ _ _ _ _ _ Hr))
             _ _ Hops).
    constructor.
  - intros f' Hf'.
    destruct (filterOperations_fragments _ _ _ _ _ _ _ _ Hops
                ltac:(by intros ? Hnil; apply elem_of_nil in Hnil) f' Hf')
      as (f & Hf & ->).
    unfold validFragmentsOf in Hf. apply list_elem_of_filter in Hf as [Hvalid Hf].
    by exists f.
Qed.

Lemma emitted_fragments_distinct_and_valid_witness :
  ∃ out,
    filterDocumentToSchema implementsOrEquals 2 Booking.bookingSchema
      ghostFragmentDocument = Some out ∧
    map definitionName (definitions out) = [""; "Known"] ∧
    NoDup (fragmentNames (fragmentsOf out)).
Proof.
  eexists. split; [vm_compute; reflexivity|].
  split; [vm_compute; reflexivity|].
  apply (emitted_fragments_distinct_and_valid implementsOrEquals 2
           Booking.bookingSchema ghostFragmentDocument).
  vm_compute. reflexivity.
Defined.

(** ** [uniq] and [union]: what they return *)

(** [uniq] keeps each value once, at its first occurrence: the result has no
    duplicates and the values of the array, in the order of their first
    occurrences; an array without duplicates is returned as it is, so [uniq]
    of [uniq] is [uniq]. *)
Theorem uniq_keeps_first_occurrences :
  ∀ (array : list string),
    NoDup (uniq array) ∧
    (∀ x, x ∈ uniq array ↔ x ∈ array) ∧
    (∀ x, uniq (x :: array) = x :: uniq (filter (λ y, y ≠ x) array)) ∧
    uniq (uniq array) = uniq array.
Proof.
  intros array. destruct (uniq_spec array) as (Hnd & _ & Hel).
  split_and!; [done | done | | by apply uniq_NoDup].
  intros x. apply uniq_cons.
Qed.

(** [union] returns the items of the arrays that are not named like a
    property its cache inherits ([constructor], [toString], [valueOf],
    [__proto__], ...), once each, at their first occurrence over the arrays
    in order; an item that is so named is never returned.  Accumulating with
    [union] step by step gives what one [union] of all the arrays gives.
    The two deduplications of the repository agree on arrays without such
    names: there [union] of the arrays is [uniq] of their concatenation. *)
Theorem union_keeps_first_occurrences :
  ∀ arrays,
    union arrays =
      uniq (filter (λ x, x ∉ objectPrototypeKeys) (concat arrays)) ∧
    (∀ x, x ∈ union arrays ↔ x ∈ concat arrays ∧ x ∉ objectPrototypeKeys) ∧
    NoDup (union arrays) ∧
    (∀ more, union (union arrays :: more) = union (arrays ++ more)) ∧
    (plainNames (concat arrays) = true → union arrays = uniq (concat arrays)).
Proof.
  intros arrays.
  destruct (uniq_spec (filter (λ x, x ∉ objectPrototypeKeys) (concat arrays)))
    as (Hnd & _ & Hel).
  split_and!.
  - apply union_uniq.
  - apply union_spec.
  - apply union_spec.
  - intros more. rewrite !union_uniq. cbn [concat].
    rewrite concat_app, !filter_app, !uniq_app.
    set (kept := uniq (filter (λ x, x ∉ objectPrototypeKeys) (concat arrays)))
      in *.
    assert (Hkept : filter (λ x, x ∉ objectPrototypeKeys) kept = kept).
    { apply filter_all, Forall_forall. intros x Hx.
      apply Hel, list_elem_of_filter in Hx. tauto. }
    by rewrite Hkept, (uniq_NoDup kept).
  - intros Hplain. rewrite union_uniq. f_equal.
    apply filter_all, Forall_forall. intros x Hx.
    by apply (plainNames_elem _ _ Hplain).
Qed.

Lemma union_keeps_first_occurrences_witness :
  union [["id"; "constructor"; "limit"]; ["toString"; "id"; "__proto__"; "first"]]
    = ["id"; "limit"; "first"] ∧
  union [["id"; "limit"]; ["id"; "first"]] =
    uniq (concat [["id"; "limit"]; ["id"; "first"]]).
Proof.
  split; [vm_compute; reflexivity|].
  apply (proj2 (proj2 (proj2 (proj2
           (union_keeps_first_occurrences [["id"; "limit"]; ["id"; "first"]]))))).
  vm_compute. reflexivity.
Defined.

(** ** [concatenateTypeDefs] *)

Section ConcatenateTypeDefsProperties.

Variable print : DocumentNode → string.
Variable trim : string → string.
Variable functions : list (list ITypedef).

Local Abbreviation run := (concatenateTypeDefs print trim functions).

(** More fuel does not change what a run returns. *)
Lemma forEachTypeDef_mono
    (recur recur' : list ITypedef → list nat
                    → option (TypeDefsError + string * list nat)) ary :
  (∀ l called out, recur l called = Some out → recur' l called = Some out) →
  ∀ resolved called out,
    forEachTypeDef print trim functions recur ary resolved called = Some out →
    forEachTypeDef print trim functions recur' ary resolved called = Some out.
Proof.
  intros Hrecur. induction ary as [|typeDef rest IH]; intros resolved called out;
    [done|].
  cbn [forEachTypeDef]. destruct typeDef as [source|document|ref| |type];
    try done; try apply IH.
  destruct (decide (ref ∈ called)); [apply IH|].
  destruct (recur _ _) as [[error|[concatenated called']]|] eqn:Hcall; [| |done].
  - rewrite (Hrecur _ _ _ Hcall). done.
  - rewrite (Hrecur _ _ _ Hcall). apply IH.
Qed.

Lemma concatenateTypeDefs_mono fuel :
  ∀ fuel' ary called out,
    fuel ≤ fuel' → run fuel ary called = Some out → run fuel' ary called = Some out.
Proof.
  induction fuel as [|fuel IH]; intros fuel' ary called out Hle Hrun; [done|].
  destruct fuel' as [|fuel']; [lia|]. cbn [concatenateTypeDefs] in *.
  destruct (forEachTypeDef print trim functions (run fuel) ary [] called)
    as [out1|] eqn:Heach; [|done].
  rewrite (forEachTypeDef_mono (run fuel) (run fuel') ary
             (λ l c o, IH fuel' l c o ltac:(lia)) _ _ _ Heach).
  done.
Qed.

Lemma bounded_NoDup_length (l : list nat) n :
  NoDup l → Forall (λ x, x < n) l → length l ≤ n.
Proof.
  intros Hnd Hall. trans (length (seq 0 n)); [|by rewrite length_seq].
  apply submseteq_length, NoDup_submseteq; [done|].
  intros x Hx. rewrite Forall_forall in Hall.
  apply elem_of_seq. specialize (Hall x Hx). lia.
Qed.

Lemma pending_call called ref :
  NoDup called → ref ∉ called → ref < length functions →
  pending functions (called ++ [ref]) + 1 = pending functions called.
Proof.
  intros Hnd Hnew Hlt. unfold pending.
  assert (Hbound : length (filter (λ r, r < length functions) (called ++ [ref]))
                   ≤ length functions).
  { apply bounded_NoDup_length.
    - apply NoDup_filter, NoDup_app. split_and!; [done| |apply NoDup_singleton].
      intros x Hx Hx'. apply list_elem_of_singleton in Hx' as ->. done.
    - apply Forall_forall. intros x Hx. by apply list_elem_of_filter in Hx as [? _]. }
  rewrite filter_app, length_app in *.
  rewrite filter_cons_True in * by done. simpl in *. lia.
Qed.

Lemma pending_unknown called ref :
  ¬ ref < length functions →
  pending functions (called ++ [ref]) = pending functions called.
Proof.
  intros Hge. unfold pending. rewrite filter_app, length_app.
  rewrite filter_cons_False by done. simpl. lia.
Qed.

Lemma pending_prefix called called' :
  called `prefix_of` called' →
  pending functions called' ≤ pending functions called.
Proof.
  intros [more ->]. unfold pending. rewrite filter_app, length_app. lia.
Qed.

Lemma calledOnce_prefix {A} called called' (out : TypeDefsError + A * list nat) :
  called `prefix_of` called' → calledOnce called' out → calledOnce called out.
Proof.
  intros Hpre. destruct out as [error|[a called'']]; [done|].
  intros [Hnd Hpre']. split; [done|]. by etrans.
Qed.

Lemma concatenateTypeDefs_total fuel :
  ∀ ary called,
    NoDup called → pending functions called + 2 ≤ fuel →
    ∃ out, run fuel ary called = Some out ∧ calledOnce called out.
Proof.
  induction fuel as [|fuel IHfuel]; intros ary called Hnd Hfuel; [lia|].
  assert (Heach : ∀ l resolved called1,
            NoDup called1 → pending functions called1 + 1 ≤ fuel →
            ∃ out, forEachTypeDef print trim functions (run fuel) l resolved called1
                     = Some out ∧ calledOnce called1 out).
  { clear ary called Hnd Hfuel.
    induction l as [|typeDef rest IH]; intros resolved called Hnd Hfuel.
    { eexists. split; [reflexivity|]. by split. }
    cbn [forEachTypeDef].
    destruct typeDef as [source|document|ref| |type];
      try (by eexists); try (by apply IH).
    destruct (decide (ref ∈ called)) as [Hin|Hnew]; [by apply IH|].
    assert (Hnd' : NoDup (called ++ [ref])).
    { apply NoDup_app. split_and!; [done| |apply NoDup_singleton].
      intros x Hx Hx'. by apply list_elem_of_singleton in Hx' as ->. }
    assert (Hcall : ∃ out, run fuel (default [] (functions !! ref))
                             (called ++ [ref]) = Some out ∧
                           calledOnce (called ++ [ref]) out).
    { destruct (decide (ref < length functions)) as [Hlt|Hge].
      - apply IHfuel; [done|].
        pose proof (pending_call called ref Hnd Hnew Hlt). lia.
      - rewrite (lookup_ge_None_2 functions ref) by lia.
        destruct fuel as [|fuel0]; [lia|].
        eexists. split; [reflexivity|]. by split. }
    destruct Hcall as ([error|[concatenated called']] & -> & Hout);
      [by eexists|].
    destruct Hout as [Hnd'' Hpre].
    assert (Hpre0 : called `prefix_of` called').
    { etrans; [|done]. by apply prefix_app_r. }
    destruct (IH (resolved ++ [concatenated]) called' Hnd'') as (out & Hrun & Hout).
    { pose proof (pending_prefix _ _ Hpre0). lia. }
    exists out. split; [done|]. by apply (calledOnce_prefix _ called'). }
  cbn [concatenateTypeDefs].
  destruct (Heach ary [] called Hnd ltac:(lia))
    as ([error|[resolved called']] & -> & Hout); by eexists.
Qed.

Lemma forEachTypeDef_plain recur ary :
  ∀ sources resolved called,
    mapM (sourceOf print) ary = Some sources →
    forEachTypeDef print trim functions recur ary resolved called =
    Some (inr (resolved ++ map trim sources, called)).
Proof.
  induction ary as [|typeDef rest IH]; intros sources resolved called Hplain.
  - inversion Hplain; subst. simpl. by rewrite app_nil_r.
  - rewrite mapM_Some in Hplain. inversion Hplain as [|? s ? ss Hs Hrest];
      subst; clear Hplain.
    apply mapM_Some in Hrest.
    destruct typeDef; try done; simpl in Hs; inversion Hs; subst;
      cbn [forEachTypeDef]; rewrite (IH _ _ _ Hrest);
      by rewrite <- app_assoc.
Qed.

Lemma forEachTypeDef_app recur pre rest :
  ∀ sources resolved called,
    mapM (sourceOf print) pre = Some sources →
    forEachTypeDef print trim functions recur (pre ++ rest) resolved called =
    forEachTypeDef print trim functions recur rest
      (resolved ++ map trim sources) called.
Proof.
  induction pre as [|typeDef pre IH]; intros sources resolved called Hplain.
  - inversion Hplain; subst. simpl. by rewrite app_nil_r.
  - rewrite mapM_Some in Hplain. inversion Hplain as [|? s ? ss Hs Hrest];
      subst; clear Hplain.
    apply mapM_Some in Hrest.
    destruct typeDef; try done; simpl in Hs; inversion Hs; subst;
      rewrite <- app_comm_cons; cbn [forEachTypeDef]; rewrite (IH _ _ _ Hrest);
      by rewrite <- app_assoc.
Qed.

End ConcatenateTypeDefsProperties.

(** [concatenateTypeDefs] returns or throws on every array, also when the
    functions in it return arrays that hold each other: the depth of the
    recursion is at most the number of functions, because a function is
    called only if it is not yet in [calledFunctionRefs], where it is put
    before the call.  No function is called twice. *)
Theorem concatenateTypeDefs_terminates :
  ∀ print trim functions typeDefinitionsAry,
    ∃ out,
      (∀ fuel, length functions + 2 ≤ fuel →
               concatenateTypeDefs print trim functions fuel typeDefinitionsAry []
                 = Some out) ∧
      calledOnce [] out.
Proof.
  intros print trim functions ary.
  destruct (concatenateTypeDefs_total print trim functions
              (length functions + 2) ary [] (NoDup_nil_2))
    as (out & Hrun & Hout).
  { unfold pending. simpl. lia. }
  exists out. split; [|done]. intros fuel Hfuel.
  by apply (concatenateTypeDefs_mono print trim functions
              (length functions + 2)).
Qed.

Lemma concatenateTypeDefs_terminates_witness :
  concatenateTypeDefs (λ _, "") trimAscii circularTypeDefs 4
    [FunctionTypedef 0; FunctionTypedef 1] [] =
  Some (inr (("type Book { author: Author }" ++ lineFeed ++
              "type Author { books: [Book] }")%string, [0; 1])) ∧
  ∃ out,
    (∀ fuel, 4 ≤ fuel →
             concatenateTypeDefs (λ _, "") trimAscii circularTypeDefs fuel
               [FunctionTypedef 0; FunctionTypedef 1] [] = Some out) ∧
    calledOnce [] out.
Proof.
  split; [vm_compute; reflexivity|].
  apply (concatenateTypeDefs_terminates (λ _, "") trimAscii circularTypeDefs
           [FunctionTypedef 0; FunctionTypedef 1]).
Defined.

(** On an array of strings and documents the result is the sources, printed
    where they are documents, each trimmed (twice), without those equal to
    an earlier one, joined by line feeds; no function is called. *)
Theorem concatenateTypeDefs_of_sources :
  ∀ print trim functions fuel typeDefinitionsAry sources called,
    mapM (sourceOf print) typeDefinitionsAry = Some sources →
    concatenateTypeDefs print trim functions (S fuel) typeDefinitionsAry called =
    Some (inr (join lineFeed (uniq (map trim (map trim sources))), called)).
Proof.
  intros print trim functions fuel ary sources called Hplain.
  cbn [concatenateTypeDefs].
  by rewrite (forEachTypeDef_plain print trim functions _ ary sources [] called Hplain).
Qed.

Lemma concatenateTypeDefs_of_sources_witness :
  concatenateTypeDefs (λ _, "") trimAscii [] 1
    [StringTypedef " type A "; StringTypedef "type B"; StringTypedef "type A"] [] =
  Some (inr (("type A" ++ lineFeed ++ "type B")%string, [])).
Proof.
  rewrite (concatenateTypeDefs_of_sources (λ _, "") trimAscii [] 0
             [StringTypedef " type A "; StringTypedef "type B"; StringTypedef "type A"]
             [" type A "; "type B"; "type A"] []); [|reflexivity].
  vm_compute. reflexivity.
Defined.

(** The first element that is neither a string, a document nor a function
    decides: a value of another type throws the [SchemaError] that names its
    [typeof], and [null] or [undefined] throws a [TypeError] before that
    test is reached; what follows in the array is not looked at. *)
Theorem concatenateTypeDefs_rejects :
  ∀ print trim functions fuel pre sources post called,
    mapM (sourceOf print) pre = Some sources →
    (∀ type,
       concatenateTypeDefs print trim functions (S fuel)
         (pre ++ OtherTypedef type :: post) called =
       Some (inl (SchemaError
                    ("typeDef array must contain only strings and functions, got "
                     ++ typeOf type)))) ∧
    concatenateTypeDefs print trim functions (S fuel)
      (pre ++ NullishTypedef :: post) called = Some (inl TypeError).
Proof.
  intros print trim functions fuel pre sources post called Hplain.
  split; [intros type|]; cbn [concatenateTypeDefs];
    by rewrite (forEachTypeDef_app print trim functions _ pre _ sources [] called Hplain).
Qed.

Lemma concatenateTypeDefs_rejects_witness :
  concatenateTypeDefs (λ _, "") trimAscii [] 1
    [StringTypedef "type A"; OtherTypedef NumberType; NullishTypedef] [] =
  Some (inl (SchemaError
               "typeDef array must contain only strings and functions, got number")).
Proof.
  apply (proj1 (concatenateTypeDefs_rejects (λ _, "") trimAscii [] 0
                  [StringTypedef "type A"] ["type A"] [NullishTypedef] []
                  ltac:(reflexivity)) NumberType).
Defined.

(** What a function's array gives enters the result as one piece: the
    strings of the array and the strings of the arrays of the functions in
    it are deduplicated apart, so a definition given at both levels is in
    the result twice whenever the function's array gives more than that
    definition. *)
Theorem concatenateTypeDefs_function_is_one_piece :
  ∀ print trim functions fuel pre sources ref body called,
    mapM (sourceOf print) pre = Some sources →
    mapM (sourceOf print) (default [] (functions !! ref)) = Some body →
    ref ∉ called →
    concatenateTypeDefs print trim functions (S (S fuel))
      (pre ++ [FunctionTypedef ref]) called =
    Some (inr (join lineFeed
                 (uniq (map trim
                          (map trim sources ++
                           [join lineFeed (uniq (map trim (map trim body)))]))),
               called ++ [ref])).
Proof.
  intros print trim functions fuel pre sources ref body called Hpre Hbody Hnew.
  cbn [concatenateTypeDefs].
  rewrite (forEachTypeDef_app print trim functions _ pre _ sources [] called Hpre).
  cbn [forEachTypeDef]. destruct (decide (ref ∈ called)); [done|].
  by rewrite (forEachTypeDef_plain print trim functions _ _ body [] _ Hbody).
Qed.

Lemma concatenateTypeDefs_function_is_one_piece_witness :
  concatenateTypeDefs (λ _, "") trimAscii
    [[StringTypedef "type A"; StringTypedef "type B"]] 2
    [StringTypedef "type A"; FunctionTypedef 0] [] =
  Some (inr (("type A" ++ lineFeed ++ "type A" ++ lineFeed ++ "type B")%string,
             [0])).
Proof.
  change [StringTypedef "type A"; FunctionTypedef 0]
    with ([StringTypedef "type A"] ++ [FunctionTypedef 0]).
  rewrite (concatenateTypeDefs_function_is_one_piece (λ _, "") trimAscii
             [[StringTypedef "type A"; StringTypedef "type B"]] 0
             [StringTypedef "type A"] ["type A"] 0 ["type A"; "type B"] []);
    [vm_compute; reflexivity | reflexivity | reflexivity |].
  intros Hin. by apply elem_of_nil in Hin.
Defined.

(** ** The default merged resolver and aliases *)

Lemma truthy_not_null v : truthy v = true → looselyNull v = false.
Proof. by destruct v. Qed.

(** The value the resolver settles on, among the three places it reads,
    whatever the values have built in or inherit.  A truthy value under the
    response key wins, whatever the parent holds under the field's own name
    or under [data]: with an alias the aliased value is returned.  The
    value under the field's own name is read only when there is none
    ([undefined] or [null]) under the response key.  A falsy value that is
    not [null] ([0], [false], the empty string) under the response key is
    returned as it is unless [data] is truthy and holds a truthy value
    under the key; when it does, that value is returned, be it an own
    property of [data] or one it has built in, as the [length] of an
    array.  The value is handed to [annotateWithChildrenErrors] when the
    parent carries errors of children. *)
Theorem defaultMergedResolver_alias_precedence :
  ∀ builtinProperty getResponseKeyFromInfo getErrorsFromParent
    annotateWithChildrenErrors parent args context info responseKey errors,
    let read := getProperty builtinProperty in
    let resolved :=
      defaultMergedResolver builtinProperty getResponseKeyFromInfo
        getErrorsFromParent annotateWithChildrenErrors
        parent args context info in
    truthy parent = true →
    getResponseKeyFromInfo info = Return responseKey →
    getErrorsFromParent parent responseKey = Return (CHILDREN errors) →
    (truthy (read parent responseKey) = true →
     resolved =
     annotated annotateWithChildrenErrors errors (read parent responseKey)) ∧
    (looselyNull (read parent responseKey) = true →
     truthy (read parent (fieldName info)) = true →
     resolved =
     annotated annotateWithChildrenErrors errors
       (read parent (fieldName info))) ∧
    (looselyNull (read parent responseKey) = false →
     truthy (read parent "data")
       && truthy (read (read parent "data") responseKey) = false →
     resolved =
     annotated annotateWithChildrenErrors errors (read parent responseKey)) ∧
    (looselyNull (read parent responseKey) = true →
     truthy (read parent "data")
       && truthy (read (read parent "data") responseKey) = false →
     resolved =
     annotated annotateWithChildrenErrors errors
       (read parent (fieldName info))) ∧
    (truthy (read parent responseKey) = false →
     (looselyNull (read parent responseKey) = true →
      truthy (read parent (fieldName info)) = false) →
     truthy (read parent "data") = true →
     truthy (read (read parent "data") responseKey) = true →
     resolved =
     annotated annotateWithChildrenErrors errors
       (read (read parent "data") responseKey)).
Proof.
  intros builtin getKey getErrors annotate parent args context info
    responseKey errors read resolved Hparent Hkey Herrors.
  subst read resolved. unfold defaultMergedResolver, annotated.
  rewrite Hparent, Hkey, Herrors. cbn [negb]. split_and!.
  - intros Hown. by rewrite (truthy_not_null _ Hown), Hown.
  - intros Hnull Hnamed. by rewrite Hnull, Hnamed.
  - intros Hnull Hdata. rewrite Hnull.
    by rewrite <- andb_assoc, Hdata, andb_false_r.
  - intros Hnull Hdata. rewrite Hnull.
    by rewrite <- andb_assoc, Hdata, andb_false_r.
  - intros Hown Hnamed Hdata Hheld. rewrite Hdata, Hheld.
    destruct (looselyNull (getProperty builtin parent responseKey)).
    + by rewrite (Hnamed eq_refl).
    + by rewrite Hown.
Qed.

Lemma defaultMergedResolver_alias_precedence_witness :
  defaultMergedResolver lengthOfArrays
    (λ _, Return "title") (λ _ _, Return (CHILDREN None)) (λ v _, Return v)
    (JSObject [("name", JSString "field"); ("title", JSString "aliased");
               ("data", JSObject [("title", JSString "data")])])
    JSUndefined JSUndefined exampleInfo =
  Return (JSString "aliased") ∧
  defaultMergedResolver lengthOfArrays
    (λ _, Return "length") (λ _ _, Return (CHILDREN None)) (λ v _, Return v)
    (JSObject [("length", JSNumber 0);
               ("data", JSArray [JSNumber 1; JSNumber 2])])
    JSUndefined JSUndefined exampleInfo =
  Return (JSNumber 2).
Proof.
  split.
  - apply (proj1 (defaultMergedResolver_alias_precedence lengthOfArrays
                    (λ _, Return "title")
                    (λ _ _, Return (CHILDREN None)) (λ v _, Return v)
                    (JSObject [("name", JSString "field");
                               ("title", JSString "aliased");
                               ("data", JSObject [("title", JSString "data")])])
                    JSUndefined JSUndefined exampleInfo "title" None
                    ltac:(reflexivity) ltac:(reflexivity) ltac:(reflexivity)));
      reflexivity.
  - apply (proj2 (proj2 (proj2 (proj2
             (defaultMergedResolver_alias_precedence lengthOfArrays
                (λ _, Return "length")
                (λ _ _, Return (CHILDREN None)) (λ v _, Return v)
                (JSObject [("length", JSNumber 0);
                           ("data", JSArray [JSNumber 1; JSNumber 2])])
                JSUndefined JSUndefined exampleInfo "length" None
                ltac:(reflexivity) ltac:(reflexivity) ltac:(reflexivity))))));
      [reflexivity | discriminate | reflexivity | reflexivity].
Defined.

(** ** [decorateToCatchUndefined] *)

(** The decorated resolver never returns [undefined]: where the resolver it
    wraps -- the default field resolver when none is given -- returns
    [undefined] it throws an error that names the hint; every other result
    and every error of the wrapped resolver is passed on. *)
Theorem decorateToCatchUndefined_contract :
  ∀ defaultFieldResolver fn hint root args ctx info,
    decorateToCatchUndefined defaultFieldResolver fn hint root args ctx info
      ≠ Return JSUndefined ∧
    decorateToCatchUndefined defaultFieldResolver fn hint root args ctx info =
      match resolverOr defaultFieldResolver fn root args ctx info with
      | Return JSUndefined =>
          Throw (newError ("Resolve function for " ++ doubleQuote ++ hint
                           ++ doubleQuote ++ " returned undefined"))
      | completion => completion
      end.
Proof.
  intros defaultFieldResolver fn hint root args ctx info.
  unfold decorateToCatchUndefined, resolverOr.
  destruct fn as [fn|];
    [destruct (fn root args ctx info) as [[]|]
    |destruct (defaultFieldResolver root args ctx info) as [[]|]];
    (split; [discriminate | reflexivity]).
Qed.

(** Decorating a decorated resolver changes nothing: the resolver behaves
    as after the first decoration, and the hint of the second is never
    seen. *)
Theorem decorateToCatchUndefined_twice :
  ∀ defaultFieldResolver fn hint hint' root args ctx info,
    decorateToCatchUndefined defaultFieldResolver
      (Some (decorateToCatchUndefined defaultFieldResolver fn hint)) hint'
      root args ctx info =
    decorateToCatchUndefined defaultFieldResolver fn hint root args ctx info.
Proof.
  intros defaultFieldResolver fn hint hint' root args ctx info.
  unfold decorateToCatchUndefined.
  destruct fn as [fn|];
    [destruct (fn root args ctx info) as [[]|]
    |destruct (defaultFieldResolver root args ctx info) as [[]|]];
    done.
Qed.

(** ** The variables of the fragments an operation reaches *)

Section ReachProperties.

Variable impl :
  GraphQLSchema → option GraphQLNamedType → option GraphQLNamedType → bool.
Variable schema : GraphQLSchema.
Variable validFragments : list FragmentDefinitionNode.
Variable vfwt : gmap string GraphQLNamedType.

Lemma collectStep_reach start st :
  worklist st ≠ [] →
  reachInvariant impl schema validFragments vfwt start st →
  reachInvariant impl schema validFragments vfwt start
    (collectStep impl schema validFragments vfwt st).
Proof.
  intros Hne (done & Hstart & Hdone).
  destruct (pop_nonempty _ Hne) as (x & rest & Hwl & Hpop).
  assert (Hold : ∀ n, n ∈ worklist st ∨ done n → n ∈ rest ∨ done n ∨ n = x).
  { intros n [Hn|Hn]; [|tauto]. rewrite Hwl in Hn.
    apply elem_of_app in Hn as [Hn|Hn]; [tauto|].
    apply list_elem_of_singleton in Hn. tauto. }
  unfold collectStep. rewrite Hpop.
  destruct (find _ validFragments) as [f|] eqn:Hfind.
  - cbv zeta.
    set (body := filterSelectionSet impl schema vfwt
                   (Named <$> getType schema (fr_typeCondition f))
                   (fr_selectionSet f)) in *.
    assert (Hwl' : ∀ n, n ∈ rest ∨ n ∈ res_usedFragments body →
                        n ∉ objectPrototypeKeys →
                        n ∈ union [rest; res_usedFragments body]).
    { intros n Hn Hplain. apply union_intro; [|done]. simpl.
      rewrite app_nil_r, elem_of_app. tauto. }
    assert (Hvars' : ∀ v, v ∈ collectedVariables st ∨ v ∈ res_usedVariables body →
                          v ∉ objectPrototypeKeys →
                          v ∈ union [collectedVariables st; res_usedVariables body]).
    { intros v Hv Hplain. apply union_intro; [|done]. simpl.
      rewrite app_nil_r, elem_of_app. tauto. }
    assert (Hgoal : ∀ frs fs,
              reachInvariant impl schema validFragments vfwt start
                (mkCollect (if aliased st then rest else callerArray st) false
                   (union [rest; res_usedFragments body])
                   (union [collectedVariables st; res_usedVariables body])
                   frs fs)).
    { intros frs fs. exists (λ n, done n ∨ n = x). cbn [worklist collectedVariables].
      split.
      - intros n Hn Hplain.
        destruct (Hold n (Hstart n Hn Hplain)) as [?|?]; [|auto].
        left. apply Hwl'; tauto.
      - intros n g [Hn| ->] Hg.
        + destruct (Hdone n g Hn Hg) as [Hv Hs]. split.
          * intros v Hv' Hplain. apply Hvars'; [|done]. left. by apply Hv.
          * intros m Hm Hplain.
            destruct (Hold m (Hs m Hm Hplain)) as [?|?]; [|auto].
            left. apply Hwl'; tauto.
        + unfold fragmentNamed in Hg. rewrite Hfind in Hg. inversion Hg; subst g.
          unfold filteredBody. fold body. split.
          * intros v Hv' Hplain. apply Hvars'; [by right | done].
          * intros m Hm Hplain. left. apply Hwl'; [by right | done]. }
    destruct (decide (fr_name f ∈ fragmentSet st)); apply Hgoal.
  - exists (λ n, done n ∨ n = x). cbn [worklist collectedVariables]. split.
    + intros n Hn Hplain. destruct (Hold n (Hstart n Hn Hplain)) as [?|?]; auto.
    + intros n g [Hn| ->] Hg.
      * destruct (Hdone n g Hn Hg) as [Hv Hs]. split; [done|].
        intros m Hm Hplain. destruct (Hold m (Hs m Hm Hplain)) as [?|?]; auto.
      * unfold fragmentNamed in Hg. by rewrite Hfind in Hg.
Qed.

(** When the loop ends every reached name has been taken off the worklist. *)
Lemma collectFragmentVariables_done fuel fragmentSet usedFragments r :
  collectFragmentVariables impl schema validFragments vfwt fuel fragmentSet
    usedFragments = Some r →
  ∀ name fragment,
    Reached impl schema validFragments vfwt usedFragments name →
    fragmentNamed validFragments name = Some fragment →
    ∀ v, v ∈ res_usedVariables (filteredBody impl schema vfwt fragment) →
         v ∉ objectPrototypeKeys →
         v ∈ collectedVariables r.
Proof.
  unfold collectFragmentVariables. intros Hrun.
  assert (Hinit : reachInvariant impl schema validFragments vfwt usedFragments
                    (mkCollect usedFragments true usedFragments [] [] fragmentSet)).
  { exists (λ _, False). split; [by left|]. by intros ? ? []. }
  destruct (collectLoop_invariant impl schema validFragments vfwt
              (reachInvariant impl schema validFragments vfwt usedFragments)
              (collectStep_reach usedFragments) fuel _ r Hinit Hrun)
    as [(done & Hstart & Hdone) Hempty].
  rewrite Hempty in Hstart, Hdone.
  assert (Hall : ∀ name,
            Reached impl schema validFragments vfwt usedFragments name → done name).
  { induction 1 as [name Hname Hplain|from fragment name _ IH Hfrom Hname Hplain].
    - destruct (Hstart name Hname Hplain) as [Hnil|?]; [|done].
      by apply elem_of_nil in Hnil.
    - destruct (Hdone from fragment IH Hfrom) as [_ Hs].
      destruct (Hs name Hname Hplain) as [Hnil|?]; [|done].
      by apply elem_of_nil in Hnil. }
  intros name fragment Hreach Hfrag v Hv Hplain.
  by apply (proj1 (Hdone name fragment (Hall name Hreach) Hfrag)).
Qed.

Lemma Reached_mono start start' name :
  (∀ n, n ∈ start → n ∉ objectPrototypeKeys → n ∈ start') →
  Reached impl schema validFragments vfwt start name →
  Reached impl schema validFragments vfwt start' name.
Proof.
  intros Hsub.
  induction 1 as [name Hname Hplain|from fragment name _ IH Hfrom Hname Hplain].
  - apply Reached_start; [by apply Hsub | done].
  - by apply (Reached_spread _ _ _ _ _ from fragment).
Qed.

Lemma filterOperation_keeps fuel st operation st' :
  filterOperation impl schema validFragments vfwt fuel st operation = Some st' →
  ∃ operation',
    newOperations st' = newOperations st ++ [operation'] ∧
    keepsDefinitions impl schema validFragments vfwt operation operation'.
Proof.
  unfold filterOperation. intros Hop.
  destruct (collectFragmentVariables _ _ _ _ _ _ _) as [collected|] eqn:Hcollect;
    [|done].
  simpl in Hop. inversion Hop; subst; clear Hop. cbn [newOperations].
  eexists. split; [reflexivity|].
  set (r := filterSelectionSet impl schema vfwt
              (Named <$> rootType schema (op_operation operation))
              (op_selectionSet operation)) in *.
  intros definition Hdef Hplain Hreach.
  cbn [op_variableDefinitions op_selectionSet] in *.
  apply list_elem_of_filter. split; [|done].
  unfold includes. apply bool_decide_eq_true.
  apply union_intro; [|done]. simpl. rewrite app_nil_r, elem_of_app.
  destruct Hreach as [Hown|(name & fragment & Hname & Hfrag & Hv)].
  - left. unfold r. by rewrite filterSelectionSet_variables.
  - right.
    apply (collectFragmentVariables_done _ _ _ _ Hcollect name fragment);
      [|done| |done].
    + apply (Reached_mono (selectionsSpreads (res_selectionSet r))); [|done].
      intros n Hn Hnplain. apply union_intro; [|done]. simpl.
      rewrite app_nil_r, elem_of_app. right. unfold r in *.
      by rewrite (proj1 (filterSelectionSet_used impl schema vfwt _ _)).
    + unfold filteredBody. by rewrite filterSelectionSet_variables.
Qed.

End ReachProperties.

(** No definition is lost that is still needed, names of inherited
    properties apart: in what [filterDocumentToSchema] returns, every
    operation keeps each of its variable definitions whose variable is not
    named like a property that object literals inherit and is still
    referenced after filtering in the operation itself or in a fragment that
    it reaches through spreads, directly or through other fragments (of
    names that are not so named either) -- also when the document has
    several operations. *)
Theorem needed_variable_definitions_kept :
  ∀ impl fuel schema doc out,
    filterDocumentToSchema impl fuel schema doc = Some out →
    Forall2 (keepsDefinitions impl schema
               (validFragmentsOf schema (fragmentsOf doc))
               (validFragmentsWithTypeOf schema
                  (validFragmentsOf schema (fragmentsOf doc))))
            (operationsOf doc) (operationsOf out).
Proof.
  intros impl fuel schema doc out. apply filterDocumentToSchema_emits.
  intros st operation st'. apply filterOperation_keeps.
Qed.

Lemma needed_variable_definitions_kept_witness :
  ∃ out,
    filterDocumentToSchema implementsOrEquals 2 Booking.bookingSchema
      bookingsFragmentDocument = Some out ∧
    map (λ o, map vd_variable (op_variableDefinitions o)) (operationsOf out)
      = [["id"; "limit"]] ∧
    Forall2 (keepsDefinitions implementsOrEquals Booking.bookingSchema
               (validFragmentsOf Booking.bookingSchema
                  (fragmentsOf bookingsFragmentDocument))
               (validFragmentsWithTypeOf Booking.bookingSchema
                  (validFragmentsOf Booking.bookingSchema
                     (fragmentsOf bookingsFragmentDocument))))
            (operationsOf bookingsFragmentDocument) (operationsOf out).
Proof.
  eexists. split; [vm_compute; reflexivity|].
  split; [vm_compute; reflexivity|].
  apply (needed_variable_definitions_kept implementsOrEquals 2
           Booking.bookingSchema bookingsFragmentDocument).
  vm_compute. reflexivity.
Defined.

(** ** Fields under a parent that has no fields *)



(** ** Filtering a valid document: what comes back *)

Section ValidDocument.

Variable impl :
  GraphQLSchema → option GraphQLNamedType → option GraphQLNamedType → bool.
Variable schema : GraphQLSchema.
Variable fragments : list FragmentDefinitionNode.

Local Abbreviation vfwt := (validFragmentsWithTypeOf schema fragments).

(** The fragment definitions are valid, type-conditioned and plainly
    named, all have a type condition of the schema, and spread fragments
    that are defined. *)
Hypothesis Hall : validFragmentsOf schema fragments = fragments.
Hypothesis Hbodies :
  ∀ f, f ∈ fragments →
       forallb (validSelection impl schema vfwt
                  (Named <$> getType schema (fr_typeCondition f)))
               (fr_selectionSet f) = true ∧
       forallb typeConditioned (fr_selectionSet f) = true.
Hypothesis Hplain : plainNames (map fr_name fragments) = true.
Hypothesis Hdefined :
  ∀ f n, f ∈ fragments → n ∈ selectionsSpreads (fr_selectionSet f) →
         n ∈ map fr_name fragments.

Lemma filteredBody_valid f :
  f ∈ fragments →
  filteredBody impl schema vfwt f =
  mkFilterResult (fr_selectionSet f) (selectionsSpreads (fr_selectionSet f))
    (selectionsVariables (fr_selectionSet f)).
Proof.
  intros Hf. destruct (Hbodies f Hf) as [Hvalid Hcond].
  unfold filteredBody. by apply filterSelectionSet_valid.
Qed.

Lemma defined_plainly name :
  name ∈ map fr_name fragments → definedPlainly fragments name.
Proof.
  intros Hname. split; [by apply (plainNames_elem _ _ Hplain)|].
  apply elem_of_map in Hname as (f & -> & Hf). by exists f.
Qed.

Lemma filteredBody_defined f n :
  f ∈ fragments → n ∈ res_usedFragments (filteredBody impl schema vfwt f) →
  definedPlainly fragments n.
Proof.
  intros Hf Hn. rewrite (filteredBody_valid f Hf) in Hn.
  by apply defined_plainly, (Hdefined f).
Qed.

Lemma fragmentNamed_elem name f :
  fragmentNamed fragments name = Some f → f ∈ fragments ∧ fr_name f = name.
Proof.
  unfold fragmentNamed. intros Hfind. apply find_some in Hfind as [Hin Hname].
  apply bool_decide_eq_true in Hname. injection Hname as Hname.
  by rewrite list_elem_of_In.
Qed.

Lemma Spread_defined start name :
  (∀ n, n ∈ start → n ∈ map fr_name fragments) →
  Spread fragments start name → name ∈ map fr_name fragments.
Proof.
  intros Hstart. induction 1 as [name Hname|from f name _ _ Hfrom Hname].
  - by apply Hstart.
  - destruct (fragmentNamed_elem _ _ Hfrom) as [Hf _].
    by apply (Hdefined f).
Qed.

Lemma Spread_Reached start name :
  (∀ n, n ∈ start → n ∈ map fr_name fragments) →
  Spread fragments start name →
  Reached impl schema fragments vfwt start name.
Proof.
  intros Hstart Hspread.
  induction Hspread as [name Hname|from f name Hprev IH Hfrom Hname].
  - apply Reached_start; [done|]. by apply defined_plainly, Hstart.
  - destruct (fragmentNamed_elem _ _ Hfrom) as [Hf _].
    apply (Reached_spread _ _ _ _ _ from f); [done | done | |].
    + by rewrite (filteredBody_valid f Hf).
    + by apply defined_plainly, (Hdefined f).
Qed.

(** An operation whose selection set is valid and spreads defined
    fragments, and whose declared variables are plainly named and used,
    comes back as it is. *)
Lemma filterOperation_valid fuel st operation st' :
  filterOperation impl schema fragments vfwt fuel st operation = Some st' →
  forallb (validSelection impl schema vfwt
             (Named <$> rootType schema (op_operation operation)))
          (op_selectionSet operation) = true →
  forallb typeConditioned (op_selectionSet operation) = true →
  (∀ n, n ∈ selectionsSpreads (op_selectionSet operation) →
        n ∈ map fr_name fragments) →
  plainNames (map vd_variable (op_variableDefinitions operation)) = true →
  Forall (λ vd, usedBy fragments operation (vd_variable vd))
         (op_variableDefinitions operation) →
  newOperations st' = newOperations st ++ [operation].
Proof.
  unfold filterOperation. intros Hop Hvalid Hcond Hknown Hnames Hused.
  destruct (collectFragmentVariables _ _ _ _ _ _ _) as [collected|] eqn:Hcollect;
    [|done].
  simpl in Hop. inversion Hop; subst; clear Hop. cbn [newOperations].
  rewrite (filterSelectionSet_valid _ _ _ _ _ Hvalid Hcond) in *.
  cbn [res_selectionSet res_usedVariables res_usedFragments] in *.
  rewrite filter_all; [by destruct operation|].
  apply Forall_forall. intros vd Hvd. rewrite Forall_forall in Hused.
  assert (Hvplain : vd_variable vd ∉ objectPrototypeKeys).
  { apply (plainNames_elem _ _ Hnames). apply elem_of_map. by exists vd. }
  unfold includes. apply bool_decide_eq_true.
  apply union_intro; [|done]. simpl. rewrite app_nil_r, elem_of_app.
  destruct (Hused vd Hvd) as [Hown|(name & f & Hname & Hfrag & Hv)]; [by left|].
  right. destruct (fragmentNamed_elem _ _ Hfrag) as [Hf _].
  apply (collectFragmentVariables_done _ _ _ _ _ _ _ _ Hcollect name f);
    [|done| |done].
  - apply (Reached_mono _ _ _ _ (selectionsSpreads (op_selectionSet operation))).
    + intros n Hn Hnplain. apply union_intro; [|done]. simpl.
      rewrite app_nil_r, elem_of_app. by right.
    + by apply Spread_Reached.
  - by rewrite (filteredBody_valid f Hf).
Qed.

(** With one operation and every fragment definition spread, every fragment
    definition is emitted. *)
Lemma collectFragmentVariables_all fuel sels r :
  NoDup (fragmentNames fragments) →
  (∀ n, n ∈ selectionsSpreads sels → n ∈ map fr_name fragments) →
  collectFragmentVariables impl schema fragments vfwt fuel ∅
    (union [[]; selectionsSpreads sels]) = Some r →
  ∀ name, Spread fragments (selectionsSpreads sels) name →
          name ∈ emittedNames r.
Proof.
  intros Hnodup Hknown Hrun.
  assert (Hstart : ∀ n, n ∈ union [[]; selectionsSpreads sels] →
                        definedPlainly fragments n).
  { intros n Hn. apply union_elim in Hn as [Hn _]. simpl in Hn.
    rewrite app_nil_r in Hn. by apply defined_plainly, Hknown. }
  destruct (collectFragmentVariables_closed impl schema fragments vfwt fuel
              _ r filteredBody_defined Hstart Hrun) as [Hnames Hspreads].
  pose proof (collectFragmentVariables_fromFragments _ _ _ _ _ _ _ _ Hrun)
    as [_ Hfrom].
  induction 1 as [name Hname|from f name Hprev IH Hfind Hname].
  - apply Hnames. apply union_intro; [by simpl; rewrite app_nil_r|].
    by apply defined_plainly, Hknown.
  - apply elem_of_map in IH as (f' & Hf'name & Hf').
    destruct (Hfrom f' Hf') as (g & Hg & Hf'eq).
    destruct (fragmentNamed_elem _ _ Hfind) as [Hf Hfname].
    assert (g = f) as ->.
    { assert (Hgname : fr_name g = fr_name f).
      { rewrite Hfname, Hf'name, Hf'eq. done. }
      clear -Hnodup Hg Hf Hgname. unfold fragmentNames in Hnodup.
      apply list_elem_of_lookup in Hg as [i Hi].
      apply list_elem_of_lookup in Hf as [j Hj].
      assert (i = j) as ->; [|congruence].
      apply (NoDup_lookup _ i j (fr_name f) Hnodup).
      - by rewrite list_lookup_fmap, Hi, <- Hgname.
      - by rewrite list_lookup_fmap, Hj. }
    apply (Hspreads f' name Hf'). rewrite Hf'eq. cbn [fr_selectionSet].
    by rewrite (filteredBody_valid f Hf).
Qed.

End ValidDocument.

Lemma same_name_same_fragment (fragments : list FragmentDefinitionNode) f g :
  NoDup (fragmentNames fragments) →
  f ∈ fragments → g ∈ fragments → fr_name f = fr_name g → f = g.
Proof.
  unfold fragmentNames. intros Hnodup Hf Hg Hname.
  apply list_elem_of_lookup in Hf as [i Hi].
  apply list_elem_of_lookup in Hg as [j Hj].
  assert (i = j) as ->; [|congruence].
  apply (NoDup_lookup _ i j (fr_name f) Hnodup).
  - by rewrite list_lookup_fmap, Hi.
  - by rewrite list_lookup_fmap, Hj, Hname.
Qed.

(** C4, amended: on a document that is valid against the schema, in which
    every inline fragment carries a type condition, every declared variable
    is used by its operation (in its selection set or in a fragment it
    spreads), and no fragment or declared variable is named like a property
    that object literals inherit, whatever the transform returns has exactly
    the operations of the input, in order and unchanged, followed by
    fragment definitions of distinct names, each a fragment definition of
    the input with its name, type condition and selection set (directives
    are not copied).  When the document has one operation that spreads
    every fragment definition, these are all the fragment definitions of
    the input, each once, in the order the closure emits them: the document
    comes back up to the order of its fragment definitions.  The transform
    does return when the fragment definitions are ranked. *)
Theorem valid_document_operations_unchanged :
  ∀ impl schema doc,
    validDocument impl schema doc = true →
    documentTypeConditioned doc = true →
    documentNamesPlain doc = true →
    declaredVariablesNeeded doc →
    (∀ fuel out,
       filterDocumentToSchema impl fuel schema doc = Some out →
       operationsOf out = operationsOf doc ∧
       definitions out =
         map OperationDefinition (operationsOf out) ++
         map FragmentDefinition (fragmentsOf out) ∧
       NoDup (fragmentNames (fragmentsOf out)) ∧
       (∀ f', f' ∈ fragmentsOf out →
              ∃ f, f ∈ fragmentsOf doc ∧ f' = reemitted f) ∧
       (∀ operation,
          operationsOf doc = [operation] →
          fragmentsAllSpread doc operation →
          fragmentsOf out ≡ₚ map reemitted (fragmentsOf doc))) ∧
    (∀ w, FragmentsRanked w (fragmentsOf doc) →
          ∃ fuel out, filterDocumentToSchema impl fuel schema doc = Some out).
Proof.
  intros impl schema doc Hvalid Hcond Hnames Hvars.
  unfold validDocument in Hvalid. cbv zeta in Hvalid.
  apply andb_true_iff in Hvalid as [Hfrags Hops].
  apply andb_true_iff in Hfrags as [Hspreads Hfrags].
  assert (Hknown : ∀ n, n ∈ documentSpreads doc →
                        n ∈ map fr_name (fragmentsOf doc)).
  { intros n Hn. rewrite forallb_forall in Hspreads.
    apply list_elem_of_In in Hn. specialize (Hspreads n Hn).
    by apply bool_decide_eq_true in Hspreads. }
  assert (Hdefined : ∀ f n, f ∈ fragmentsOf doc →
                            n ∈ selectionsSpreads (fr_selectionSet f) →
                            n ∈ map fr_name (fragmentsOf doc)).
  { intros f n Hf Hn. by apply Hknown, (documentSpreads_fragment doc f). }
  assert (Hopdefined : ∀ o n, o ∈ operationsOf doc →
                              n ∈ selectionsSpreads (op_selectionSet o) →
                              n ∈ map fr_name (fragmentsOf doc)).
  { intros o n Ho Hn. by apply Hknown, (documentSpreads_operation doc o). }
  clear Hspreads Hknown.
  unfold documentTypeConditioned in Hcond.
  apply andb_true_iff in Hcond as [Hcfrags Hcops].
  unfold documentNamesPlain in Hnames.
  apply andb_true_iff in Hnames as [Hfplain Hvplain].
  assert (Hall : validFragmentsOf schema (fragmentsOf doc) = fragmentsOf doc).
  { apply validFragmentsOf_all. rewrite forallb_forall in *. intros f Hf.
    specialize (Hfrags f Hf). by apply andb_true_iff in Hfrags as [-> _]. }
  rewrite Hall in *.
  assert (Hbodies : ∀ f, f ∈ (fragmentsOf doc) →
            forallb (validSelection impl schema (validFragmentsWithTypeOf schema (fragmentsOf doc))
                       (Named <$> getType schema (fr_typeCondition f)))
                    (fr_selectionSet f) = true ∧
            forallb typeConditioned (fr_selectionSet f) = true).
  { intros f Hf. apply list_elem_of_In in Hf.
    rewrite forallb_forall in Hfrags, Hcfrags.
    specialize (Hfrags f Hf). apply andb_true_iff in Hfrags as [_ Hbody].
    split; [done | by apply Hcfrags]. }
  assert (Hemit : ∀ fuel out,
            filterDocumentToSchema impl fuel schema doc = Some out →
            ∀ f', f' ∈ fragmentsOf out →
                  ∃ f, f ∈ (fragmentsOf doc) ∧ f' = reemitted f).
  { intros fuel out Hrun. unfold filterDocumentToSchema in Hrun.
    rewrite Hall in Hrun.
    destruct (filterOperations _ _ _ _ _ _ _) as [st|] eqn:Hops'; [|done].
    simpl in Hrun. inversion Hrun; subst; clear Hrun.
    rewrite fragmentsOf_emitted. intros f' Hf'.
    destruct (filterOperations_fragments _ _ _ _ _ _ _ _ Hops'
                ltac:(by intros ? Hnil; apply elem_of_nil in Hnil) f' Hf')
      as (f & Hf & ->).
    exists f. split; [done|]. unfold reemitted.
    by rewrite (filteredBody_valid impl schema (fragmentsOf doc) Hbodies f Hf). }
  assert (Hdistinct : ∀ fuel out,
            filterDocumentToSchema impl fuel schema doc = Some out →
            NoDup (fragmentNames (fragmentsOf out))).
  { intros fuel out Hrun. unfold filterDocumentToSchema in Hrun.
    destruct (filterOperations _ _ _ _ _ _ _) as [st|] eqn:Hops'; [|done].
    simpl in Hrun. inversion Hrun; subst; clear Hrun.
    rewrite fragmentsOf_emitted.
    apply (filterOperations_newFragments _ _ _ _ _
             (λ frs, NoDup (fragmentNames frs)) _
             (λ fs uf r Hr,
                proj1 (collectFragmentVariables_emittedOnce _ _ _ _ _ _ _ _ Hr))
             _ _ Hops').
    constructor. }
  split.
  - intros fuel out Hrun. split_and!.
    + assert (Hsame : Forall2 (λ o o',
                forallb (validSelection impl schema (validFragmentsWithTypeOf schema (fragmentsOf doc))
                           (Named <$> rootType schema (op_operation o)))
                        (op_selectionSet o) = true →
                forallb typeConditioned (op_selectionSet o) = true →
                (∀ n, n ∈ selectionsSpreads (op_selectionSet o) →
                      n ∈ map fr_name (fragmentsOf doc)) →
                plainNames (map vd_variable (op_variableDefinitions o)) = true →
                Forall (λ vd, usedBy (fragmentsOf doc) o (vd_variable vd))
                       (op_variableDefinitions o) →
                o' = o) (operationsOf doc) (operationsOf out)).
      { apply (filterDocumentToSchema_emits impl fuel schema doc out); [|done].
        rewrite Hall. intros st operation st' Hop.
        destruct (filterOperation_emits _ _ _ _ _ _ _ _ Hop)
          as (operation' & Hnew & _).
        exists operation'. split; [done|]. intros Hv Hc Hk Hp Hu.
        pose proof (filterOperation_valid impl schema (fragmentsOf doc) Hbodies
                      Hfplain Hdefined fuel st operation st' Hop Hv Hc Hk Hp Hu)
          as Hnew'.
        rewrite Hnew in Hnew'. by apply app_inj_tail in Hnew' as [_ ?]. }
      unfold declaredVariablesNeeded in Hvars.
      rewrite forallb_forall in Hops, Hcops, Hvplain.
      rewrite Forall_forall in Hvars.
      induction Hsame as [|o o' ops ops' Ho _ IH]; [done|].
      assert (Hin : In o (o :: ops)) by (by left).
      rewrite (Ho (Hops _ Hin) (Hcops _ Hin)
                  (λ n, Hopdefined o n (proj2 (list_elem_of_In _ _) Hin))
                  (Hvplain _ Hin)
                  (Hvars o (proj2 (list_elem_of_In _ _) Hin))).
      f_equal.
      apply IH.
      * intros x Hx. apply Hops. by right.
      * intros x Hx. apply Hcops. by right.
      * intros x Hx. apply Hvplain. by right.
      * intros x Hx. apply Hvars. by apply elem_of_cons; right.
      * intros o'' n Ho''. apply Hopdefined. by apply elem_of_cons; right.
    + unfold filterDocumentToSchema in Hrun.
      destruct (filterOperations _ _ _ _ _ _ _) as [st|]; [|done].
      simpl in Hrun. inversion Hrun; subst; clear Hrun.
      by rewrite operationsOf_emitted, fragmentsOf_emitted.
    + by apply (Hdistinct fuel).
    + by apply (Hemit fuel).
    + intros operation Hone [Hnodup Hspread].
      assert (Hnames_out : ∀ name,
                Spread (fragmentsOf doc) (selectionsSpreads (op_selectionSet operation))
                  name →
                name ∈ fragmentNames (fragmentsOf out)).
      { pose proof Hrun as Hrun'. unfold filterDocumentToSchema in Hrun'.
        rewrite Hall, Hone in Hrun'.
        cbn [filterOperations] in Hrun'. unfold filterOperation in Hrun'.
        cbn [doc_usedFragments doc_fragmentSet] in Hrun'.
        rewrite forallb_forall in Hops, Hcops.
        assert (Hin : In operation (operationsOf doc)) by (rewrite Hone; by left).
        rewrite (filterSelectionSet_valid _ _ _ _ _ (Hops _ Hin) (Hcops _ Hin))
          in Hrun'.
        cbn [res_usedFragments] in Hrun'.
        destruct (collectFragmentVariables _ _ _ _ _ _ _) as [collected|]
          eqn:Hcollect; [|done].
        simpl in Hrun'. inversion Hrun'; subst; clear Hrun'.
        match goal with
        | |- context [fragmentsOf
                        (mkDocument (OperationDefinition ?o
                                       :: map FragmentDefinition ?frs))] =>
            change (fragmentsOf
                      (mkDocument (OperationDefinition o
                                     :: map FragmentDefinition frs)))
              with (fragmentsOf
                      (mkDocument (map OperationDefinition [o] ++
                                   map FragmentDefinition frs)))
        end.
        rewrite fragmentsOf_emitted.
        apply (collectFragmentVariables_all impl schema (fragmentsOf doc) Hbodies
                 Hfplain Hdefined fuel (op_selectionSet operation) collected
                 Hnodup); [|done].
        intros n. apply Hopdefined. by apply list_elem_of_In. }
      apply NoDup_Permutation.
      * apply (NoDup_fmap_1 fr_name). by apply (Hdistinct fuel).
      * apply (NoDup_fmap_1 fr_name). rewrite <- list_fmap_compose.
        exact Hnodup.
      * intros f'. split.
        -- intros Hf'. destruct (Hemit fuel out Hrun f' Hf') as (f & Hf & ->).
           apply elem_of_map. by exists f.
        -- intros Hf'. apply elem_of_map in Hf' as (f & -> & Hf).
           rewrite Forall_forall in Hspread.
           pose proof (Hnames_out _ (Hspread f Hf)) as Hname.
           apply elem_of_map in Hname as (f' & Hname & Hf').
           destruct (Hemit fuel out Hrun f' Hf') as (g & Hg & ->).
           cbn [reemitted fr_name] in Hname.
           by rewrite (same_name_same_fragment (fragmentsOf doc) f g Hnodup Hf Hg Hname).
  - intros w Hranked.
    destruct (filterDocumentToSchema_terminates impl w schema doc) as (fuel & out & Hrun);
      [by rewrite Hall|].
    exists fuel, out. by apply Hrun.
Qed.

Lemma valid_document_operations_unchanged_witness :
  ∃ out,
    filterDocumentToSchema implementsOrEquals 3 Blog.schema Blog.getPostById
      = Some out ∧
    operationsOf out = operationsOf Blog.getPostById ∧
    map fr_name (fragmentsOf out) = ["PostOwner"; "Post"] ∧
    fragmentsOf out ≡ₚ map reemitted (fragmentsOf Blog.getPostById).
Proof.
  assert (Hneeded : declaredVariablesNeeded Blog.getPostById).
  { constructor; [|constructor]. constructor; [|constructor].
    left. apply (bool_decide_unpack _). vm_compute. exact I. }
  assert (Hspread : fragmentsAllSpread Blog.getPostById
                      (mkOperation query (Some "getPostById")
                         [mkVariableDefinition "id"
                            (NonNullTypeNode (NamedTypeNode "ID")) None] []
                         [FieldNode None "post"
                            [mkArgument "id" (VariableNode "id")] []
                            (Some [FragmentSpreadNode "Post" [];
                                   FieldNode None "owner" [] []
                                     (Some [FragmentSpreadNode "PostOwner" [];
                                            FieldNode None "email" [] [] None])])])).
  { split.
    - apply (bool_decide_unpack _). vm_compute. exact I.
    - constructor; [|constructor; [|constructor]]; apply Spread_start;
        apply (bool_decide_unpack _); vm_compute; exact I. }
  destruct (proj1 (valid_document_operations_unchanged implementsOrEquals
                     Blog.schema Blog.getPostById
                     ltac:(vm_compute; reflexivity) ltac:(vm_compute; reflexivity)
                     ltac:(vm_compute; reflexivity) Hneeded)
              3 _ ltac:(vm_compute; reflexivity))
    as (Hops & _ & _ & _ & Hperm).
  eexists. split; [vm_compute; reflexivity|].
  split; [exact Hops|]. split; [vm_compute; reflexivity|].
  apply (Hperm _ ltac:(reflexivity) Hspread).
Defined.

(** ** Names of inherited properties *)

Lemma plainNames_forall names :
  plainNames names = true ↔ ∀ name, name ∈ names → name ∉ objectPrototypeKeys.
Proof.
  unfold plainNames. rewrite forallb_forall. split.
  - intros Hall name Hin. apply list_elem_of_In in Hin.
    specialize (Hall _ Hin). by apply bool_decide_eq_true in Hall.
  - intros Hall name Hin. apply bool_decide_eq_true, Hall.
    by apply list_elem_of_In.
Qed.

(** The loop emits fragment definitions under names it took off a worklist
    that [union] made. *)
Lemma collectFragmentVariables_plain impl schema validFragments vfwt fuel
    fragmentSet arrays r :
  collectFragmentVariables impl schema validFragments vfwt fuel fragmentSet
    (union arrays) = Some r →
  plainNames (emittedNames r) = true.
Proof.
  unfold collectFragmentVariables. intros Hrun.
  pose (I := λ st : CollectState,
          (∀ n, n ∈ worklist st → n ∉ objectPrototypeKeys) ∧
          (∀ n, n ∈ emittedNames st → n ∉ objectPrototypeKeys)).
  assert (Hstep : ∀ st, worklist st ≠ [] → I st →
                        I (collectStep impl schema validFragments vfwt st)).
  { intros st Hne [Hwl Hnames].
    destruct (pop_nonempty _ Hne) as (x & rest & Hwl' & _).
    pose proof (collectStep_worklist impl schema validFragments vfwt st x rest
                  Hwl') as Hnext.
    pose proof (collectStep_collected impl schema validFragments vfwt st x rest
                  Hwl') as Hcollected.
    assert (Hx : x ∉ objectPrototypeKeys).
    { apply Hwl. rewrite Hwl'. apply elem_of_app. right.
      by apply list_elem_of_singleton. }
    destruct (find _ validFragments) as [fragment|].
    - destruct Hcollected as (_ & Hname & _ & Hfragments). split.
      + intros n Hn. rewrite Hnext in Hn. by apply union_elim in Hn as [_ ?].
      + intros n Hn. unfold emittedNames in Hn.
        destruct Hfragments as [Heq|Heq]; rewrite Heq in Hn;
          [by apply Hnames|].
        rewrite map_app in Hn. apply elem_of_app in Hn as [Hn|Hn];
          [by apply Hnames|].
        simpl in Hn. apply list_elem_of_singleton in Hn. by rewrite Hn, Hname.
    - destruct Hcollected as [_ Hfragments]. split.
      + intros n Hn. rewrite Hnext in Hn. apply Hwl. rewrite Hwl'.
        apply elem_of_app. by left.
      + intros n Hn. unfold emittedNames in Hn. rewrite Hfragments in Hn.
        by apply Hnames. }
  assert (Hinit : I (mkCollect (union arrays) true (union arrays) [] []
                       fragmentSet)).
  { split; simpl.
    - intros n Hn. by apply union_elim in Hn as [_ ?].
    - intros n Hn. by apply elem_of_nil in Hn. }
  destruct (collectLoop_invariant impl schema validFragments vfwt I Hstep
              fuel _ r Hinit Hrun) as [[_ Hnames] _].
  by apply plainNames_forall.
Qed.

Lemma filterOperations_plain impl schema validFragments vfwt fuel operations :
  ∀ st st',
    filterOperations impl schema validFragments vfwt fuel st operations
      = Some st' →
    plainNames (fragmentNames (newFragments st)) = true →
    plainNames (fragmentNames (newFragments st')) = true.
Proof.
  induction operations as [|operation rest IH]; intros st st' Hops Hst;
    simpl in Hops.
  - by inversion Hops; subst.
  - destruct (filterOperation _ _ _ _ _ st operation) as [st1|] eqn:Hop; [|done].
    simpl in Hops. apply (IH _ _ Hops). clear Hops IH.
    unfold filterOperation in Hop.
    destruct (collectFragmentVariables _ _ _ _ _ _ _) as [collected|] eqn:Hrun;
      [|done].
    simpl in Hop. inversion Hop; subst; clear Hop. cbn [newFragments].
    by apply (collectFragmentVariables_plain _ _ _ _ _ _ _ _ Hrun).
Qed.

(** Nothing that [filterDocumentToSchema] returns declares a variable or
    defines a fragment under the name of a property that object literals
    inherit ([constructor], [toString], [valueOf], [hasOwnProperty],
    [__proto__], ...): [union] never returns such a name, so the loop never
    reaches a fragment definition of that name and the filter of the
    variable definitions never finds that variable among the used ones.
    The references are not removed with the definitions: a valid document
    that uses such names comes back with a variable that is not declared and
    a spread of a fragment that is not defined. *)
Theorem inherited_names_never_emitted :
  ∀ impl fuel schema doc out,
    filterDocumentToSchema impl fuel schema doc = Some out →
    Forall (λ operation',
              plainNames (map vd_variable (op_variableDefinitions operation'))
              = true)
           (operationsOf out) ∧
    plainNames (fragmentNames (fragmentsOf out)) = true.
Proof.
  intros impl fuel schema doc out Hrun. split.
  - assert (Hall : Forall2 (λ _ operation',
                     plainNames (map vd_variable
                                   (op_variableDefinitions operation')) = true)
                     (operationsOf doc) (operationsOf out)).
    { apply (filterDocumentToSchema_emits impl fuel schema doc out); [|done].
      intros st operation st' Hop. unfold filterOperation in Hop.
      destruct (collectFragmentVariables _ _ _ _ _ _ _) as [collected|];
        [|done].
      simpl in Hop. inversion Hop; subst; clear Hop. cbn [newOperations].
      eexists. split; [reflexivity|]. cbn [op_variableDefinitions].
      apply plainNames_forall. intros name Hname.
      apply elem_of_map in Hname as (vd & -> & Hvd).
      apply list_elem_of_filter in Hvd as [Hvd _]. unfold includes in Hvd.
      apply bool_decide_eq_true in Hvd. by apply union_elim in Hvd as [_ ?]. }
    induction Hall; constructor; auto.
  - unfold filterDocumentToSchema in Hrun.
    destruct (filterOperations _ _ _ _ _ _ _) as [st|] eqn:Hops; [|done].
    simpl in Hrun. inversion Hrun; subst; clear Hrun.
    rewrite fragmentsOf_emitted.
    by apply (filterOperations_plain _ _ _ _ _ _ _ _ Hops).
Qed.

Lemma inherited_names_never_emitted_witness :
  validDocument implementsOrEquals Booking.bookingSchema inheritedNamesDocument
    = true ∧
  ∃ out,
    filterDocumentToSchema implementsOrEquals 1 Booking.bookingSchema
      inheritedNamesDocument = Some out ∧
    plainNames (fragmentNames (fragmentsOf out)) = true ∧
    fragmentsOf out = [] ∧
    danglingSpreads out = ["constructor"] ∧
    map (λ o, map vd_variable (op_variableDefinitions o)) (operationsOf out)
      = [[]] ∧
    map undeclaredVariables (operationsOf out) = [["toString"]].
Proof.
  split; [vm_compute; reflexivity|].
  eexists. split; [vm_compute; reflexivity|].
  split.
  - apply (inherited_names_never_emitted implementsOrEquals 1
             Booking.bookingSchema inheritedNamesDocument).
    vm_compute. reflexivity.
  - split_and!; vm_compute; reflexivity.
Defined.
